(** * CntxtCS: a shallow embedding of the C# knowledge-graph extractor

    This development models [src/CntxtCS.py] (class [CSCodeKnowledgeGraph]):
    the regular-expression recognizers, the block extractor, the parameter
    parser, the dependency-file extractor and the networkx [DiGraph] they
    write to.  Text is ASCII, as [list ascii]; node ids and attribute values
    are [string]s. *)

From Stdlib Require Import Ascii String List Bool Arith Lia.
From stdpp Require Import base gmap sets list strings.
Import ListNotations.
Open Scope string_scope.
Set Warnings "-register-all".


(* ================================================================= *)
(** ** Python's [re] module: a backtracking matcher *)

Module Re.

(** Regular expressions as Python's [sre] engine runs them: ordered
    alternation, greedy or lazy repetition, numbered capturing groups. *)
Inductive regex :=
| REps
| RChar (p : ascii -> bool)
| RSeq (r1 r2 : regex)
| RAlt (r1 r2 : regex)
| RStar (greedy : bool) (r : regex)
| RGroup (n : nat) (r : regex).

(** Captured spans, newest first; a group that did not take part is absent. *)
Definition groups := list (nat * (nat * nat)).

Definition orelse {A} (x : option A) (y : unit -> option A) : option A :=
  match x with Some _ => x | None => y tt end.

(** Continuation-passing backtracking: [m r s i g k] tries to match [r] at
    offset [i] of [s]; every way of doing so, in the engine's order, is
    handed to [k] until one succeeds.  A repetition stops an iteration that
    consumes nothing, so [length s - i + 1] rounds are always enough. *)
Fixpoint m (r : regex) (s : list ascii) (i : nat) (g : groups)
    (k : nat -> groups -> option (nat * groups)) {struct r}
    : option (nat * groups) :=
  match r with
  | REps => k i g
  | RChar p =>
      match nth_error s i with
      | Some c => if p c then k (S i) g else None
      | None => None
      end
  | RSeq r1 r2 => m r1 s i g (fun j h => m r2 s j h k)
  | RAlt r1 r2 => orelse (m r1 s i g k) (fun _ => m r2 s i g k)
  | RGroup n r0 => m r0 s i g (fun j h => k j ((n, (i, j)) :: h))
  | RStar greedy r0 =>
      (fix loop (fuel : nat) (i : nat) (g : groups) {struct fuel} :=
         match fuel with
         | O => k i g
         | S f =>
             let more := fun (_ : unit) =>
               m r0 s i g (fun j h => if Nat.leb j i then None else loop f j h) in
             if greedy then orelse (more tt) (fun _ => k i g)
             else orelse (k i g) more
         end) (S (length s - i)) i g
  end.

Definition done_k : nat -> groups -> option (nat * groups) :=
  fun j h => Some (j, h).

(** A match object: start, end and the captured spans. *)
Record match_ := { m_start : nat; m_end : nat; m_groups : groups }.

Definition substr (s : list ascii) (i j : nat) : string :=
  string_of_list_ascii (firstn (j - i) (skipn i s)).

Fixpoint lookup_group (n : nat) (g : groups) : option (nat * nat) :=
  match g with
  | [] => None
  | (n', sp) :: g' => if Nat.eqb n n' then Some sp else lookup_group n g'
  end.

(** [match.group(n)]: [None] when the group did not participate. *)
Definition group (s : list ascii) (mt : match_) (n : nat) : option string :=
  match lookup_group n (m_groups mt) with
  | Some (i, j) => Some (substr s i j)
  | None => None
  end.

(** [re.match(pattern, s)]: anchored at offset 0. *)
Definition re_match (r : regex) (s : list ascii) : option match_ :=
  match m r s 0 [] done_k with
  | Some (j, h) => Some {| m_start := 0; m_end := j; m_groups := h |}
  | None => None
  end.

(** [re.finditer(pattern, s)]: leftmost matches, scanning resumes at the
    end of the previous match (one further on after an empty one). *)
Fixpoint finditer_from (fuel : nat) (r : regex) (s : list ascii) (i : nat)
    : list match_ :=
  match fuel with
  | O => []
  | S f =>
      if Nat.ltb (length s) i then []
      else match m r s i [] done_k with
           | Some (j, h) =>
               {| m_start := i; m_end := j; m_groups := h |}
                 :: finditer_from f r s (if Nat.eqb j i then S i else j)
           | None => finditer_from f r s (S i)
           end
  end.

Definition finditer (r : regex) (s : list ascii) : list match_ :=
  finditer_from (S (length s)) r s 0.

(** Building blocks of the patterns. *)
Definition chr (c : ascii) : regex := RChar (fun d => Ascii.eqb d c).
Fixpoint lit_l (l : list ascii) : regex :=
  match l with
  | [] => REps
  | [c] => chr c
  | c :: l' => RSeq (chr c) (lit_l l')
  end.
Definition lit (s : string) : regex := lit_l (list_ascii_of_string s).
Fixpoint seqs (l : list regex) : regex :=
  match l with
  | [] => REps
  | [r] => r
  | r :: l' => RSeq r (seqs l')
  end.
Fixpoint alts (l : list regex) : regex :=
  match l with
  | [] => RChar (fun _ => false)
  | [r] => r
  | r :: l' => RAlt r (alts l')
  end.
Definition opt (r : regex) : regex := RAlt r REps.
Definition star (r : regex) : regex := RStar true r.
Definition lazy_star (r : regex) : regex := RStar false r.
Definition plus (r : regex) : regex := RSeq r (RStar true r).
Definition words (l : list string) : regex := alts (map lit l).

(** Character classes of Python 3 [str] patterns, on ASCII. *)
Definition is_space (c : ascii) : bool :=
  let n := nat_of_ascii c in
  (Nat.leb 9 n && Nat.leb n 13) || (Nat.leb 28 n && Nat.leb n 32).
Definition is_word (c : ascii) : bool :=
  let n := nat_of_ascii c in
  (Nat.leb 48 n && Nat.leb n 57) || (Nat.leb 65 n && Nat.leb n 90)
  || (Nat.leb 97 n && Nat.leb n 122) || Nat.eqb n 95.
Definition in_set (l : string) (c : ascii) : bool :=
  existsb (Ascii.eqb c) (list_ascii_of_string l).

Definition sp : regex := RChar is_space.                  (* \s *)
Definition w : regex := RChar is_word.                    (* \w *)
Definition any_char : regex := RChar (fun _ => true).     (* [\s\S] *)
Definition dot : regex :=                                 (* . *)
  RChar (fun c => negb (Ascii.eqb c (ascii_of_nat 10))).
Definition not_in (l : string) : regex :=                 (* [^...] *)
  RChar (fun c => negb (in_set l c)).
(** [[\w\<\>\[\]]]: the type-token class. *)
Definition type_tok : regex :=
  RChar (fun c => is_word c || in_set "<>[]" c).

(** An access-modifier group [(public|protected|internal|private)?]. *)
Definition access_grp : regex :=
  opt (RGroup 1 (words ["public"; "protected"; "internal"; "private"])).

Definition dotted : regex :=                              (* [\w\.]+ *)
  plus (RChar (fun c => is_word c || Ascii.eqb c "."%char)).

(** The patterns of [src/CntxtCS.py], in source order. *)
Definition using_pattern : regex :=       (* using\s+(?:static\s+)?([\w\.]+)\s*; *)
  seqs [lit "using"; plus sp; opt (RSeq (lit "static") (plus sp));
        RGroup 1 dotted; star sp; chr ";"].

Definition namespace_pattern : regex :=   (* namespace\s+([\w\.]+)\s*{([\s\S]*?)} *)
  seqs [lit "namespace"; plus sp; RGroup 1 dotted; star sp; chr "{";
        RGroup 2 (lazy_star any_char); chr "}"].

(** [(?:\s*:\s*([\w,\s]+))?], the inheritance list, as group 4. *)
Definition inherits_grp : regex :=
  opt (seqs [star sp; chr ":"; star sp;
             RGroup 4 (plus (RChar (fun c => is_word c || Ascii.eqb c ","%char
                                             || is_space c)))]).

Definition class_pattern : regex :=
  seqs [access_grp; star sp;
        opt (RGroup 2 (words ["abstract"; "sealed"; "static"; "partial"]));
        star sp; lit "class"; plus sp; RGroup 3 (plus w); inherits_grp;
        star sp; chr "{"].

Definition method_pattern : regex :=
  seqs [access_grp; star sp;
        opt (RGroup 2 (words ["static"; "virtual"; "override"; "abstract";
                              "async"; "sealed"; "new"; "extern"]));
        star sp; RGroup 3 (plus type_tok); plus sp; RGroup 4 (plus w);
        star sp; chr "("; RGroup 5 (star (not_in ")")); chr ")"; star sp;
        chr "{"].

Definition member_modifiers : list string :=
  ["static"; "virtual"; "override"; "abstract"; "sealed"; "new"; "extern"].

Definition property_pattern : regex :=
  seqs [access_grp; star sp; opt (RGroup 2 (words member_modifiers));
        star sp; RGroup 3 (plus type_tok); plus sp; RGroup 4 (plus w);
        star sp; chr "{"; star sp;
        RGroup 5 (words ["get;"; "set;"; "get; set;"; "set; get;"]);
        star sp; chr "}"].

Definition event_pattern : regex :=
  seqs [access_grp; star sp; opt (RGroup 2 (words member_modifiers));
        star sp; lit "event"; plus sp; RGroup 3 (plus type_tok); plus sp;
        RGroup 4 (plus w); star sp; chr ";"].

Definition field_pattern : regex :=
  seqs [access_grp; star sp;
        opt (RGroup 2 (words ["static"; "readonly"; "const"; "volatile"]));
        star sp; RGroup 3 (plus type_tok); plus sp; RGroup 4 (plus w);
        star sp; opt (RGroup 5 (seqs [chr "="; star sp; plus (not_in ";")]));
        chr ";"].

Definition interface_pattern : regex :=
  seqs [access_grp; star sp; opt (RGroup 2 (lit "partial")); star sp;
        lit "interface"; plus sp; RGroup 3 (plus w); inherits_grp;
        star sp; chr "{"].

Definition iface_method_pattern : regex :=
  seqs [RGroup 1 (plus type_tok); plus sp; RGroup 2 (plus w); star sp;
        chr "("; RGroup 3 (star (not_in ")")); chr ")"; star sp; chr ";"].

Definition iface_property_pattern : regex :=
  seqs [RGroup 1 (plus type_tok); plus sp; RGroup 2 (plus w); star sp;
        chr "{"; star sp;
        RGroup 3 (alts [seqs [lit "get;"; star sp; lit "set;"];
                        lit "get;"; lit "set;"]);
        star sp; chr "}"].

Definition enum_pattern : regex :=
  seqs [access_grp; star sp; lit "enum"; plus sp; RGroup 2 (plus w);
        star sp; chr "{"; RGroup 3 (lazy_star any_char); chr "}"].

Definition struct_pattern : regex :=
  seqs [access_grp; star sp; opt (RGroup 2 (lit "partial")); star sp;
        lit "struct"; plus sp; RGroup 3 (plus w); inherits_grp;
        star sp; chr "{"].

(** The three patterns of [_parse_single_parameter]. *)
Definition modifier_pattern : regex :=  (* (ref|out|in|params)\s+([\w\<\>\[\]]+)\s+(\w+) *)
  seqs [RGroup 1 (words ["ref"; "out"; "in"; "params"]); plus sp;
        RGroup 2 (plus type_tok); plus sp; RGroup 3 (plus w)].

Definition type_name_pattern : regex :=  (* ([\w\<\>\[\]]+)\s+(\w+) *)
  seqs [RGroup 1 (plus type_tok); plus sp; RGroup 2 (plus w)].

Definition default_pattern : regex :=  (* ([\w\<\>\[\]]+\s+\w+)\s*=\s*(.+) *)
  seqs [RGroup 1 (seqs [plus type_tok; plus sp; plus w]); star sp; chr "=";
        star sp; RGroup 2 (plus dot)].

(** The manifest patterns of [_process_dependency_file]; [dq] is the
    double-quote character. *)
Definition dq : ascii := ascii_of_nat 34.
Definition quoted_grp (n : nat) : regex :=
  seqs [chr dq; RGroup n (plus (RChar (fun c => negb (Ascii.eqb c dq))));
        chr dq].

Definition package_reference_pattern : regex :=
  seqs [lit "<PackageReference"; plus sp; lit "Include="; quoted_grp 1;
        plus sp; lit "Version="; quoted_grp 2; star sp; lit "/>"].

Definition package_config_pattern : regex :=
  seqs [lit "<package"; plus sp; lit "id="; quoted_grp 1; plus sp;
        lit "version="; quoted_grp 2; plus sp; lazy_star dot; lit "/>"].

End Re.

(* ================================================================= *)
(** ** Python [str] methods used by the source, on ASCII text *)

Module Py.

Definition is_space := Re.is_space.

Fixpoint lstrip (l : list ascii) : list ascii :=
  match l with
  | c :: l' => if is_space c then lstrip l' else l
  | [] => []
  end.

(** [s.strip()]. *)
Definition strip (l : list ascii) : list ascii := rev (lstrip (rev (lstrip l))).

Fixpoint split_aux (sep : ascii) (l : list ascii) (cur : list ascii)
    : list (list ascii) :=
  match l with
  | [] => [rev cur]
  | c :: l' =>
      if Ascii.eqb c sep then rev cur :: split_aux sep l' []
      else split_aux sep l' (c :: cur)
  end.

(** [s.split(sep)] for a one-character separator. *)
Definition split (sep : ascii) (l : list ascii) : list (list ascii) :=
  split_aux sep l [].

Fixpoint is_prefix (p l : list ascii) : bool :=
  match p, l with
  | [], _ => true
  | c :: p', d :: l' => Ascii.eqb c d && is_prefix p' l'
  | _ :: _, [] => false
  end.

Definition startswith (p : string) (s : string) : bool :=
  is_prefix (list_ascii_of_string p) (list_ascii_of_string s).

Definition endswith (p : string) (s : string) : bool :=
  is_prefix (rev (list_ascii_of_string p)) (rev (list_ascii_of_string s)).

(** [c in s] for a character [c]. *)
Definition contains (c : ascii) (s : string) : bool :=
  existsb (Ascii.eqb c) (list_ascii_of_string s).

Definition str (l : list ascii) : string := string_of_list_ascii l.

End Py.

(* ================================================================= *)
(** ** Values: JSON documents, parameter descriptors, attribute dicts *)

(** What [json.loads] returns; an object keeps the first position and the
    last value of a repeated key, as Python's [dict] does. *)
Inductive json :=
| JNull
| JBool (b : bool)
| JNum (raw : string)
| JStr (s : string)
| JArr (l : list json)
| JObj (l : list (string * json)).

(** The dict built by [_parse_single_parameter]: [definition] and [name]
    are always present, the other keys only when set. *)
Record Param := {
  p_definition : string;
  p_modifier : option string;
  p_type : option string;
  p_name : string;
  p_default : option string
}.

(** Attribute values stored on nodes and edges. *)
Inductive value :=
| VStr (s : string)
| VNone
| VParams (ps : list Param)
| VJson (j : json).

(** A Python attribute dict, in insertion order. *)
Definition attrs := list (string * value).

Fixpoint attr_get (k : string) (a : attrs) : option value :=
  match a with
  | [] => None
  | (k', v) :: a' => if String.eqb k k' then Some v else attr_get k a'
  end.

Fixpoint attr_set (k : string) (v : value) (a : attrs) : attrs :=
  match a with
  | [] => [(k, v)]
  | (k', v') :: a' =>
      if String.eqb k k' then (k', v) :: a' else (k', v') :: attr_set k v a'
  end.

(** [d.update(upd)]. *)
Definition attr_update (a upd : attrs) : attrs :=
  fold_left (fun acc kv => attr_set kv.1 kv.2 acc) upd a.

(* ================================================================= *)
(** ** The networkx [DiGraph] *)

(** [_node] maps a node id to its attribute dict; [_adj] keeps one
    attribute dict per ordered pair of node ids. *)
Record digraph := {
  g_nodes : gmap string attrs;
  g_edges : gmap (string * string) attrs
}.

Definition empty_graph : digraph := {| g_nodes := ∅; g_edges := ∅ |}.

Definition has_node (G : digraph) (n : string) : bool :=
  bool_decide (is_Some (g_nodes G !! n)).

(** [G.add_node(n, **attr)]: a new node gets [attr]; an existing one has
    its dict updated. *)
Definition add_node (G : digraph) (n : string) (a : attrs) : digraph :=
  {| g_nodes := <[n := match g_nodes G !! n with
                       | Some a0 => attr_update a0 a
                       | None => a
                       end]> (g_nodes G);
     g_edges := g_edges G |}.

(** Adding an edge first adds a missing endpoint with an empty dict. *)
Definition add_endpoint (nodes : gmap string attrs) (n : string)
    : gmap string attrs :=
  match nodes !! n with
  | Some _ => nodes
  | None => <[n := []]> nodes
  end.

(** [G.add_edge(u, v, **attr)]: the pair's dict is created or updated. *)
Definition add_edge (G : digraph) (u v : string) (a : attrs) : digraph :=
  {| g_nodes := add_endpoint (add_endpoint (g_nodes G) u) v;
     g_edges := <[(u, v) := attr_update
                               (default [] (g_edges G !! (u, v))) a]>
                  (g_edges G) |}.

(* ================================================================= *)
(** ** The analyzer object and its effects *)

(** The counters of [__init__] that the extraction updates. *)
Record stats := {
  total_namespaces : nat;
  total_classes : nat;
  total_methods : nat;
  total_interfaces : nat;
  total_enums : nat;
  total_structs : nat;
  total_usings : nat;
  total_dependencies : gset string
}.

(** The fields of [CSCodeKnowledgeGraph] written during a run; [stderr]
    collects the error reports, newest first. *)
Record St := {
  graph : digraph;
  class_methods : gmap string (list string);
  method_params : gmap string (list Param);
  method_returns : gmap string string;
  analyzed_files : gset string;
  files_processed : nat;
  st_stats : stats;
  stderr : list string
}.

Definition empty_stats : stats :=
  {| total_namespaces := 0; total_classes := 0; total_methods := 0;
     total_interfaces := 0; total_enums := 0; total_structs := 0;
     total_usings := 0; total_dependencies := ∅ |}.

(** The object right after [__init__]. *)
Definition init_state : St :=
  {| graph := empty_graph; class_methods := ∅; method_params := ∅;
     method_returns := ∅; analyzed_files := ∅; files_processed := 0;
     st_stats := empty_stats; stderr := [] |}.

(** Python code that raises: an exception carries its message and the
    object as it was when the exception was raised. *)
Inductive res (A : Type) :=
| Ok (a : A) (s : St)
| Exc (e : string) (s : St).
Arguments Ok {A} a s.
Arguments Exc {A} e s.

Definition M (A : Type) : Type := St -> res A.

Definition ret {A} (a : A) : M A := fun s => Ok a s.
Definition bind {A B} (c : M A) (f : A -> M B) : M B := fun s =>
  match c s with
  | Ok a s' => f a s'
  | Exc e s' => Exc e s'
  end.

Notation "'let*' x ':=' c 'in' k" := (bind c (fun x => k))
  (at level 200, x name, c at level 100, k at level 200).

Definition raise {A} (e : string) : M A := fun s => Exc e s.
Definition gets {A} (f : St -> A) : M A := fun s => Ok (f s) s.
Definition modify (f : St -> St) : M unit := fun s => Ok tt (f s).

(** [try: c except Exception as e: handler(str(e))]. *)
Definition try_except {A} (c : M A) (handler : string -> M A) : M A :=
  fun s => match c s with
           | Ok a s' => Ok a s'
           | Exc e s' => handler e s'
           end.

(** Field updates. *)
Definition set_graph (G : digraph) (s : St) : St :=
  {| graph := G; class_methods := class_methods s;
     method_params := method_params s; method_returns := method_returns s;
     analyzed_files := analyzed_files s; files_processed := files_processed s;
     st_stats := st_stats s; stderr := stderr s |}.
Definition set_class_methods (cm : gmap string (list string)) (s : St) : St :=
  {| graph := graph s; class_methods := cm;
     method_params := method_params s; method_returns := method_returns s;
     analyzed_files := analyzed_files s; files_processed := files_processed s;
     st_stats := st_stats s; stderr := stderr s |}.
Definition set_method_params (mp : gmap string (list Param)) (s : St) : St :=
  {| graph := graph s; class_methods := class_methods s;
     method_params := mp; method_returns := method_returns s;
     analyzed_files := analyzed_files s; files_processed := files_processed s;
     st_stats := st_stats s; stderr := stderr s |}.
Definition set_method_returns (mr : gmap string string) (s : St) : St :=
  {| graph := graph s; class_methods := class_methods s;
     method_params := method_params s; method_returns := mr;
     analyzed_files := analyzed_files s; files_processed := files_processed s;
     st_stats := st_stats s; stderr := stderr s |}.
Definition set_analyzed (af : gset string) (s : St) : St :=
  {| graph := graph s; class_methods := class_methods s;
     method_params := method_params s; method_returns := method_returns s;
     analyzed_files := af; files_processed := files_processed s;
     st_stats := st_stats s; stderr := stderr s |}.
Definition set_files_processed (n : nat) (s : St) : St :=
  {| graph := graph s; class_methods := class_methods s;
     method_params := method_params s; method_returns := method_returns s;
     analyzed_files := analyzed_files s; files_processed := n;
     st_stats := st_stats s; stderr := stderr s |}.
Definition set_stats (t : stats) (s : St) : St :=
  {| graph := graph s; class_methods := class_methods s;
     method_params := method_params s; method_returns := method_returns s;
     analyzed_files := analyzed_files s; files_processed := files_processed s;
     st_stats := t; stderr := stderr s |}.
Definition set_stderr (l : list string) (s : St) : St :=
  {| graph := graph s; class_methods := class_methods s;
     method_params := method_params s; method_returns := method_returns s;
     analyzed_files := analyzed_files s; files_processed := files_processed s;
     st_stats := st_stats s; stderr := l |}.

(** [print(msg, file=sys.stderr)]. *)
Definition report (msg : string) : M unit :=
  modify (fun s => set_stderr (msg :: stderr s) s).

(** [self.graph.has_node(n)], [self.graph.add_node(n, **a)] and
    [self.graph.add_edge(u, v, relation=r)]. *)
Definition graph_has_node (n : string) : M bool :=
  gets (fun s => has_node (graph s) n).
Definition graph_add_node (n : string) (a : attrs) : M unit :=
  modify (fun s => set_graph (add_node (graph s) n a) s).
Definition graph_add_edge (u v : string) (r : string) : M unit :=
  modify (fun s => set_graph (add_edge (graph s) u v [("relation", VStr r)]) s).

(** The guard written before every [add_node] of the source:
    [if not self.graph.has_node(n): self.graph.add_node(n, **a)]. *)
Definition add_node_if_absent (n : string) (a : attrs) : M unit :=
  let* b := graph_has_node n in
  if b then ret tt else graph_add_node n a.

Definition bump (f : stats -> stats) : M unit :=
  modify (fun s => set_stats (f (st_stats s)) s).

(** The recognizer loop of the source:
    [for match in matches: try: body(match) except Exception as e:
     print(f"Error processing KIND {name}: {e}", file=sys.stderr)]. *)
Fixpoint for_each_caught {X} (msg : X -> string -> string) (body : X -> M unit)
    (l : list X) : M unit :=
  match l with
  | [] => ret tt
  | x :: l' =>
      let* _ := try_except (body x) (fun e => report (msg x e)) in
      for_each_caught msg body l'
  end.

(** A plain [for] loop (no handler). *)
Fixpoint for_each {X} (body : X -> M unit) (l : list X) : M unit :=
  match l with
  | [] => ret tt
  | x :: l' => let* _ := body x in for_each body l'
  end.

(* ================================================================= *)
(** ** [_extract_block] *)

(** The loop body: append the character, push on [{], pop on [}] (or stop
    when the stack is already empty), stop once the stack is empty. *)
Fixpoint extract_loop (cs : list ascii) (stack : list ascii) : list ascii :=
  match cs with
  | [] => []
  | c :: cs' =>
      let next := fun st : list ascii =>
        match st with [] => [] | _ :: _ => extract_loop cs' st end in
      c :: (if Ascii.eqb c "{" then next (c :: stack)
            else if Ascii.eqb c "}" then
              match stack with [] => [] | _ :: st => next st end
            else next stack)
  end.

Definition extract_block (content : list ascii) (start_index : nat)
    : list ascii :=
  extract_loop (skipn start_index content) [].

(* ================================================================= *)
(** ** [_parse_parameters] and [_parse_single_parameter] *)

Definition grp (s : list ascii) (mt : Re.match_) (n : nat) : string :=
  default "" (Re.group s mt n).

Definition parse_single_parameter (param : list ascii) : Param :=
  let '(modifier, type_, name) :=
    match Re.re_match Re.modifier_pattern param with
    | Some mt => (Some (grp param mt 1), Some (grp param mt 2), grp param mt 3)
    | None =>
        match Re.re_match Re.type_name_pattern param with
        | Some mt => (None, Some (grp param mt 1), grp param mt 2)
        | None => (None, None, Py.str (Py.strip param))
        end
    end in
  let dflt :=
    match Re.re_match Re.default_pattern param with
    | Some mt =>
        Some (Py.str (Py.strip (list_ascii_of_string (grp param mt 2))))
    | None => None
    end in
  {| p_definition := Py.str param; p_modifier := modifier; p_type := type_;
     p_name := name; p_default := dflt |}.

(** [if current_param.strip(): params.append(...)]. *)
Definition flush (cur : list ascii) (params : list Param) : list Param :=
  match Py.strip cur with
  | [] => params
  | stripped => params ++ [parse_single_parameter stripped]
  end.

(** The character loop; the depth is a Python [int] and may go negative. *)
Fixpoint parse_loop (cs : list ascii) (depth : Z) (cur : list ascii)
    (params : list Param) : list Param :=
  match cs with
  | [] => flush cur params
  | c :: cs' =>
      if Re.in_set "<([{" c then parse_loop cs' (depth + 1)%Z (cur ++ [c]) params
      else if Re.in_set ">)]}" c then parse_loop cs' (depth - 1)%Z (cur ++ [c]) params
      else if Ascii.eqb c "," && Z.eqb depth 0 then
        parse_loop cs' depth [] (flush cur params)
      else parse_loop cs' depth (cur ++ [c]) params
  end.

Definition parse_parameters (params_str : list ascii) : list Param :=
  match params_str with
  | [] => []
  | _ => parse_loop params_str 0%Z [] []
  end.

(* ================================================================= *)
(** ** The recognizers *)

(** [s.strip()] on a [string]. *)
Definition sstrip (s : string) : string :=
  Py.str (Py.strip (list_ascii_of_string s)).

Definition node_id (prefix name : string) : string := prefix ++ ": " ++ name.
(** [f"Method: {method_name} ({class_node})"] and the like. *)
Definition member_id (prefix name owner : string) : string :=
  prefix ++ ": " ++ name ++ " (" ++ owner ++ ")".

Definition err (kind name e : string) : string :=
  "Error processing " ++ kind ++ " " ++ name ++ ": " ++ e.

(** The counters, as [self.total_x += 1] and [self.total_dependencies.add]. *)
Definition incr_namespaces (t : stats) : stats :=
  {| total_namespaces := S (total_namespaces t); total_classes := total_classes t;
     total_methods := total_methods t; total_interfaces := total_interfaces t;
     total_enums := total_enums t; total_structs := total_structs t;
     total_usings := total_usings t; total_dependencies := total_dependencies t |}.
Definition incr_classes (t : stats) : stats :=
  {| total_namespaces := total_namespaces t; total_classes := S (total_classes t);
     total_methods := total_methods t; total_interfaces := total_interfaces t;
     total_enums := total_enums t; total_structs := total_structs t;
     total_usings := total_usings t; total_dependencies := total_dependencies t |}.
Definition incr_methods (t : stats) : stats :=
  {| total_namespaces := total_namespaces t; total_classes := total_classes t;
     total_methods := S (total_methods t); total_interfaces := total_interfaces t;
     total_enums := total_enums t; total_structs := total_structs t;
     total_usings := total_usings t; total_dependencies := total_dependencies t |}.
Definition incr_interfaces (t : stats) : stats :=
  {| total_namespaces := total_namespaces t; total_classes := total_classes t;
     total_methods := total_methods t; total_interfaces := S (total_interfaces t);
     total_enums := total_enums t; total_structs := total_structs t;
     total_usings := total_usings t; total_dependencies := total_dependencies t |}.
Definition incr_enums (t : stats) : stats :=
  {| total_namespaces := total_namespaces t; total_classes := total_classes t;
     total_methods := total_methods t; total_interfaces := total_interfaces t;
     total_enums := S (total_enums t); total_structs := total_structs t;
     total_usings := total_usings t; total_dependencies := total_dependencies t |}.
Definition incr_structs (t : stats) : stats :=
  {| total_namespaces := total_namespaces t; total_classes := total_classes t;
     total_methods := total_methods t; total_interfaces := total_interfaces t;
     total_enums := total_enums t; total_structs := S (total_structs t);
     total_usings := total_usings t; total_dependencies := total_dependencies t |}.
Definition incr_usings (t : stats) : stats :=
  {| total_namespaces := total_namespaces t; total_classes := total_classes t;
     total_methods := total_methods t; total_interfaces := total_interfaces t;
     total_enums := total_enums t; total_structs := total_structs t;
     total_usings := S (total_usings t); total_dependencies := total_dependencies t |}.
Definition add_dependency (d : string) (t : stats) : stats :=
  {| total_namespaces := total_namespaces t; total_classes := total_classes t;
     total_methods := total_methods t; total_interfaces := total_interfaces t;
     total_enums := total_enums t; total_structs := total_structs t;
     total_usings := total_usings t;
     total_dependencies := {[ d ]} ∪ total_dependencies t |}.

(** The bookkeeping of [_process_methods] and [_process_interface_members]:
    [self.method_params[n] = ...] and [self.method_returns[n] = ...]. *)
Definition record_params (n : string) (ps : list Param) : M unit :=
  modify (fun s => set_method_params (<[n := ps]> (method_params s)) s).
Definition record_return (n : string) (r : string) : M unit :=
  modify (fun s => set_method_returns (<[n := r]> (method_returns s)) s).
(** [self.class_methods.setdefault(class_node, []).append(method_name)]. *)
Definition record_class_method (class_node method_name : string) : M unit :=
  modify (fun s =>
    set_class_methods
      (<[class_node := (default [] (class_methods s !! class_node)
                        ++ [method_name])%list]> (class_methods s)) s).

Definition process_methods (content : list ascii) (class_node : string)
    : M unit :=
  for_each_caught (fun mt e => err "method" (grp content mt 4) e)
    (fun mt =>
       let access_modifier := default "private" (Re.group content mt 1) in
       let modifiers := default "" (Re.group content mt 2) in
       let return_type := grp content mt 3 in
       let method_name := grp content mt 4 in
       let parameters := list_ascii_of_string (grp content mt 5) in
       let method_node := member_id "Method" method_name class_node in
       let* _ := add_node_if_absent method_node
         [("type", VStr "method"); ("name", VStr method_name);
          ("access_modifier", VStr access_modifier);
          ("modifiers", VStr (sstrip modifiers));
          ("return_type", VStr (sstrip return_type));
          ("parameters", VParams (parse_parameters parameters))] in
       let* _ := graph_add_edge class_node method_node "HAS_METHOD" in
       let* _ := record_class_method class_node method_name in
       let* _ := record_params method_node (parse_parameters parameters) in
       let* _ := record_return method_node (sstrip return_type) in
       bump incr_methods)
    (Re.finditer Re.method_pattern content).

Definition process_properties (content : list ascii) (class_node : string)
    : M unit :=
  for_each_caught (fun mt e => err "property" (grp content mt 4) e)
    (fun mt =>
       let property_node := member_id "Property" (grp content mt 4) class_node in
       let* _ := add_node_if_absent property_node
         [("type", VStr "property"); ("name", VStr (grp content mt 4));
          ("access_modifier", VStr (default "private" (Re.group content mt 1)));
          ("modifiers", VStr (sstrip (default "" (Re.group content mt 2))));
          ("property_type", VStr (sstrip (grp content mt 3)));
          ("accessors", VStr (sstrip (grp content mt 5)))] in
       graph_add_edge class_node property_node "HAS_PROPERTY")
    (Re.finditer Re.property_pattern content).

Definition process_events (content : list ascii) (class_node : string)
    : M unit :=
  for_each_caught (fun mt e => err "event" (grp content mt 4) e)
    (fun mt =>
       let event_node := member_id "Event" (grp content mt 4) class_node in
       let* _ := add_node_if_absent event_node
         [("type", VStr "event"); ("name", VStr (grp content mt 4));
          ("access_modifier", VStr (default "private" (Re.group content mt 1)));
          ("modifiers", VStr (sstrip (default "" (Re.group content mt 2))));
          ("event_type", VStr (sstrip (grp content mt 3)))] in
       graph_add_edge class_node event_node "HAS_EVENT")
    (Re.finditer Re.event_pattern content).

Definition process_fields (content : list ascii) (class_node : string)
    : M unit :=
  for_each_caught (fun mt e => err "field" (grp content mt 4) e)
    (fun mt =>
       let field_node := member_id "Field" (grp content mt 4) class_node in
       let* _ := add_node_if_absent field_node
         [("type", VStr "field"); ("name", VStr (grp content mt 4));
          ("access_modifier", VStr (default "private" (Re.group content mt 1)));
          ("modifiers", VStr (sstrip (default "" (Re.group content mt 2))));
          ("field_type", VStr (sstrip (grp content mt 3)))] in
       graph_add_edge class_node field_node "HAS_FIELD")
    (Re.finditer Re.field_pattern content).

(** The [inherits] attribute: [inherits.strip() if inherits else None]. *)
Definition inherits_attr (inherits : option string) : value :=
  match inherits with Some i => VStr (sstrip i) | None => VNone end.

(** [[b.strip() for b in inherits.split(',')]]. *)
Definition base_names (inherits : string) : list string :=
  map (fun b => Py.str (Py.strip b))
      (Py.split "," (list_ascii_of_string inherits)).

(** The inheritance loop shared by classes, interfaces and structs. *)
Definition process_bases (kind prefix relation : string) (owner : string)
    (inherits : option string) : M unit :=
  match inherits with
  | None => ret tt
  | Some i =>
      for_each (fun base =>
        let base_node := node_id prefix base in
        let* _ := add_node_if_absent base_node
                    [("type", VStr kind); ("name", VStr base)] in
        graph_add_edge owner base_node relation) (base_names i)
  end.

Definition process_classes (content : list ascii) (parent_node : string)
    : M unit :=
  for_each_caught (fun mt e => err "class" (grp content mt 3) e)
    (fun mt =>
       let class_name := grp content mt 3 in
       let inherits := Re.group content mt 4 in
       let class_node := node_id "Class" class_name in
       let* _ := add_node_if_absent class_node
         [("type", VStr "class"); ("name", VStr class_name);
          ("access_modifier", VStr (default "internal" (Re.group content mt 1)));
          ("modifiers", VStr (sstrip (default "" (Re.group content mt 2))));
          ("inherits", inherits_attr inherits)] in
       let* _ := graph_add_edge parent_node class_node "CONTAINS_CLASS" in
       let* _ := bump incr_classes in
       let class_body := extract_block content (Re.m_end mt - 1) in
       let* _ := process_methods class_body class_node in
       let* _ := process_properties class_body class_node in
       let* _ := process_events class_body class_node in
       let* _ := process_fields class_body class_node in
       process_bases "class" "Class" "INHERITS" class_node inherits)
    (Re.finditer Re.class_pattern content).

Definition process_interface_members (content : list ascii)
    (interface_node : string) : M unit :=
  let* _ := for_each_caught
    (fun mt e => err "interface method" (grp content mt 2) e)
    (fun mt =>
       let return_type := grp content mt 1 in
       let method_name := grp content mt 2 in
       let parameters := list_ascii_of_string (grp content mt 3) in
       let method_node := member_id "Method" method_name interface_node in
       let* _ := add_node_if_absent method_node
         [("type", VStr "method"); ("name", VStr method_name);
          ("access_modifier", VStr "public"); ("modifiers", VStr "abstract");
          ("return_type", VStr (sstrip return_type));
          ("parameters", VParams (parse_parameters parameters))] in
       let* _ := graph_add_edge interface_node method_node "HAS_METHOD" in
       let* _ := record_params method_node (parse_parameters parameters) in
       record_return method_node (sstrip return_type))
    (Re.finditer Re.iface_method_pattern content) in
  for_each_caught (fun mt e => err "interface property" (grp content mt 2) e)
    (fun mt =>
       let property_node := member_id "Property" (grp content mt 2) interface_node in
       let* _ := add_node_if_absent property_node
         [("type", VStr "property"); ("name", VStr (grp content mt 2));
          ("access_modifier", VStr "public"); ("modifiers", VStr "abstract");
          ("property_type", VStr (sstrip (grp content mt 1)));
          ("accessors", VStr (sstrip (grp content mt 3)))] in
       graph_add_edge interface_node property_node "HAS_PROPERTY")
    (Re.finditer Re.iface_property_pattern content).

Definition process_interfaces (content : list ascii) (parent_node : string)
    : M unit :=
  for_each_caught (fun mt e => err "interface" (grp content mt 3) e)
    (fun mt =>
       let interface_name := grp content mt 3 in
       let inherits := Re.group content mt 4 in
       let interface_node := node_id "Interface" interface_name in
       let* _ := add_node_if_absent interface_node
         [("type", VStr "interface"); ("name", VStr interface_name);
          ("access_modifier", VStr (default "internal" (Re.group content mt 1)));
          ("modifiers", VStr (sstrip (default "" (Re.group content mt 2))));
          ("inherits", inherits_attr inherits)] in
       let* _ := graph_add_edge parent_node interface_node "CONTAINS_INTERFACE" in
       let* _ := bump incr_interfaces in
       let interface_body := extract_block content (Re.m_end mt - 1) in
       let* _ := process_interface_members interface_body interface_node in
       process_bases "interface" "Interface" "INHERITS_INTERFACE"
         interface_node inherits)
    (Re.finditer Re.interface_pattern content).

(** [[member.strip().split('=')[0].strip() for member in
      enum_body.split(',') if member.strip()]]. *)
Definition enum_members (enum_body : list ascii) : list string :=
  map (fun member =>
         Py.str (Py.strip (default [] (head (Py.split "=" (Py.strip member))))))
      (List.filter (fun member => match Py.strip member with [] => false | _ => true end)
              (Py.split "," enum_body)).

Definition process_enums (content : list ascii) (parent_node : string)
    : M unit :=
  for_each_caught (fun mt e => err "enum" (grp content mt 2) e)
    (fun mt =>
       let enum_name := grp content mt 2 in
       let enum_node := node_id "Enum" enum_name in
       let* _ := add_node_if_absent enum_node
         [("type", VStr "enum"); ("name", VStr enum_name);
          ("access_modifier", VStr (default "internal" (Re.group content mt 1)))] in
       let* _ := graph_add_edge parent_node enum_node "CONTAINS_ENUM" in
       let* _ := bump incr_enums in
       for_each (fun member =>
         let member_node := member_id "EnumMember" member enum_node in
         let* _ := add_node_if_absent member_node
                     [("type", VStr "enum_member"); ("name", VStr member)] in
         graph_add_edge enum_node member_node "HAS_MEMBER")
         (enum_members (list_ascii_of_string (grp content mt 3))))
    (Re.finditer Re.enum_pattern content).

Definition process_structs (content : list ascii) (parent_node : string)
    : M unit :=
  for_each_caught (fun mt e => err "struct" (grp content mt 3) e)
    (fun mt =>
       let struct_name := grp content mt 3 in
       let inherits := Re.group content mt 4 in
       let struct_node := node_id "Struct" struct_name in
       let* _ := add_node_if_absent struct_node
         [("type", VStr "struct"); ("name", VStr struct_name);
          ("access_modifier", VStr (default "internal" (Re.group content mt 1)));
          ("modifiers", VStr (sstrip (default "" (Re.group content mt 2))));
          ("inherits", inherits_attr inherits)] in
       let* _ := graph_add_edge parent_node struct_node "CONTAINS_STRUCT" in
       let* _ := bump incr_structs in
       let struct_body := extract_block content (Re.m_end mt - 1) in
       let* _ := process_methods struct_body struct_node in
       let* _ := process_properties struct_body struct_node in
       let* _ := process_fields struct_body struct_node in
       process_bases "struct" "Struct" "INHERITS" struct_node inherits)
    (Re.finditer Re.struct_pattern content).

Definition process_namespaces (content : list ascii) (file_node : string)
    : M unit :=
  for_each_caught (fun mt e => err "namespace" (grp content mt 1) e)
    (fun mt =>
       let namespace_name := grp content mt 1 in
       let namespace_body := list_ascii_of_string (grp content mt 2) in
       let namespace_node := node_id "Namespace" namespace_name in
       let* _ := add_node_if_absent namespace_node
         [("type", VStr "namespace"); ("name", VStr namespace_name)] in
       let* _ := graph_add_edge file_node namespace_node "CONTAINS_NAMESPACE" in
       let* _ := bump incr_namespaces in
       let* _ := process_classes namespace_body namespace_node in
       let* _ := process_interfaces namespace_body namespace_node in
       let* _ := process_enums namespace_body namespace_node in
       process_structs namespace_body namespace_node)
    (Re.finditer Re.namespace_pattern content).

Definition process_usings (content : list ascii) (file_node : string)
    : M unit :=
  for_each_caught (fun mt e => err "using" (grp content mt 1) e)
    (fun mt =>
       let namespace := grp content mt 1 in
       let using_node := node_id "Namespace" namespace in
       let* _ := add_node_if_absent using_node
         [("type", VStr "namespace"); ("name", VStr namespace)] in
       let* _ := graph_add_edge file_node using_node "USES_NAMESPACE" in
       let* _ := bump incr_usings in
       if negb (Py.startswith "System" namespace) && Py.contains "." namespace
       then bump (add_dependency
                    (Py.str (default [] (head (Py.split "."
                                                 (list_ascii_of_string namespace))))))
       else ret tt)
    (Re.finditer Re.using_pattern content).

(* ================================================================= *)
(** ** [json.loads], on ASCII documents *)

Module Json.

(** JSON whitespace: space, tab, line feed, carriage return. *)
Definition is_ws (c : ascii) : bool :=
  let n := nat_of_ascii c in
  Nat.eqb n 32 || Nat.eqb n 9 || Nat.eqb n 10 || Nat.eqb n 13.

Fixpoint skip_ws (s : list ascii) : list ascii :=
  match s with
  | c :: s' => if is_ws c then skip_ws s' else s
  | [] => []
  end.

Definition hex_val (c : ascii) : option nat :=
  let n := nat_of_ascii c in
  if Nat.leb 48 n && Nat.leb n 57 then Some (n - 48)
  else if Nat.leb 97 n && Nat.leb n 102 then Some (n - 87)
  else if Nat.leb 65 n && Nat.leb n 70 then Some (n - 55)
  else None.

(** The body of a string literal after its opening quote.  [\uXXXX]
    escapes are decoded when they denote an ASCII character; control
    characters are refused, as in [json]'s default strict mode. *)
Fixpoint parse_string (s : list ascii) (acc : list ascii)
    : option (list ascii * list ascii) :=
  match s with
  | [] => None
  | c :: s' =>
      if Ascii.eqb c Re.dq then Some (rev acc, s')
      else if Nat.ltb (nat_of_ascii c) 32 then None
      else if Ascii.eqb c "\" then
        match s' with
        | e :: s'' =>
            let simple := fun d => parse_string s'' (d :: acc) in
            if Ascii.eqb e Re.dq then simple Re.dq
            else if Ascii.eqb e "\" then simple "\"%char
            else if Ascii.eqb e "/" then simple "/"%char
            else if Ascii.eqb e "b" then simple (ascii_of_nat 8)
            else if Ascii.eqb e "f" then simple (ascii_of_nat 12)
            else if Ascii.eqb e "n" then simple (ascii_of_nat 10)
            else if Ascii.eqb e "r" then simple (ascii_of_nat 13)
            else if Ascii.eqb e "t" then simple (ascii_of_nat 9)
            else if Ascii.eqb e "u" then
              match s'' with
              | a :: b :: c3 :: d :: s3 =>
                  match hex_val a, hex_val b, hex_val c3, hex_val d with
                  | Some a, Some b, Some c3, Some d =>
                      let v := ((a * 16 + b) * 16 + c3) * 16 + d in
                      if Nat.ltb v 128 then parse_string s3 (ascii_of_nat v :: acc)
                      else None
                  | _, _, _, _ => None
                  end
              | _ => None
              end
            else None
        | [] => None
        end
      else parse_string s' (c :: acc)
  end.

(** [json.scanner.NUMBER_RE]. *)
Definition digit : Re.regex := Re.RChar (fun c => Re.in_set "0123456789" c).
Definition number_pattern : Re.regex :=
  Re.seqs [Re.opt (Re.chr "-");
           Re.alts [Re.chr "0";
                    Re.RSeq (Re.RChar (fun c => Re.in_set "123456789" c))
                            (Re.star digit)];
           Re.opt (Re.RSeq (Re.chr ".") (Re.plus digit));
           Re.opt (Re.seqs [Re.RChar (fun c => Re.in_set "eE" c);
                            Re.opt (Re.RChar (fun c => Re.in_set "+-" c));
                            Re.plus digit])].

(** [dict(pairs)]: a repeated key keeps its first position, last value. *)
Fixpoint obj_set (k : string) (v : json) (l : list (string * json))
    : list (string * json) :=
  match l with
  | [] => [(k, v)]
  | (k', v') :: l' =>
      if String.eqb k k' then (k', v) :: l' else (k', v') :: obj_set k v l'
  end.

Fixpoint parse_value (fuel : nat) (s : list ascii) {struct fuel}
    : option (json * list ascii) :=
  match fuel with
  | O => None
  | S f =>
      match s with
      | [] => None
      | c :: s' =>
          if Ascii.eqb c Re.dq then
            option_map (fun '(str, r) => (JStr (Py.str str), r)) (parse_string s' [])
          else if Ascii.eqb c "{" then
            match skip_ws s' with
            | c2 :: r => if Ascii.eqb c2 "}" then Some (JObj [], r)
                         else parse_members f (c2 :: r) []
            | [] => None
            end
          else if Ascii.eqb c "[" then
            match skip_ws s' with
            | c2 :: r => if Ascii.eqb c2 "]" then Some (JArr [], r)
                         else parse_elements f (c2 :: r) []
            | [] => None
            end
          else if Py.startswith "null" (Py.str s) then Some (JNull, skipn 4 s)
          else if Py.startswith "true" (Py.str s) then Some (JBool true, skipn 4 s)
          else if Py.startswith "false" (Py.str s) then Some (JBool false, skipn 5 s)
          else match Re.re_match number_pattern s with
               | Some mt => Some (JNum (Re.substr s 0 (Re.m_end mt)),
                                  skipn (Re.m_end mt) s)
               | None =>
                   if Py.startswith "NaN" (Py.str s) then Some (JNum "NaN", skipn 3 s)
                   else if Py.startswith "Infinity" (Py.str s)
                   then Some (JNum "Infinity", skipn 8 s)
                   else if Py.startswith "-Infinity" (Py.str s)
                   then Some (JNum "-Infinity", skipn 9 s)
                   else None
               end
      end
  end
(** Members of an object, from the quote of a key on. *)
with parse_members (fuel : nat) (s : list ascii) (acc : list (string * json))
    {struct fuel} : option (json * list ascii) :=
  match fuel with
  | O => None
  | S f =>
      match s with
      | c :: s' =>
          if Ascii.eqb c Re.dq then
            match parse_string s' [] with
            | Some (k, r) =>
                match skip_ws r with
                | c2 :: r2 =>
                    if Ascii.eqb c2 ":" then
                      match parse_value f (skip_ws r2) with
                      | Some (v, r3) =>
                          let acc' := obj_set (Py.str k) v acc in
                          match skip_ws r3 with
                          | c3 :: r4 =>
                              if Ascii.eqb c3 "}" then Some (JObj acc', r4)
                              else if Ascii.eqb c3 "," then
                                parse_members f (skip_ws r4) acc'
                              else None
                          | [] => None
                          end
                      | None => None
                      end
                    else None
                | [] => None
                end
            | None => None
            end
          else None
      | [] => None
      end
  end
(** Elements of an array, from the first value on. *)
with parse_elements (fuel : nat) (s : list ascii) (acc : list json)
    {struct fuel} : option (json * list ascii) :=
  match fuel with
  | O => None
  | S f =>
      match parse_value f s with
      | Some (v, r) =>
          match skip_ws r with
          | c :: r2 =>
              if Ascii.eqb c "]" then Some (JArr (rev (v :: acc)), r2)
              else if Ascii.eqb c "," then parse_elements f (skip_ws r2) (v :: acc)
              else None
          | [] => None
          end
      | None => None
      end
  end.

(** [json.loads(s)]; [None] when it raises. *)
Definition loads (s : list ascii) : option json :=
  match parse_value (4 * length s + 4) (skip_ws s) with
  | Some (v, r) => match skip_ws r with [] => Some v | _ => None end
  | None => None
  end.

(** The Python type name, for [AttributeError] messages. *)
Definition py_type (j : json) : string :=
  match j with
  | JNull => "NoneType" | JBool _ => "bool" | JNum _ => "number"
  | JStr _ => "str" | JArr _ => "list" | JObj _ => "dict"
  end.

Fixpoint obj_get (k : string) (l : list (string * json)) : option json :=
  match l with
  | [] => None
  | (k', v) :: l' => if String.eqb k k' then Some v else obj_get k l'
  end.

End Json.

(* ================================================================= *)
(** ** [_process_dependency_file], [_process_file], [analyze_codebase] *)

(** [with open(path, encoding="utf-8") as f: content = f.read()]: a file
    is given by what [f.read()] returns, [None] when it raises. *)
Definition read_file (content : option (list ascii)) : M (list ascii) :=
  match content with
  | Some c => ret c
  | None => raise "'utf-8' codec can't decode the file"
  end.

Definition mark_analyzed (file_path : string) : M unit :=
  modify (fun s => set_analyzed ({[ file_path ]} ∪ analyzed_files s) s).

Definition is_analyzed (file_path : string) : M bool :=
  gets (fun s => bool_decide (file_path ∈ analyzed_files s)).

(** A dependency node and its edge, as each manifest loop writes them. *)
Definition add_dependency_node (file_node name : string) (version : value)
    (relation : string) : M unit :=
  let dep_node := node_id "Dependency" name in
  let* _ := add_node_if_absent dep_node
    [("type", VStr "dependency"); ("name", VStr name); ("version", version)] in
  let* _ := graph_add_edge file_node dep_node relation in
  bump (add_dependency name).

(** [dep_info.get("resolved", "")]: a value of the document. *)
Definition json_value (j : json) : value :=
  match j with JStr s => VStr s | _ => VJson j end.

Definition attribute_error {A} (j : json) (attr : string) : M A :=
  raise ("'" ++ Json.py_type j ++ "' object has no attribute '" ++ attr ++ "'").

(** The [packages.lock.json] branch: [data.get("dependencies", {})],
    [.items()] and [dep_info.get("resolved", "")] need dicts. *)
Definition process_lock_file (file_node : string) (content : list ascii)
    : M unit :=
  match Json.loads content with
  | None => raise "Expecting value"
  | Some data =>
      let* dependencies :=
        match data with
        | JObj l => ret (default (JObj []) (Json.obj_get "dependencies" l))
        | _ => attribute_error data "get"
        end in
      let* items :=
        match dependencies with
        | JObj l => ret l
        | _ => attribute_error dependencies "items"
        end in
      for_each (fun '(dep_name, dep_info) =>
        let* version :=
          match dep_info with
          | JObj l => ret (json_value (default (JStr "") (Json.obj_get "resolved" l)))
          | _ => attribute_error dep_info "get"
          end in
        add_dependency_node file_node dep_name version "HAS_LOCKED_DEPENDENCY")
        items
  end.

Definition process_dependency_file (file_path : string)
    (file_content : option (list ascii)) : M unit :=
  try_except
    (let* analyzed := is_analyzed file_path in
     if analyzed then ret tt else
     let* content := read_file file_content in
     let file_node := node_id "Dependency File" file_path in
     let* _ := mark_analyzed file_path in
     let* _ := add_node_if_absent file_node
                 [("type", VStr "dependency_file"); ("path", VStr file_path)] in
     if Py.endswith ".csproj" file_path then
       for_each (fun mt =>
         add_dependency_node file_node (grp content mt 1)
           (VStr (grp content mt 2)) "HAS_DEPENDENCY")
         (Re.finditer Re.package_reference_pattern content)
     else if Py.endswith "packages.config" file_path then
       for_each (fun mt =>
         add_dependency_node file_node (grp content mt 1)
           (VStr (grp content mt 2)) "HAS_DEPENDENCY")
         (Re.finditer Re.package_config_pattern content)
     else if Py.endswith "packages.lock.json" file_path then
       process_lock_file file_node content
     else ret tt)
    (fun e => report ("Error processing dependency file " ++ file_path ++ ": " ++ e)).

Definition process_file (file_path : string) (file_content : option (list ascii))
    : M unit :=
  let* analyzed := is_analyzed file_path in
  if analyzed then ret tt else
  try_except
    (let* _ := modify (fun s => set_files_processed (S (files_processed s)) s) in
     let* content := read_file file_content in
     let file_node := node_id "File" file_path in
     let* _ := mark_analyzed file_path in
     let* _ := add_node_if_absent file_node
                 [("type", VStr "file"); ("path", VStr file_path)] in
     let* _ := process_usings content file_node in
     process_namespaces content file_node)
    (fun e => report ("Error processing " ++ file_path ++ ": " ++ e)).

(** A file as the second [os.walk] pass of [analyze_codebase] meets it,
    outside the ignored directories: its path relative to the root (which
    stands for [os.path.join(root, file)] too), its name, and its text. *)
Record source_file := {
  sf_path : string;
  sf_name : string;
  sf_content : option (list ascii)
}.

Definition ignored_files : list string :=
  [".gitignore"; ".gitattributes"; ".editorconfig"].

Definition analyze_one (f : source_file) : M unit :=
  if existsb (String.eqb (sf_name f)) ignored_files then ret tt
  else if Py.endswith ".cs" (sf_name f) then
    process_file (sf_path f) (sf_content f)
  else if Py.endswith ".csproj" (sf_name f) || Py.endswith "packages.config" (sf_name f)
          || Py.endswith "packages.lock.json" (sf_name f) then
    process_dependency_file (sf_path f) (sf_content f)
  else ret tt.

Definition analyze_codebase (files : list source_file) : M unit :=
  for_each analyze_one files.

(** The state a computation leaves, whether it returned or raised. *)
Definition final_state {A} (r : res A) : St :=
  match r with Ok _ s => s | Exc _ s => s end.

Definition run (files : list source_file) (s : St) : St :=
  final_state (analyze_codebase files s).

(* ================================================================= *)
(** * Specifications and proofs *)

Open Scope list_scope.

(* ----------------------------------------------------------------- *)
(** ** Brace depth, for [_extract_block] *)

Definition brace_delta (c : ascii) : Z :=
  if Ascii.eqb c "{" then 1%Z else if Ascii.eqb c "}" then (-1)%Z else 0%Z.

(** [{] minus [}] in a piece of text. *)
Fixpoint brace_depth (l : list ascii) : Z :=
  match l with
  | [] => 0%Z
  | c :: l' => (brace_delta c + brace_depth l')%Z
  end.

(** Starting at depth [d], the first [n] characters bring the depth back
    to zero, and no shorter non-empty prefix does. *)
Definition closes_at (d : Z) (cs : list ascii) (n : nat) : Prop :=
  0 < n <= length cs /\ (d + brace_depth (firstn n cs))%Z = 0%Z /\
  forall n', 0 < n' < n -> (d + brace_depth (firstn n' cs))%Z <> 0%Z.

Definition never_closes (d : Z) (cs : list ascii) : Prop :=
  forall n, 0 < n <= length cs -> (d + brace_depth (firstn n cs))%Z <> 0%Z.

Lemma closes_at_cons d c cs n :
  (d + brace_delta c)%Z <> 0%Z ->
  closes_at (d + brace_delta c) cs n -> closes_at d (c :: cs) (S n).
Proof.
  intros Hc (Hn & Hz & Hmin). repeat split.
  - lia.
  - simpl. lia.
  - simpl. lia.
  - intros n' Hn'. destruct n' as [|n'']; [lia|].
    destruct n'' as [|k].
    + simpl. rewrite Z.add_0_r. exact Hc.
    + simpl. specialize (Hmin (S k) ltac:(lia)). simpl in Hmin. lia.
Qed.

Lemma never_closes_cons d c cs :
  (d + brace_delta c)%Z <> 0%Z ->
  never_closes (d + brace_delta c) cs -> never_closes d (c :: cs).
Proof.
  intros Hc Hnc n Hn. destruct n as [|n'']; [lia|].
  destruct n'' as [|k].
  - simpl. rewrite Z.add_0_r. exact Hc.
  - simpl. specialize (Hnc (S k)). simpl in Hnc, Hn.
    specialize (Hnc ltac:(lia)). lia.
Qed.

(** The loop of [_extract_block] with a non-empty stack of open braces. *)
Lemma extract_loop_spec (cs stack : list ascii) :
  stack <> [] -> (forall x, In x stack -> x = "{"%char) ->
  (exists n, closes_at (Z.of_nat (length stack)) cs n /\
             extract_loop cs stack = firstn n cs)
  \/ (never_closes (Z.of_nat (length stack)) cs /\ extract_loop cs stack = cs).
Proof.
  revert stack. induction cs as [|c cs IH]; intros stack Hne Hall.
  - right. split; [intros n Hn; simpl in Hn; lia | reflexivity].
  - simpl extract_loop.
    destruct (Ascii.eqb c "{") eqn:Eo.
    + apply Ascii.eqb_eq in Eo. subst c.
      assert (Hd : (Z.of_nat (length stack) + brace_delta "{")%Z
                   = Z.of_nat (length ("{"%char :: stack))).
      { simpl. unfold brace_delta. simpl. lia. }
      destruct (IH ("{"%char :: stack)) as [(n & Hn & He) | (Hn & He)].
      * discriminate.
      * intros x [<-|Hx]; auto.
      * left. exists (S n). split.
        -- apply closes_at_cons; rewrite Hd; [simpl; lia | exact Hn].
        -- simpl. rewrite He. reflexivity.
      * right. split.
        -- apply never_closes_cons; rewrite Hd; [simpl; lia | exact Hn].
        -- simpl. rewrite He. reflexivity.
    + destruct (Ascii.eqb c "}") eqn:Ec.
      * apply Ascii.eqb_eq in Ec. subst c.
        destruct stack as [|x st]; [congruence|].
        assert (Hd : (Z.of_nat (length (x :: st)) + brace_delta "}")%Z
                     = Z.of_nat (length st)).
        { simpl. unfold brace_delta. simpl. lia. }
        destruct st as [|y st'].
        -- left. exists 1. repeat split; simpl; unfold brace_delta; simpl; try lia.
        -- destruct (IH (y :: st')) as [(n & Hn & He) | (Hn & He)].
           ++ discriminate.
           ++ intros z Hz. apply Hall. right. exact Hz.
           ++ left. exists (S n). split.
              ** apply closes_at_cons; rewrite Hd; [simpl; lia | exact Hn].
              ** simpl. rewrite He. reflexivity.
           ++ right. split.
              ** apply never_closes_cons; rewrite Hd; [simpl; lia | exact Hn].
              ** simpl. rewrite He. reflexivity.
      * assert (Hd : (Z.of_nat (length stack) + brace_delta c)%Z
                     = Z.of_nat (length stack)).
        { unfold brace_delta. rewrite Eo, Ec. lia. }
        destruct stack as [|x st]; [congruence|].
        destruct (IH (x :: st)) as [(n & Hn & He) | (Hn & He)]; auto.
        -- left. exists (S n). split.
           ++ apply closes_at_cons; rewrite Hd; [simpl; lia | exact Hn].
           ++ simpl. rewrite He. reflexivity.
        -- right. split.
           ++ apply never_closes_cons; rewrite Hd; [simpl; lia | exact Hn].
           ++ simpl. rewrite He. reflexivity.
Qed.

Lemma skipn_nth_error {X} (l : list X) i x :
  nth_error l i = Some x -> skipn i l = x :: skipn (S i) l.
Proof.
  revert i. induction l as [|y l IH]; intros [|i] H; simpl in *;
    try discriminate.
  - injection H as ->. reflexivity.
  - apply IH. exact H.
Qed.

(** C4: from an opening brace, [_extract_block] returns the shortest
    prefix whose braces balance (every [{] counts +1, every [}] counts -1,
    done when the depth is back to zero), whatever the nesting depth; when
    the depth never returns to zero it returns the whole rest of the text. *)
Theorem extract_block_matching_close (content : list ascii) (start : nat) :
  nth_error content start = Some "{"%char ->
  (exists n, closes_at 0 (skipn start content) n /\
             extract_block content start = firstn n (skipn start content))
  \/ (never_closes 0 (skipn start content) /\
      extract_block content start = skipn start content).
Proof.
  intros Hbrace. unfold extract_block.
  rewrite (skipn_nth_error _ _ _ Hbrace).
  set (rest := skipn (S start) content).
  simpl extract_loop.
  assert (Hd : (0 + brace_delta "{")%Z = Z.of_nat (length ["{"%char])).
  { reflexivity. }
  destruct (extract_loop_spec rest ["{"%char]) as [(n & Hn & He) | (Hn & He)].
  - discriminate.
  - intros x [<-|[]]. reflexivity.
  - left. exists (S n). split.
    + apply closes_at_cons; rewrite Hd; [discriminate | exact Hn].
    + simpl. rewrite He. reflexivity.
  - right. split.
    + apply never_closes_cons; rewrite Hd; [discriminate | exact Hn].
    + simpl. rewrite He. reflexivity.
Qed.

(** A nested block, [{a{b}c}d] from offset 0, and an unclosed one. *)
Definition nested_text : list ascii := list_ascii_of_string "x{a{b}c}d".
Definition unclosed_text : list ascii := list_ascii_of_string "x{a{b}c".

Example extract_block_nested :
  extract_block nested_text 1 = list_ascii_of_string "{a{b}c}".
Proof. reflexivity. Qed.

Example extract_block_unclosed :
  extract_block unclosed_text 1 = list_ascii_of_string "{a{b}c".
Proof. reflexivity. Qed.

Lemma extract_block_matching_close_witness :
  nth_error nested_text 1 = Some "{"%char /\
  ((exists n, closes_at 0 (skipn 1 nested_text) n /\
              extract_block nested_text 1 = firstn n (skipn 1 nested_text))
   \/ (never_closes 0 (skipn 1 nested_text) /\
       extract_block nested_text 1 = skipn 1 nested_text)).
Proof.
  split; [reflexivity|].
  apply (extract_block_matching_close nested_text 1). reflexivity.
Defined.

(* ----------------------------------------------------------------- *)
(** ** Top-level commas, for [_parse_parameters] *)

(** One combined counter: any of [<([{] opens, any of [>)]}] closes. *)
Definition bracket_delta (c : ascii) : Z :=
  if Re.in_set "<([{" c then 1%Z
  else if Re.in_set ">)]}" c then (-1)%Z else 0%Z.

Fixpoint bracket_depth (l : list ascii) : Z :=
  match l with
  | [] => 0%Z
  | c :: l' => (bracket_delta c + bracket_depth l')%Z
  end.

(** The spec's splitting: the text [s] is cut at every comma whose prefix
    [firstn i s] has bracket depth zero, and nowhere else. *)
Fixpoint split_top_from (s cs : list ascii) (i : nat) (cur : list ascii)
    : list (list ascii) :=
  match cs with
  | [] => [cur]
  | c :: cs' =>
      if Ascii.eqb c "," && Z.eqb (bracket_depth (firstn i s)) 0
      then cur :: split_top_from s cs' (S i) []
      else split_top_from s cs' (S i) (cur ++ [c])
  end.

Definition split_top (s : list ascii) : list (list ascii) :=
  split_top_from s s 0 [].

(** Each segment is trimmed and, if non-empty, parsed. *)
Definition segment_params (segs : list (list ascii)) : list Param :=
  flat_map (fun seg => match Py.strip seg with
                       | [] => []
                       | x => [parse_single_parameter x]
                       end) segs.

Lemma bracket_depth_app l1 l2 :
  bracket_depth (l1 ++ l2) = (bracket_depth l1 + bracket_depth l2)%Z.
Proof. induction l1 as [|c l1 IH]; simpl; lia. Qed.

Lemma flush_segment cur params :
  flush cur params = params ++ segment_params [cur].
Proof.
  unfold flush, segment_params. simpl.
  destruct (Py.strip cur); simpl; rewrite ?app_nil_r; reflexivity.
Qed.

Lemma parse_loop_split_top (cs pre cur : list ascii) (params : list Param) :
  parse_loop cs (bracket_depth pre) cur params
  = params ++ segment_params (split_top_from (pre ++ cs) cs (length pre) cur).
Proof.
  revert pre cur params. induction cs as [|c cs IH]; intros pre cur params.
  - simpl. apply flush_segment.
  - assert (Hs : pre ++ c :: cs = (pre ++ [c]) ++ cs).
    { rewrite <- app_assoc. reflexivity. }
    assert (Hf : firstn (length pre) (pre ++ c :: cs) = pre).
    { rewrite firstn_app, Nat.sub_diag, firstn_O, app_nil_r.
      apply firstn_all. }
    assert (Hl : S (length pre) = length (pre ++ [c])).
    { rewrite length_app. simpl. lia. }
    assert (Hd : bracket_depth (pre ++ [c])
                 = (bracket_depth pre + bracket_delta c)%Z).
    { rewrite bracket_depth_app. simpl. lia. }
    simpl parse_loop. simpl split_top_from. rewrite Hf.
    unfold bracket_delta in Hd.
    destruct (Re.in_set "<([{" c) eqn:Eo.
    + assert (Ec : Ascii.eqb c "," = false).
      { destruct (Ascii.eqb c ",") eqn:E; [|reflexivity].
        apply Ascii.eqb_eq in E. subst c. discriminate. }
      rewrite Ec. simpl.
      replace (bracket_depth pre + 1)%Z with (bracket_depth (pre ++ [c]))
        by lia.
      rewrite IH, <- Hs, Hl. reflexivity.
    + destruct (Re.in_set ">)]}" c) eqn:Ecl.
      * assert (Ec : Ascii.eqb c "," = false).
        { destruct (Ascii.eqb c ",") eqn:E; [|reflexivity].
          apply Ascii.eqb_eq in E. subst c. discriminate. }
        rewrite Ec. simpl.
        replace (bracket_depth pre - 1)%Z with (bracket_depth (pre ++ [c]))
          by lia.
        rewrite IH, <- Hs, Hl. reflexivity.
      * rewrite Z.add_0_r in Hd.
        destruct (Ascii.eqb c "," && Z.eqb (bracket_depth pre) 0) eqn:Ecomma.
        -- rewrite <- Hd at 1. rewrite (IH (pre ++ [c]) [] (flush cur params)).
           rewrite flush_segment, <- Hs, Hl, <- app_assoc.
           unfold segment_params. simpl. rewrite app_nil_r. reflexivity.
        -- rewrite <- Hd at 1. rewrite IH, <- Hs, Hl. reflexivity.
Qed.

(** C3: [_parse_parameters] cuts its input exactly at the commas of bracket
    depth zero (one counter for [<([{] against [>)]}], so commas nested in
    any bracket pair never cut), trims the pieces, parses the non-empty
    ones in order, and maps the empty string to no descriptor at all. *)
Theorem parse_parameters_top_level_commas (s : list ascii) :
  parse_parameters s = segment_params (split_top s)
  /\ parse_parameters [] = [].
Proof.
  split; [|reflexivity].
  destruct s as [|c s'].
  - reflexivity.
  - unfold parse_parameters, split_top.
    change 0%Z with (bracket_depth []).
    rewrite parse_loop_split_top. reflexivity.
Qed.

Example parse_parameters_nested_commas :
  map p_definition
    (parse_parameters (list_ascii_of_string
       "Dictionary<int, string> d, Func<(int a, int b), int> f, int[] x"))
  = ["Dictionary<int, string> d"; "Func<(int a, int b), int> f"; "int[] x"].
Proof. reflexivity. Qed.

(* ----------------------------------------------------------------- *)
(** ** Reasoning about the analyzer's effects *)

(** [c] started in a state satisfying [Pre] leaves a state satisfying
    [Post], whether it returns or raises. *)
Definition hoare {A} (Pre : St -> Prop) (c : M A) (Post : St -> Prop) : Prop :=
  forall s, Pre s -> Post (final_state (c s)).

Section Hoare.
Context (I : St -> Prop).

Lemma hoare_ret {A} (a : A) : hoare I (ret a) I.
Proof. intros s H. exact H. Qed.

Lemma hoare_raise {A} e : hoare I (@raise A e) I.
Proof. intros s H. exact H. Qed.

Lemma hoare_gets {A} (f : St -> A) : hoare I (gets f) I.
Proof. intros s H. exact H. Qed.

Lemma hoare_modify f : (forall s, I s -> I (f s)) -> hoare I (modify f) I.
Proof. intros Hf s H. apply Hf, H. Qed.

Lemma hoare_bind {A B} (c : M A) (f : A -> M B) :
  hoare I c I -> (forall a, hoare I (f a) I) -> hoare I (bind c f) I.
Proof.
  intros Hc Hf s H. specialize (Hc s H). unfold bind.
  destruct (c s) as [a s'|e s']; simpl in *; [apply Hf|]; exact Hc.
Qed.

Lemma hoare_try {A} (c : M A) h :
  hoare I c I -> (forall e, hoare I (h e) I) -> hoare I (try_except c h) I.
Proof.
  intros Hc Hh s H. specialize (Hc s H). unfold try_except.
  destruct (c s) as [a s'|e s']; simpl in *; [exact Hc|apply Hh, Hc].
Qed.

Lemma hoare_for_each {X} (body : X -> M unit) l :
  (forall x, hoare I (body x) I) -> hoare I (for_each body l) I.
Proof.
  intros Hb. induction l as [|x l IH]; simpl.
  - apply hoare_ret.
  - apply hoare_bind; [apply Hb | intros _; exact IH].
Qed.

Lemma hoare_for_each_caught {X} msg (body : X -> M unit) l :
  (forall s m, I s -> I (set_stderr m s)) ->
  (forall x, hoare I (body x) I) -> hoare I (for_each_caught msg body l) I.
Proof.
  intros Hr Hb. induction l as [|x l IH]; simpl.
  - apply hoare_ret.
  - apply hoare_bind; [|intros _; exact IH].
    apply hoare_try; [apply Hb|]. intros e. apply hoare_modify. auto.
Qed.

End Hoare.

Lemma hoare_weaken {A} (P Q : St -> Prop) (c : M A) :
  (forall s, P s -> Q s) -> hoare Q c Q -> hoare P c Q.
Proof. intros HPQ Hc s H. apply Hc, HPQ, H. Qed.

Create HintDb cntxt.

(** Invariant-specific steps, redefined before each invariant. *)
Ltac hoare_extra := fail.

(** Break a computation of the analyzer into its primitive steps. *)
Ltac hoare_go :=
  repeat match goal with
  | |- hoare _ _ _ =>
      first
        [ hoare_extra
        | solve [eauto with cntxt]
        | match goal with
          | |- hoare _ (bind _ _) _ => apply hoare_bind; [|intros ?; cbv beta zeta]
          | |- hoare _ (for_each_caught _ _ _) _ =>
              apply hoare_for_each_caught; [|intros ?; cbv beta zeta]
          | |- hoare _ (for_each _ _) _ => apply hoare_for_each; intros ?; cbv beta zeta
          | |- hoare _ (try_except _ _) _ => apply hoare_try; [|intros ?; cbv beta zeta]
          | |- hoare _ (ret _) _ => apply hoare_ret
          | |- hoare _ (raise _) _ => apply hoare_raise
          | |- hoare _ (gets _) _ => apply hoare_gets
          | |- hoare _ (let _ := _ in _) _ => cbv zeta
          | |- hoare _ (if ?b then _ else _) _ => destruct b
          | |- hoare _ (match ?x with _ => _ end) _ => destruct x
          end ]
  | |- forall _ _, _ -> _ => intros ? ? ?; assumption
  end.

(* ----------------------------------------------------------------- *)
(** ** [method_params] and [method_returns] share their keys *)

Definition params_returns_keys (s : St) : Prop :=
  dom (method_params s) = dom (method_returns s).

Section ParamsReturns.
Local Abbreviation I := params_returns_keys.

Lemma pr_add_node_if_absent n a : hoare I (add_node_if_absent n a) I.
Proof.
  unfold add_node_if_absent. apply hoare_bind; [apply hoare_gets|].
  intros [|]; [apply hoare_ret|]. apply hoare_modify. intros s H; exact H.
Qed.

Lemma pr_add_edge u v r : hoare I (graph_add_edge u v r) I.
Proof. apply hoare_modify. intros s H; exact H. Qed.

Lemma pr_bump f : hoare I (bump f) I.
Proof. apply hoare_modify. intros s H; exact H. Qed.

Lemma pr_report m : hoare I (report m) I.
Proof. apply hoare_modify. intros s H; exact H. Qed.

Lemma pr_class_method c n : hoare I (record_class_method c n) I.
Proof. apply hoare_modify. intros s H; exact H. Qed.

Lemma pr_mark f : hoare I (mark_analyzed f) I.
Proof. apply hoare_modify. intros s H; exact H. Qed.

Lemma pr_files_processed :
  hoare I (modify (fun s => set_files_processed (S (files_processed s)) s)) I.
Proof. apply hoare_modify. intros s H; exact H. Qed.

Lemma pr_read c : hoare I (read_file c) I.
Proof. destruct c; [apply hoare_ret | apply hoare_raise]. Qed.

(** The two assignments are consecutive and neither can raise. *)
Lemma pr_params_returns n ps r :
  hoare I (bind (record_params n ps) (fun _ => record_return n r)) I.
Proof.
  intros s H. unfold params_returns_keys in *. simpl.
  rewrite !dom_insert_L, H. reflexivity.
Qed.

Lemma pr_params_returns_then n ps r (k : M unit) :
  hoare I k I ->
  hoare I (bind (record_params n ps) (fun _ => bind (record_return n r) (fun _ => k))) I.
Proof.
  intros Hk s H. unfold bind at 1. simpl.
  apply Hk. unfold params_returns_keys in *. simpl.
  rewrite !dom_insert_L, H. reflexivity.
Qed.

End ParamsReturns.

#[export] Hint Resolve pr_add_node_if_absent pr_add_edge pr_bump pr_report
  pr_class_method pr_mark pr_files_processed pr_read pr_params_returns
  : cntxt.

Ltac hoare_extra ::=
  match goal with
  | |- hoare params_returns_keys
         (bind (record_params _ _) (fun _ => bind (record_return _ _) _)) _ =>
      apply pr_params_returns_then
  end.

Section ParamsReturnsRecognizers.
Local Abbreviation I := params_returns_keys.

Lemma pr_process_methods c n : hoare I (process_methods c n) I.
Proof. unfold process_methods. hoare_go. Qed.
Lemma pr_process_properties c n : hoare I (process_properties c n) I.
Proof. unfold process_properties. hoare_go. Qed.
Lemma pr_process_events c n : hoare I (process_events c n) I.
Proof. unfold process_events. hoare_go. Qed.
Lemma pr_process_fields c n : hoare I (process_fields c n) I.
Proof. unfold process_fields. hoare_go. Qed.
Lemma pr_process_bases k p r o i : hoare I (process_bases k p r o i) I.
Proof. unfold process_bases. hoare_go. Qed.
Hint Resolve pr_process_methods pr_process_properties pr_process_events
  pr_process_fields pr_process_bases : cntxt.
Lemma pr_process_classes c n : hoare I (process_classes c n) I.
Proof. unfold process_classes. hoare_go. Qed.
Lemma pr_process_interface_members c n : hoare I (process_interface_members c n) I.
Proof. unfold process_interface_members. hoare_go. Qed.
Hint Resolve pr_process_interface_members : cntxt.
Lemma pr_process_interfaces c n : hoare I (process_interfaces c n) I.
Proof. unfold process_interfaces. hoare_go. Qed.
Lemma pr_process_enums c n : hoare I (process_enums c n) I.
Proof. unfold process_enums. hoare_go. Qed.
Lemma pr_process_structs c n : hoare I (process_structs c n) I.
Proof. unfold process_structs. hoare_go. Qed.
Hint Resolve pr_process_classes pr_process_interfaces pr_process_enums
  pr_process_structs : cntxt.
Lemma pr_process_namespaces c n : hoare I (process_namespaces c n) I.
Proof. unfold process_namespaces. hoare_go. Qed.
Lemma pr_process_usings c n : hoare I (process_usings c n) I.
Proof. unfold process_usings. hoare_go. Qed.
Lemma pr_add_dependency_node f n v r : hoare I (add_dependency_node f n v r) I.
Proof. unfold add_dependency_node. hoare_go. Qed.
Hint Resolve pr_process_namespaces pr_process_usings pr_add_dependency_node : cntxt.
Lemma pr_process_lock_file f c : hoare I (process_lock_file f c) I.
Proof. unfold process_lock_file, attribute_error. hoare_go. Qed.
Hint Resolve pr_process_lock_file : cntxt.
Lemma pr_process_dependency_file f c : hoare I (process_dependency_file f c) I.
Proof. unfold process_dependency_file, is_analyzed. hoare_go. Qed.
Lemma pr_process_file f c : hoare I (process_file f c) I.
Proof. unfold process_file, is_analyzed. hoare_go. Qed.
Hint Resolve pr_process_dependency_file pr_process_file : cntxt.
Lemma pr_analyze_codebase fs : hoare I (analyze_codebase fs) I.
Proof. unfold analyze_codebase, analyze_one. hoare_go. Qed.

End ParamsReturnsRecognizers.

(* ----------------------------------------------------------------- *)
(** ** Node attributes are written once *)

(** Every node of [G0] is still present in the state's graph with the very
    same attribute dict. *)
Definition nodes_kept (G0 : digraph) (s : St) : Prop :=
  forall n a, g_nodes G0 !! n = Some a -> g_nodes (graph s) !! n = Some a.

Lemma add_endpoint_kept (nodes : gmap string attrs) x n a :
  nodes !! n = Some a -> add_endpoint nodes x !! n = Some a.
Proof.
  unfold add_endpoint. intros H. destruct (nodes !! x) eqn:E; [exact H|].
  rewrite lookup_insert_ne; [exact H|]. intros ->. congruence.
Qed.

Section NodesKept.
Context (G0 : digraph).
Local Abbreviation I := (nodes_kept G0).

Lemma nk_add_node_if_absent n a : hoare I (add_node_if_absent n a) I.
Proof.
  intros s H. unfold add_node_if_absent, bind, graph_has_node, gets.
  destruct (has_node (graph s) n) eqn:Eb; simpl; [exact H|].
  intros k b Hk. specialize (H k b Hk). unfold has_node in Eb.
  apply bool_decide_eq_false in Eb. simpl. unfold add_node. simpl.
  rewrite lookup_insert_ne; [exact H|]. intros ->. apply Eb. rewrite H. eauto.
Qed.

Lemma nk_add_edge u v r : hoare I (graph_add_edge u v r) I.
Proof.
  intros s H k b Hk. simpl. apply add_endpoint_kept, add_endpoint_kept, H, Hk.
Qed.

Lemma nk_bump f : hoare I (bump f) I.
Proof. apply hoare_modify. intros s H; exact H. Qed.
Lemma nk_report m : hoare I (report m) I.
Proof. apply hoare_modify. intros s H; exact H. Qed.
Lemma nk_class_method c n : hoare I (record_class_method c n) I.
Proof. apply hoare_modify. intros s H; exact H. Qed.
Lemma nk_params n ps : hoare I (record_params n ps) I.
Proof. apply hoare_modify. intros s H; exact H. Qed.
Lemma nk_return n r : hoare I (record_return n r) I.
Proof. apply hoare_modify. intros s H; exact H. Qed.
Lemma nk_mark f : hoare I (mark_analyzed f) I.
Proof. apply hoare_modify. intros s H; exact H. Qed.
Lemma nk_files_processed :
  hoare I (modify (fun s => set_files_processed (S (files_processed s)) s)) I.
Proof. apply hoare_modify. intros s H; exact H. Qed.
Lemma nk_read c : hoare I (read_file c) I.
Proof. destruct c; [apply hoare_ret | apply hoare_raise]. Qed.

Hint Resolve nk_add_node_if_absent nk_add_edge nk_bump nk_report
  nk_class_method nk_params nk_return nk_mark nk_files_processed nk_read
  : cntxt.

Ltac hoare_extra ::= fail.

Lemma nk_process_methods c n : hoare I (process_methods c n) I.
Proof. unfold process_methods. hoare_go. Qed.
Lemma nk_process_properties c n : hoare I (process_properties c n) I.
Proof. unfold process_properties. hoare_go. Qed.
Lemma nk_process_events c n : hoare I (process_events c n) I.
Proof. unfold process_events. hoare_go. Qed.
Lemma nk_process_fields c n : hoare I (process_fields c n) I.
Proof. unfold process_fields. hoare_go. Qed.
Lemma nk_process_bases k p r o i : hoare I (process_bases k p r o i) I.
Proof. unfold process_bases. hoare_go. Qed.
Hint Resolve nk_process_methods nk_process_properties nk_process_events
  nk_process_fields nk_process_bases : cntxt.
Lemma nk_process_classes c n : hoare I (process_classes c n) I.
Proof. unfold process_classes. hoare_go. Qed.
Lemma nk_process_interface_members c n : hoare I (process_interface_members c n) I.
Proof. unfold process_interface_members. hoare_go. Qed.
Hint Resolve nk_process_interface_members : cntxt.
Lemma nk_process_interfaces c n : hoare I (process_interfaces c n) I.
Proof. unfold process_interfaces. hoare_go. Qed.
Lemma nk_process_enums c n : hoare I (process_enums c n) I.
Proof. unfold process_enums. hoare_go. Qed.
Lemma nk_process_structs c n : hoare I (process_structs c n) I.
Proof. unfold process_structs. hoare_go. Qed.
Hint Resolve nk_process_classes nk_process_interfaces nk_process_enums
  nk_process_structs : cntxt.
Lemma nk_process_namespaces c n : hoare I (process_namespaces c n) I.
Proof. unfold process_namespaces. hoare_go. Qed.
Lemma nk_process_usings c n : hoare I (process_usings c n) I.
Proof. unfold process_usings. hoare_go. Qed.
Lemma nk_add_dependency_node f n v r : hoare I (add_dependency_node f n v r) I.
Proof. unfold add_dependency_node. hoare_go. Qed.
Hint Resolve nk_process_namespaces nk_process_usings nk_add_dependency_node : cntxt.
Lemma nk_process_lock_file f c : hoare I (process_lock_file f c) I.
Proof. unfold process_lock_file, attribute_error. hoare_go. Qed.
Hint Resolve nk_process_lock_file : cntxt.
Lemma nk_process_dependency_file f c : hoare I (process_dependency_file f c) I.
Proof. unfold process_dependency_file, is_analyzed. hoare_go. Qed.
Lemma nk_process_file f c : hoare I (process_file f c) I.
Proof. unfold process_file, is_analyzed. hoare_go. Qed.
Hint Resolve nk_process_dependency_file nk_process_file : cntxt.
Lemma nk_analyze_codebase fs : hoare I (analyze_codebase fs) I.
Proof. unfold analyze_codebase, analyze_one. hoare_go. Qed.

End NodesKept.

(* ----------------------------------------------------------------- *)
(** ** Sample inputs *)

(** Test texts are written with ['] where the file has a double quote. *)
Definition dq_text (s : string) : list ascii :=
  map (fun c => if Ascii.eqb c "'" then Re.dq else c) (list_ascii_of_string s).

Definition cs_file (path : string) (text : string) : source_file :=
  {| sf_path := path; sf_name := path; sf_content := Some (list_ascii_of_string text) |}.

(** A project file listing the same package twice, with two versions. *)
Definition dup_csproj : source_file :=
  {| sf_path := "App.csproj"; sf_name := "App.csproj";
     sf_content := Some (dq_text
       "<Project><ItemGroup><PackageReference Include='Foo' Version='1.0' /><PackageReference Include='Foo' Version='2.0' /></ItemGroup></Project>") |}.

(** C5: over any sequence of files, from any state, a node that exists
    keeps exactly the attribute dict it was created with (every
    [add_node] is guarded by [has_node], and adding an edge never touches
    an existing node); so the manifest that lists [Foo] at version 1.0 and
    then at 2.0 gives one node [Dependency: Foo], with version 1.0. *)
Theorem node_first_write_wins :
  (forall (files : list source_file) (s : St), nodes_kept (graph s) (run files s))
  /\ g_nodes (graph (run [dup_csproj] init_state)) !! "Dependency: Foo"
     = Some [("type", VStr "dependency"); ("name", VStr "Foo");
             ("version", VStr "1.0")]
  /\ dom (g_nodes (graph (run [dup_csproj] init_state)))
     = list_to_set ["Dependency File: App.csproj"; "Dependency: Foo"].
Proof.
  split; [|split].
  - intros files s. apply nk_analyze_codebase. intros n a H. exact H.
  - vm_compute. reflexivity.
  - vm_compute. reflexivity.
Qed.

(** C10: every key given a parameter list in [method_params] is given a
    return type in [method_returns] and conversely: both are written
    together, for class and struct methods as for interface members. *)
Theorem method_params_returns_same_keys (files : list source_file) (s : St) :
  dom (method_params s) = dom (method_returns s) ->
  dom (method_params (run files s)) = dom (method_returns (run files s)).
Proof. intros H. apply pr_analyze_codebase. exact H. Qed.

Definition methods_file : source_file :=
  cs_file "M.cs" "namespace N { public interface I { void Stop(bool now); } } namespace P { public class C { public int Add(int a, int b) { return a + b; } } }".

Lemma method_params_returns_same_keys_witness :
  dom (method_params init_state) = dom (method_returns init_state) /\
  dom (method_params (run [methods_file] init_state))
  = dom (method_returns (run [methods_file] init_state)).
Proof.
  split; [reflexivity|].
  apply (method_params_returns_same_keys [methods_file] init_state).
  reflexivity.
Defined.

Example methods_file_keys :
  dom (method_returns (run [methods_file] init_state))
  = list_to_set ["Method: Add (Class: C)"; "Method: Stop (Interface: I)"].
Proof. vm_compute. reflexivity. Qed.

(* ----------------------------------------------------------------- *)
(** ** Edges: one per ordered pair, the last relation wins *)

(** A sequence of [G.add_edge(u, v, relation=r)] calls. *)
Definition add_edges (G : digraph) (es : list (string * string * string))
    : digraph :=
  fold_left (fun G e => match e with (u, v, r) =>
               add_edge G u v [("relation", VStr r)] end) es G.

(** The last relation proposed for the pair [(u, v)], if any. *)
Definition last_relation (u v : string) (es : list (string * string * string))
    (acc : option string) : option string :=
  fold_left (fun acc e => match e with (u', v', r) =>
               if bool_decide ((u', v') = (u, v)) then Some r else acc end)
            es acc.

Definition edge_relation (G : digraph) (u v : string) : option value :=
  g_edges G !! (u, v) ≫= attr_get "relation".

Lemma attr_get_set k v a : attr_get k (attr_set k v a) = Some v.
Proof.
  induction a as [|[k' v'] a IH]; simpl.
  - rewrite String.eqb_refl. reflexivity.
  - destruct (String.eqb k k') eqn:E; simpl.
    + rewrite E. reflexivity.
    + rewrite E. exact IH.
Qed.

Lemma add_edges_relation G0 u v es : forall G acc,
  match acc with
  | Some r => edge_relation G u v = Some (VStr r)
  | None => g_edges G !! (u, v) = g_edges G0 !! (u, v)
  end ->
  match last_relation u v es acc with
  | Some r => edge_relation (add_edges G es) u v = Some (VStr r)
  | None => g_edges (add_edges G es) !! (u, v) = g_edges G0 !! (u, v)
  end.
Proof.
  induction es as [|[[u' v'] r] es IH]; intros G acc H; [exact H|].
  simpl. apply IH.
  case_bool_decide as E.
  - inversion E; subst u' v'. unfold edge_relation, add_edge. simpl.
    rewrite lookup_insert_eq. simpl. apply attr_get_set.
  - destruct acc as [r0|]; unfold edge_relation, add_edge in *; simpl;
      rewrite lookup_insert_ne by congruence; exact H.
Qed.

(** A file that both uses and declares the namespace [Foo]. *)
Definition using_and_namespace_file : source_file :=
  cs_file "U.cs" "using Foo; namespace Foo { }".

(** C6: the edge store keeps one attribute dict per ordered pair; after
    any sequence of edge additions the relation of a pair is the last one
    proposed for it (and the pair is untouched when none was); so the file
    that uses and then declares [Foo] keeps a single edge to
    [Namespace: Foo], labelled [CONTAINS_NAMESPACE]. *)
Theorem edge_last_relation_wins :
  (forall (G : digraph) (es : list (string * string * string)) (u v : string),
     match last_relation u v es None with
     | Some r => edge_relation (add_edges G es) u v = Some (VStr r)
     | None => g_edges (add_edges G es) !! (u, v) = g_edges G !! (u, v)
     end)
  /\ map_to_list (g_edges (graph (run [using_and_namespace_file] init_state)))
     = [("File: U.cs", "Namespace: Foo", [("relation", VStr "CONTAINS_NAMESPACE")])].
Proof.
  split.
  - intros G es u v. apply (add_edges_relation G u v es G None). reflexivity.
  - vm_compute. reflexivity.
Qed.

(* ----------------------------------------------------------------- *)
(** ** Invariants kept by the primitive steps are kept by every pass *)

Section Frame.
Context (I : St -> Prop).
Hypothesis Hnode : forall n a, hoare I (add_node_if_absent n a) I.
Hypothesis Hedge : forall u v r, hoare I (graph_add_edge u v r) I.
Hypothesis Hbump : forall f, hoare I (bump f) I.
Hypothesis Hstderr : forall s m, I s -> I (set_stderr m s).
Hypothesis Hclass_method : forall c n, hoare I (record_class_method c n) I.
Hypothesis Hparams : forall n ps, hoare I (record_params n ps) I.
Hypothesis Hreturn : forall n r, hoare I (record_return n r) I.
Hypothesis Hmark : forall f, hoare I (mark_analyzed f) I.
Hypothesis Hfiles_processed :
  hoare I (modify (fun s => set_files_processed (S (files_processed s)) s)) I.

Lemma fr_report m : hoare I (report m) I.
Proof. apply hoare_modify. intros s H. apply Hstderr, H. Qed.
Lemma fr_read c : hoare I (read_file c) I.
Proof. destruct c; [apply hoare_ret | apply hoare_raise]. Qed.

Hint Resolve Hnode Hedge Hbump Hstderr Hclass_method Hparams Hreturn Hmark
  Hfiles_processed fr_report fr_read : cntxt.

Lemma fr_process_methods c n : hoare I (process_methods c n) I.
Proof. unfold process_methods. hoare_go; try exact Hstderr. Qed.
Lemma fr_process_properties c n : hoare I (process_properties c n) I.
Proof. unfold process_properties. hoare_go; try exact Hstderr. Qed.
Lemma fr_process_events c n : hoare I (process_events c n) I.
Proof. unfold process_events. hoare_go; try exact Hstderr. Qed.
Lemma fr_process_fields c n : hoare I (process_fields c n) I.
Proof. unfold process_fields. hoare_go; try exact Hstderr. Qed.
Lemma fr_process_bases k p r o i : hoare I (process_bases k p r o i) I.
Proof. unfold process_bases. hoare_go; try exact Hstderr. Qed.
Hint Resolve fr_process_methods fr_process_properties fr_process_events
  fr_process_fields fr_process_bases : cntxt.
Lemma fr_process_classes c n : hoare I (process_classes c n) I.
Proof. unfold process_classes. hoare_go; try exact Hstderr. Qed.
Lemma fr_process_interface_members c n : hoare I (process_interface_members c n) I.
Proof. unfold process_interface_members. hoare_go; try exact Hstderr. Qed.
Hint Resolve fr_process_interface_members : cntxt.
Lemma fr_process_interfaces c n : hoare I (process_interfaces c n) I.
Proof. unfold process_interfaces. hoare_go; try exact Hstderr. Qed.
Lemma fr_process_enums c n : hoare I (process_enums c n) I.
Proof. unfold process_enums. hoare_go; try exact Hstderr. Qed.
Lemma fr_process_structs c n : hoare I (process_structs c n) I.
Proof. unfold process_structs. hoare_go; try exact Hstderr. Qed.
Hint Resolve fr_process_classes fr_process_interfaces fr_process_enums
  fr_process_structs : cntxt.
Lemma fr_process_namespaces c n : hoare I (process_namespaces c n) I.
Proof. unfold process_namespaces. hoare_go; try exact Hstderr. Qed.
Lemma fr_process_usings c n : hoare I (process_usings c n) I.
Proof. unfold process_usings. hoare_go; try exact Hstderr. Qed.
Lemma fr_add_dependency_node f n v r : hoare I (add_dependency_node f n v r) I.
Proof. unfold add_dependency_node. hoare_go; try exact Hstderr. Qed.
Hint Resolve fr_process_namespaces fr_process_usings fr_add_dependency_node : cntxt.
Lemma fr_process_lock_file f c : hoare I (process_lock_file f c) I.
Proof. unfold process_lock_file, attribute_error. hoare_go; try exact Hstderr. Qed.
Hint Resolve fr_process_lock_file : cntxt.
Lemma fr_process_dependency_file f c : hoare I (process_dependency_file f c) I.
Proof. unfold process_dependency_file, is_analyzed. hoare_go; try exact Hstderr. Qed.
Lemma fr_process_file f c : hoare I (process_file f c) I.
Proof. unfold process_file, is_analyzed. hoare_go; try exact Hstderr. Qed.
Hint Resolve fr_process_dependency_file fr_process_file : cntxt.
Lemma fr_analyze_one f : hoare I (analyze_one f) I.
Proof. unfold analyze_one. hoare_go; try exact Hstderr. Qed.

End Frame.

(* ----------------------------------------------------------------- *)
(** ** [analyzed_files] only grows *)

Definition analyzed_contains (X : gset string) (s : St) : Prop :=
  X ⊆ analyzed_files s.

Section AnalyzedGrows.
Context (X : gset string).
Local Abbreviation I := (analyzed_contains X).

Lemma ag_add_node_if_absent n a : hoare I (add_node_if_absent n a) I.
Proof.
  unfold add_node_if_absent. apply hoare_bind; [apply hoare_gets|].
  intros [|]; [apply hoare_ret|]. apply hoare_modify. intros s H; exact H.
Qed.
Lemma ag_add_edge u v r : hoare I (graph_add_edge u v r) I.
Proof. apply hoare_modify. intros s H; exact H. Qed.
Lemma ag_bump f : hoare I (bump f) I.
Proof. apply hoare_modify. intros s H; exact H. Qed.
Lemma ag_stderr s m : I s -> I (set_stderr m s).
Proof. intros H; exact H. Qed.
Lemma ag_class_method c n : hoare I (record_class_method c n) I.
Proof. apply hoare_modify. intros s H; exact H. Qed.
Lemma ag_params n ps : hoare I (record_params n ps) I.
Proof. apply hoare_modify. intros s H; exact H. Qed.
Lemma ag_return n r : hoare I (record_return n r) I.
Proof. apply hoare_modify. intros s H; exact H. Qed.
Lemma ag_mark f : hoare I (mark_analyzed f) I.
Proof.
  apply hoare_modify. intros s H. unfold analyzed_contains in *. simpl. set_solver.
Qed.
Lemma ag_files_processed :
  hoare I (modify (fun s => set_files_processed (S (files_processed s)) s)) I.
Proof. apply hoare_modify. intros s H; exact H. Qed.

Lemma ag_analyze_one f : hoare I (analyze_one f) I.
Proof.
  apply fr_analyze_one; auto using ag_add_node_if_absent, ag_add_edge, ag_bump,
    ag_stderr, ag_class_method, ag_params, ag_return, ag_mark, ag_files_processed.
Qed.

Lemma ag_analyze_codebase fs : hoare I (analyze_codebase fs) I.
Proof. apply hoare_for_each. apply ag_analyze_one. Qed.

End AnalyzedGrows.

(** A [try]/[except] whose handler only reports never raises. *)
Lemma try_report_ok (c : M unit) (h : string -> string) s :
  exists s', try_except c (fun e => report (h e)) s = Ok tt s'.
Proof.
  unfold try_except. destruct (c s) as [[] s'|e s']; eexists; reflexivity.
Qed.

Lemma analyze_one_ok f s : exists s', analyze_one f s = Ok tt s'.
Proof.
  unfold analyze_one.
  destruct (existsb (String.eqb (sf_name f)) ignored_files); [eexists; reflexivity|].
  destruct (Py.endswith ".cs" (sf_name f)).
  - unfold process_file, is_analyzed, gets, bind at 1.
    destruct (bool_decide _); [eexists; reflexivity|]. apply try_report_ok.
  - destruct (_ || _); [apply try_report_ok | eexists; reflexivity].
Qed.

Lemma run_cons f fs s :
  run (f :: fs) s = run fs (final_state (analyze_one f s)).
Proof.
  unfold run, analyze_codebase. simpl. unfold bind at 1.
  destruct (analyze_one_ok f s) as [s' ->]. reflexivity.
Qed.

Lemma run_analyzed_grows fs s : analyzed_files s ⊆ analyzed_files (run fs s).
Proof. apply (ag_analyze_codebase (analyzed_files s) fs s). unfold analyzed_contains. done. Qed.

Lemma ag_process_usings X c n :
  hoare (analyzed_contains X) (process_usings c n) (analyzed_contains X).
Proof.
  apply fr_process_usings; auto using ag_add_node_if_absent, ag_add_edge, ag_bump,
    ag_stderr, ag_class_method, ag_params, ag_return, ag_mark, ag_files_processed.
Qed.
Lemma ag_process_namespaces X c n :
  hoare (analyzed_contains X) (process_namespaces c n) (analyzed_contains X).
Proof.
  apply fr_process_namespaces; auto using ag_add_node_if_absent, ag_add_edge, ag_bump,
    ag_stderr, ag_class_method, ag_params, ag_return, ag_mark, ag_files_processed.
Qed.
Lemma ag_add_dependency_node X f n v r :
  hoare (analyzed_contains X) (add_dependency_node f n v r) (analyzed_contains X).
Proof.
  apply fr_add_dependency_node; auto using ag_add_node_if_absent, ag_add_edge, ag_bump,
    ag_stderr, ag_class_method, ag_params, ag_return, ag_mark, ag_files_processed.
Qed.
Lemma ag_process_lock_file X f c :
  hoare (analyzed_contains X) (process_lock_file f c) (analyzed_contains X).
Proof.
  apply fr_process_lock_file; auto using ag_add_node_if_absent, ag_add_edge, ag_bump,
    ag_stderr, ag_class_method, ag_params, ag_return, ag_mark, ag_files_processed.
Qed.

#[local] Hint Resolve ag_add_node_if_absent ag_process_usings ag_process_namespaces
  ag_add_dependency_node ag_process_lock_file : cntxt.

(** After the read succeeds the path is marked, and the mark survives
    whatever follows, handler included. *)
Ltac after_mark p :=
  match goal with
  | |- context [match ?c ?s1 with Ok _ _ => _ | Exc _ _ => _ end] =>
      assert (Hc : analyzed_contains {[p]} (final_state (c s1)));
      [ assert (Hh : hoare (analyzed_contains {[p]}) c (analyzed_contains {[p]}));
        [ hoare_go; try (intros ? H; exact H) | apply Hh; unfold analyzed_contains; simpl; set_solver ]
      | destruct (c s1); simpl in *; unfold analyzed_contains in Hc; set_solver ]
  end.

Lemma process_file_marks p c s :
  p ∈ analyzed_files (final_state (process_file p (Some c) s)).
Proof.
  unfold process_file, is_analyzed, gets, bind at 1.
  case_bool_decide as Hp; [exact Hp|].
  unfold try_except, bind at 1, modify. cbn beta iota.
  unfold bind at 1, read_file, ret. cbn beta iota.
  unfold bind at 1, mark_analyzed, modify. cbn beta iota.
  after_mark p.
Qed.

Lemma process_dependency_file_marks p c s :
  p ∈ analyzed_files (final_state (process_dependency_file p (Some c) s)).
Proof.
  unfold process_dependency_file, try_except, is_analyzed, gets, bind at 1.
  cbn beta iota. case_bool_decide as Hp; [exact Hp|].
  unfold bind at 1, read_file, ret. cbn beta iota.
  unfold bind at 1, mark_analyzed, modify. cbn beta iota.
  after_mark p.
Qed.

(** A file the analyzer has nothing more to do with: its read fails, its
    path is already analyzed, or its name selects no branch. *)
Definition settled (f : source_file) (s : St) : Prop :=
  sf_content f = None \/ sf_path f ∈ analyzed_files s \/ analyze_one f = ret tt.

Lemma settled_after f s : settled f (final_state (analyze_one f s)).
Proof.
  destruct f as [p nm [c|]]; [|left; reflexivity]. right. simpl.
  unfold analyze_one. cbn [sf_name sf_path sf_content].
  destruct (existsb (String.eqb nm) ignored_files); [right; reflexivity|].
  destruct (Py.endswith ".cs" nm); [left; apply process_file_marks|].
  destruct (_ || _); [left; apply process_dependency_file_marks | right; reflexivity].
Qed.

Lemma settled_mono f s s' :
  analyzed_files s ⊆ analyzed_files s' -> settled f s -> settled f s'.
Proof. intros Hs [H|[H|H]]; [left | right; left | right; right]; set_solver. Qed.

Lemma process_file_skip p c s :
  p ∈ analyzed_files s -> process_file p c s = Ok tt s.
Proof.
  intros H. unfold process_file, is_analyzed, gets, bind. simpl.
  rewrite bool_decide_eq_true_2 by exact H. reflexivity.
Qed.

Lemma process_file_unreadable p s :
  graph (final_state (process_file p None s)) = graph s /\
  analyzed_files (final_state (process_file p None s)) = analyzed_files s.
Proof.
  unfold process_file, is_analyzed, gets, bind. simpl.
  case_bool_decide; split; reflexivity.
Qed.

Lemma process_dependency_file_skip p c s :
  p ∈ analyzed_files s -> process_dependency_file p c s = Ok tt s.
Proof.
  intros H. unfold process_dependency_file, try_except, is_analyzed, gets, bind. simpl.
  rewrite bool_decide_eq_true_2 by exact H. reflexivity.
Qed.

Lemma process_dependency_file_unreadable p s :
  graph (final_state (process_dependency_file p None s)) = graph s /\
  analyzed_files (final_state (process_dependency_file p None s)) = analyzed_files s.
Proof.
  unfold process_dependency_file, try_except, is_analyzed, gets, bind. simpl.
  case_bool_decide; split; reflexivity.
Qed.

Lemma settled_quiet f s :
  settled f s ->
  graph (final_state (analyze_one f s)) = graph s /\
  analyzed_files (final_state (analyze_one f s)) = analyzed_files s.
Proof.
  intros Hf. destruct Hf as [Hn|[Hin|Hr]]; [| |rewrite Hr; split; reflexivity];
    destruct f as [p nm c]; cbn [sf_name sf_path sf_content] in *;
    unfold analyze_one; cbn [sf_name sf_path sf_content];
    (destruct (existsb (String.eqb nm) ignored_files); [split; reflexivity|]);
    (destruct (Py.endswith ".cs" nm);
     [|destruct (_ || _); [|split; reflexivity]]).
  - subst c. apply process_file_unreadable.
  - subst c. apply process_dependency_file_unreadable.
  - rewrite process_file_skip by exact Hin. split; reflexivity.
  - rewrite process_dependency_file_skip by exact Hin. split; reflexivity.
Qed.

Lemma run_nil s : run [] s = s.
Proof. reflexivity. Qed.

Lemma run_settles fs s : forall f, In f fs -> settled f (run fs s).
Proof.
  induction fs as [|g fs IH] in s |- *; intros f Hf; [destruct Hf|].
  rewrite run_cons. destruct Hf as [<-|Hf]; [|apply IH, Hf].
  apply settled_mono with (final_state (analyze_one g s));
    [apply run_analyzed_grows | apply settled_after].
Qed.

Lemma run_quiet fs s :
  (forall f, In f fs -> settled f s) ->
  graph (run fs s) = graph s /\ analyzed_files (run fs s) = analyzed_files s.
Proof.
  induction fs as [|g fs IH] in s |- *; intros H; [split; reflexivity|].
  rewrite run_cons.
  destruct (settled_quiet g s (H g (in_eq _ _))) as [HG HA].
  destruct (IH (final_state (analyze_one g s))) as [HG' HA'].
  - intros f Hf. apply settled_mono with s; [rewrite HA; reflexivity|].
    apply H. right. exact Hf.
  - split; congruence.
Qed.

(** C7: running the whole pipeline a second time on the same input leaves
    the graph as the first run left it, so the node set and the edge set
    (with every attribute) are those of a single run: every file is then
    either already in [analyzed_files], unreadable, or not selected. *)
Theorem rerun_same_graph (files : list source_file) (s : St) :
  graph (run files (run files s)) = graph (run files s).
Proof.
  apply (run_quiet files (run files s)). apply run_settles.
Qed.

(* ----------------------------------------------------------------- *)
(** ** Failures *)

(** The source recognizers' loop, as a fold: a match whose processing
    raises leaves its partial effects, its report, and the scan goes on. *)
Definition caught_fold {X} (msg : X -> string -> string) (body : X -> M unit)
    (l : list X) (s : St) : St :=
  fold_left (fun s x => match body x s with
                        | Ok _ s' => s'
                        | Exc e s' => final_state (report (msg x e) s')
                        end) l s.

Lemma for_each_caught_fold {X} msg (body : X -> M unit) l s :
  for_each_caught msg body l s = Ok tt (caught_fold msg body l s).
Proof.
  induction l as [|x l IH] in s |- *; [reflexivity|].
  simpl. unfold bind at 1, try_except.
  destruct (body x s) as [[] s'|e s']; apply IH.
Qed.

Lemma process_dependency_file_ok p c s :
  exists s', process_dependency_file p c s = Ok tt s'.
Proof. apply try_report_ok. Qed.

Lemma analyze_codebase_ok fs s : exists s', analyze_codebase fs s = Ok tt s'.
Proof.
  unfold analyze_codebase.
  induction fs as [|f fs IH] in s |- *; [eexists; reflexivity|].
  simpl. unfold bind at 1. destruct (analyze_one_ok f s) as [s' ->]. apply IH.
Qed.

(** A lock file whose first entry is a bare string. *)
Definition bad_lock_file : source_file :=
  {| sf_path := "packages.lock.json"; sf_name := "packages.lock.json";
     sf_content := Some (dq_text
       "{'dependencies': {'A': '1.0', 'B': {'resolved': '2.0'}}}") |}.

(** C8, counterexample: in the lock-file branch of the dependency
    extractor the entries are walked with no handler of their own; the
    first entry, a bare string, raises on [.get], and the well-formed entry
    [B] after it is never scanned: the whole manifest is reported once. *)
Lemma lock_entry_failure_abandons_manifest :
  g_nodes (graph (run [bad_lock_file] init_state)) !! "Dependency: B" = None
  /\ stderr (run [bad_lock_file] init_state)
     = ["Error processing dependency file packages.lock.json: 'str' object has no attribute 'get'"].
Proof. split; vm_compute; reflexivity. Qed.

(** The [try] block a recognizer runs on each match, taken from its
    definition: the body its [for_each_caught] loop is given. *)
Ltac caught_body t :=
  let u := eval red in t in
  lazymatch u with
  | for_each_caught _ ?b _ => exact b
  end.

Definition using_match (content : list ascii) (file_node : string) : Re.match_ -> M unit :=
  ltac:(caught_body (process_usings content file_node)).
Definition namespace_match (content : list ascii) (file_node : string) : Re.match_ -> M unit :=
  ltac:(caught_body (process_namespaces content file_node)).
Definition class_match (content : list ascii) (parent_node : string) : Re.match_ -> M unit :=
  ltac:(caught_body (process_classes content parent_node)).
Definition interface_match (content : list ascii) (parent_node : string) : Re.match_ -> M unit :=
  ltac:(caught_body (process_interfaces content parent_node)).
Definition struct_match (content : list ascii) (parent_node : string) : Re.match_ -> M unit :=
  ltac:(caught_body (process_structs content parent_node)).
Definition enum_match (content : list ascii) (parent_node : string) : Re.match_ -> M unit :=
  ltac:(caught_body (process_enums content parent_node)).
Definition method_match (content : list ascii) (class_node : string) : Re.match_ -> M unit :=
  ltac:(caught_body (process_methods content class_node)).
Definition property_match (content : list ascii) (class_node : string) : Re.match_ -> M unit :=
  ltac:(caught_body (process_properties content class_node)).
Definition event_match (content : list ascii) (class_node : string) : Re.match_ -> M unit :=
  ltac:(caught_body (process_events content class_node)).
Definition field_match (content : list ascii) (class_node : string) : Re.match_ -> M unit :=
  ltac:(caught_body (process_fields content class_node)).

(** The two loops of [_process_interface_members]. *)
Definition iface_method_match (content : list ascii) (interface_node : string)
    : Re.match_ -> M unit :=
  ltac:(let u := eval red in (process_interface_members content interface_node) in
        lazymatch u with bind (for_each_caught _ ?b _) _ => exact b end).
Definition iface_property_match (content : list ascii) (interface_node : string)
    : Re.match_ -> M unit :=
  ltac:(let u := eval red in (process_interface_members content interface_node) in
        lazymatch u with bind _ (fun _ => for_each_caught _ ?b _) => exact b end).

(** The [try] block of [_process_dependency_file]. *)
Definition dependency_file_body (file_path : string) (file_content : option (list ascii))
    : M unit :=
  ltac:(let u := eval red in (process_dependency_file file_path file_content) in
        lazymatch u with try_except ?b _ => exact b end).

Lemma caught_fold_cons {X} (msg : X -> string -> string) (body : X -> M unit) x l s :
  caught_fold msg body (x :: l) s
  = caught_fold msg body l
      (match body x s with
       | Ok _ s' => s'
       | Exc e s' => set_stderr (msg x e :: stderr s') s'
       end).
Proof. reflexivity. Qed.

Lemma for_each_cons {X} (body : X -> M unit) x l s :
  for_each body (x :: l) s
  = match body x s with
    | Ok _ s' => for_each body l s'
    | Exc e s' => Exc e s'
    end.
Proof. simpl. unfold bind. destruct (body x s); reflexivity. Qed.

(** C8, as the code has it.  Each recognizer (using, namespace, class,
    interface, struct, enum, method, property, event, field, and the two
    loops over interface members) runs its [try] block on the matches of
    its pattern in order; a match whose block raises [e] leaves the state
    the block reached, adds the report "Error processing KIND NAME: e",
    with NAME the name group of that match, and the scan goes on with the
    next match.  The manifest loops of the dependency extractor are plain
    loops: the first entry that raises ends the scan and the exception
    reaches the file-level handler, which reports it for the whole file.
    Neither the extractor nor the run raises. *)
Theorem failures_contained :
  (forall c n s, process_usings c n s = Ok tt (caught_fold
     (fun mt e => ("Error processing using " ++ grp c mt 1 ++ ": " ++ e)%string)
     (using_match c n) (Re.finditer Re.using_pattern c) s)) /\
  (forall c n s, process_namespaces c n s = Ok tt (caught_fold
     (fun mt e => ("Error processing namespace " ++ grp c mt 1 ++ ": " ++ e)%string)
     (namespace_match c n) (Re.finditer Re.namespace_pattern c) s)) /\
  (forall c n s, process_classes c n s = Ok tt (caught_fold
     (fun mt e => ("Error processing class " ++ grp c mt 3 ++ ": " ++ e)%string)
     (class_match c n) (Re.finditer Re.class_pattern c) s)) /\
  (forall c n s, process_interfaces c n s = Ok tt (caught_fold
     (fun mt e => ("Error processing interface " ++ grp c mt 3 ++ ": " ++ e)%string)
     (interface_match c n) (Re.finditer Re.interface_pattern c) s)) /\
  (forall c n s, process_structs c n s = Ok tt (caught_fold
     (fun mt e => ("Error processing struct " ++ grp c mt 3 ++ ": " ++ e)%string)
     (struct_match c n) (Re.finditer Re.struct_pattern c) s)) /\
  (forall c n s, process_enums c n s = Ok tt (caught_fold
     (fun mt e => ("Error processing enum " ++ grp c mt 2 ++ ": " ++ e)%string)
     (enum_match c n) (Re.finditer Re.enum_pattern c) s)) /\
  (forall c n s, process_methods c n s = Ok tt (caught_fold
     (fun mt e => ("Error processing method " ++ grp c mt 4 ++ ": " ++ e)%string)
     (method_match c n) (Re.finditer Re.method_pattern c) s)) /\
  (forall c n s, process_properties c n s = Ok tt (caught_fold
     (fun mt e => ("Error processing property " ++ grp c mt 4 ++ ": " ++ e)%string)
     (property_match c n) (Re.finditer Re.property_pattern c) s)) /\
  (forall c n s, process_events c n s = Ok tt (caught_fold
     (fun mt e => ("Error processing event " ++ grp c mt 4 ++ ": " ++ e)%string)
     (event_match c n) (Re.finditer Re.event_pattern c) s)) /\
  (forall c n s, process_fields c n s = Ok tt (caught_fold
     (fun mt e => ("Error processing field " ++ grp c mt 4 ++ ": " ++ e)%string)
     (field_match c n) (Re.finditer Re.field_pattern c) s)) /\
  (forall c n s, process_interface_members c n s = Ok tt (caught_fold
     (fun mt e => ("Error processing interface property " ++ grp c mt 2 ++ ": " ++ e)%string)
     (iface_property_match c n) (Re.finditer Re.iface_property_pattern c)
     (caught_fold
        (fun mt e => ("Error processing interface method " ++ grp c mt 2 ++ ": " ++ e)%string)
        (iface_method_match c n) (Re.finditer Re.iface_method_pattern c) s))) /\
  (forall (X : Type) (msg : X -> string -> string) (body : X -> M unit) x l s,
     caught_fold msg body (x :: l) s
     = caught_fold msg body l
         (match body x s with
          | Ok _ s' => s'
          | Exc e s' => set_stderr (msg x e :: stderr s') s'
          end)) /\
  (forall (X : Type) (body : X -> M unit) x l s,
     for_each body (x :: l) s
     = match body x s with
       | Ok _ s' => for_each body l s'
       | Exc e s' => Exc e s'
       end) /\
  (forall p c s, process_dependency_file p c s
     = match dependency_file_body p c s with
       | Ok _ s' => Ok tt s'
       | Exc e s' => Ok tt (set_stderr
           (("Error processing dependency file " ++ p ++ ": " ++ e)%string :: stderr s') s')
       end) /\
  (forall files s, exists s', analyze_codebase files s = Ok tt s').
Proof.
  do 10 (split; [intros; apply for_each_caught_fold|]).
  split.
  { intros. unfold process_interface_members, bind at 1. rewrite for_each_caught_fold.
    apply for_each_caught_fold. }
  split; [intros; apply caught_fold_cons|].
  split; [intros; apply for_each_cons|].
  split; [|apply analyze_codebase_ok].
  intros p c s. unfold process_dependency_file, try_except.
  change (let* analyzed := is_analyzed p in _) with (dependency_file_body p c).
  destruct (dependency_file_body p c s) as [[] s'|e s']; reflexivity.
Qed.

(* ----------------------------------------------------------------- *)
(** ** The attributes every node carries *)

Definition attr_has (k : string) (a : attrs) : bool :=
  match attr_get k a with Some _ => true | None => false end.

(** A [type]; for the two kinds keyed by a path ([file] and
    [dependency_file]) a [path] and no [name]; for every other kind a
    [name]. *)
Definition node_okb (a : attrs) : bool :=
  match attr_get "type" a with
  | Some (VStr t) =>
      if String.eqb t "file" || String.eqb t "dependency_file"
      then attr_has "path" a && negb (attr_has "name" a)
      else attr_has "name" a
  | _ => false
  end.

Definition nodes_ok (G : digraph) : Prop :=
  forall n a, g_nodes G !! n = Some a -> node_okb a = true.

(** Well-formed nodes, and the nodes [L] (the enclosing constructs)
    present. *)
Definition wf_with (L : list string) (s : St) : Prop :=
  nodes_ok (graph s) /\ forall n, In n L -> is_Some (g_nodes (graph s) !! n).

Lemma wf_node_then v a L (k : M unit) :
  node_okb a = true ->
  hoare (wf_with (v :: L)) k (wf_with (v :: L)) ->
  hoare (wf_with L) (bind (add_node_if_absent v a) (fun _ => k)) (wf_with L).
Proof.
  intros Ha Hk s [Hok HL].
  assert (E : exists s', add_node_if_absent v a s = Ok tt s' /\ wf_with (v :: L) s').
  { unfold add_node_if_absent, bind, graph_has_node, gets. simpl.
    destruct (has_node (graph s) v) eqn:Eh.
    - exists s. split; [reflexivity|]. split; [exact Hok|].
      intros n [<-|Hn]; [|apply HL, Hn].
      unfold has_node in Eh. apply bool_decide_eq_true in Eh. exact Eh.
    - eexists. split; [reflexivity|].
      unfold has_node in Eh. apply bool_decide_eq_false in Eh.
      assert (Hv : g_nodes (graph s) !! v = None)
        by (destruct (g_nodes (graph s) !! v); [exfalso; apply Eh; eauto | reflexivity]).
      split.
      + intros n b. simpl. unfold add_node. simpl. rewrite Hv.
        destruct (decide (n = v)) as [->|Hne].
        * rewrite lookup_insert_eq. intros [= <-]. exact Ha.
        * rewrite lookup_insert_ne by congruence. apply Hok.
      + intros n Hn. simpl. unfold add_node. simpl.
        destruct (decide (n = v)) as [->|Hne].
        * rewrite lookup_insert_eq. eauto.
        * rewrite lookup_insert_ne by congruence.
          destruct Hn as [<-|Hn]; [congruence | apply HL, Hn]. }
  destruct E as [s' [E Hs']]. unfold bind. rewrite E.
  destruct (Hk s' Hs') as [Hok' HL']. split; [exact Hok'|].
  intros n Hn. apply HL'. right. exact Hn.
Qed.

Lemma add_endpoint_present N n :
  is_Some (N !! n) -> add_endpoint N n = N.
Proof. intros [a Ha]. unfold add_endpoint. rewrite Ha. reflexivity. Qed.

Lemma wf_edge u v r L :
  In u L -> In v L -> hoare (wf_with L) (graph_add_edge u v r) (wf_with L).
Proof.
  intros Hu Hv s [Hok HL]. simpl. unfold add_edge. simpl.
  rewrite (add_endpoint_present _ u (HL u Hu)).
  rewrite (add_endpoint_present _ v (HL v Hv)).
  split; [exact Hok | exact HL].
Qed.

Section WellFormed.
Context (L : list string).
Local Abbreviation I := (wf_with L).

Lemma wf_bump f : hoare I (bump f) I.
Proof. apply hoare_modify. intros s H; exact H. Qed.
Lemma wf_report m : hoare I (report m) I.
Proof. apply hoare_modify. intros s H; exact H. Qed.
Lemma wf_class_method c n : hoare I (record_class_method c n) I.
Proof. apply hoare_modify. intros s H; exact H. Qed.
Lemma wf_params n ps : hoare I (record_params n ps) I.
Proof. apply hoare_modify. intros s H; exact H. Qed.
Lemma wf_return n r : hoare I (record_return n r) I.
Proof. apply hoare_modify. intros s H; exact H. Qed.
Lemma wf_mark f : hoare I (mark_analyzed f) I.
Proof. apply hoare_modify. intros s H; exact H. Qed.
Lemma wf_files_processed :
  hoare I (modify (fun s => set_files_processed (S (files_processed s)) s)) I.
Proof. apply hoare_modify. intros s H; exact H. Qed.
Lemma wf_read c : hoare I (read_file c) I.
Proof. destruct c; [apply hoare_ret | apply hoare_raise]. Qed.

End WellFormed.

#[local] Hint Resolve wf_bump wf_report wf_class_method wf_params wf_return wf_mark
  wf_files_processed wf_read wf_edge in_eq in_cons : cntxt.

Ltac hoare_extra ::=
  match goal with
  | |- hoare (wf_with _) (bind (add_node_if_absent _ _) (fun _ => _)) _ =>
      apply wf_node_then; [reflexivity|]
  end.

Lemma wf_process_methods L c p :
  In p L -> hoare (wf_with L) (process_methods c p) (wf_with L).
Proof. intros Hp. unfold process_methods. hoare_go. Qed.
Lemma wf_process_properties L c p :
  In p L -> hoare (wf_with L) (process_properties c p) (wf_with L).
Proof. intros Hp. unfold process_properties. hoare_go. Qed.
Lemma wf_process_events L c p :
  In p L -> hoare (wf_with L) (process_events c p) (wf_with L).
Proof. intros Hp. unfold process_events. hoare_go. Qed.
Lemma wf_process_fields L c p :
  In p L -> hoare (wf_with L) (process_fields c p) (wf_with L).
Proof. intros Hp. unfold process_fields. hoare_go. Qed.
Lemma wf_process_bases L k pre r o i :
  (String.eqb k "file" || String.eqb k "dependency_file") = false ->
  In o L -> hoare (wf_with L) (process_bases k pre r o i) (wf_with L).
Proof.
  intros Hk Ho. unfold process_bases. destruct i as [i|]; [|apply hoare_ret].
  apply hoare_for_each. intros base. apply wf_node_then.
  - unfold node_okb. cbn [attr_get String.eqb Ascii.eqb Bool.eqb andb].
    rewrite Hk. reflexivity.
  - hoare_go.
Qed.
#[local] Hint Resolve wf_process_methods wf_process_properties wf_process_events
  wf_process_fields wf_process_bases : cntxt.
Lemma wf_process_classes L c p :
  In p L -> hoare (wf_with L) (process_classes c p) (wf_with L).
Proof. intros Hp. unfold process_classes. hoare_go. Qed.
Lemma wf_process_interface_members L c p :
  In p L -> hoare (wf_with L) (process_interface_members c p) (wf_with L).
Proof. intros Hp. unfold process_interface_members. hoare_go. Qed.
#[local] Hint Resolve wf_process_interface_members : cntxt.
Lemma wf_process_interfaces L c p :
  In p L -> hoare (wf_with L) (process_interfaces c p) (wf_with L).
Proof. intros Hp. unfold process_interfaces. hoare_go. Qed.
Lemma wf_process_enums L c p :
  In p L -> hoare (wf_with L) (process_enums c p) (wf_with L).
Proof. intros Hp. unfold process_enums. hoare_go. Qed.
Lemma wf_process_structs L c p :
  In p L -> hoare (wf_with L) (process_structs c p) (wf_with L).
Proof. intros Hp. unfold process_structs. hoare_go. Qed.
#[local] Hint Resolve wf_process_classes wf_process_interfaces wf_process_enums
  wf_process_structs : cntxt.
Lemma wf_process_namespaces L c p :
  In p L -> hoare (wf_with L) (process_namespaces c p) (wf_with L).
Proof. intros Hp. unfold process_namespaces. hoare_go. Qed.
Lemma wf_process_usings L c p :
  In p L -> hoare (wf_with L) (process_usings c p) (wf_with L).
Proof. intros Hp. unfold process_usings. hoare_go. Qed.
Lemma wf_add_dependency_node L f n v r :
  In f L -> hoare (wf_with L) (add_dependency_node f n v r) (wf_with L).
Proof. intros Hf. unfold add_dependency_node. hoare_go. Qed.
#[local] Hint Resolve wf_process_namespaces wf_process_usings wf_add_dependency_node
  : cntxt.
Lemma wf_process_lock_file L f c :
  In f L -> hoare (wf_with L) (process_lock_file f c) (wf_with L).
Proof. intros Hf. unfold process_lock_file, attribute_error. hoare_go. Qed.
#[local] Hint Resolve wf_process_lock_file : cntxt.
Lemma wf_process_dependency_file f c :
  hoare (wf_with []) (process_dependency_file f c) (wf_with []).
Proof. unfold process_dependency_file, is_analyzed. hoare_go. Qed.
Lemma wf_process_file f c :
  hoare (wf_with []) (process_file f c) (wf_with []).
Proof. unfold process_file, is_analyzed. hoare_go. Qed.
#[local] Hint Resolve wf_process_dependency_file wf_process_file : cntxt.
Lemma wf_analyze_codebase fs :
  hoare (wf_with []) (analyze_codebase fs) (wf_with []).
Proof. unfold analyze_codebase, analyze_one. hoare_go. Qed.

Ltac hoare_extra ::= fail.

Definition nodes_okb (G : digraph) : bool :=
  forallb (fun na => node_okb na.2) (map_to_list (g_nodes G)).

Lemma nodes_okb_spec G : nodes_okb G = true <-> nodes_ok G.
Proof.
  unfold nodes_okb, nodes_ok. rewrite forallb_forall. split.
  - intros H n a Hn. apply (H (n, a)). apply list_elem_of_In, elem_of_map_to_list, Hn.
  - intros H [n a] Hn. apply (H n a). apply elem_of_map_to_list, list_elem_of_In, Hn.
Qed.

Definition small_file : source_file := cs_file "x.cs" "namespace A { }".

(** C9, counterexample: the file node and the dependency-file node carry
    [type] and [path], and no [name]. *)
Lemma file_nodes_have_no_name :
  g_nodes (graph (run [small_file; dup_csproj] init_state)) !! "File: x.cs"
  = Some [("type", VStr "file"); ("path", VStr "x.cs")]
  /\ g_nodes (graph (run [small_file; dup_csproj] init_state))
       !! "Dependency File: App.csproj"
     = Some [("type", VStr "dependency_file"); ("path", VStr "App.csproj")]
  /\ attr_has "name" [("type", VStr "file"); ("path", VStr "x.cs")] = false.
Proof. split; [|split]; vm_compute; reflexivity. Qed.

(** C9, as the code has it: from a graph whose nodes are all well formed
    (the empty graph of a fresh analyzer among them), extraction keeps them
    so: every node carries a [type]; every node other than a file or
    dependency-file node carries a [name]; file and dependency-file nodes
    carry a [path] instead, and no [name].  Each edge joins nodes that
    already exist, so no node is ever created bare by [add_edge]. *)
Theorem node_attrs_type_and_name_or_path (files : list source_file) (s : St) :
  nodes_okb (graph s) = true -> nodes_okb (graph (run files s)) = true.
Proof.
  rewrite !nodes_okb_spec. intros H.
  apply (wf_analyze_codebase files s). split; [exact H | intros n []].
Qed.

Lemma node_attrs_type_and_name_or_path_witness :
  nodes_okb (graph init_state) = true /\
  nodes_okb (graph (run [methods_file; dup_csproj; bad_lock_file] init_state)) = true.
Proof.
  split; [vm_compute; reflexivity|].
  apply (node_attrs_type_and_name_or_path [methods_file; dup_csproj; bad_lock_file] init_state).
  vm_compute. reflexivity.
Defined.

(* ----------------------------------------------------------------- *)
(** ** Two runs of a computation side by side *)

Definition res_rel {A} (R : St -> St -> Prop) (r1 r2 : res A) : Prop :=
  match r1, r2 with
  | Ok a1 s1, Ok a2 s2 => a1 = a2 /\ R s1 s2
  | Exc e1 s1, Exc e2 s2 => e1 = e2 /\ R s1 s2
  | _, _ => False
  end.

Definition related {A} (R : St -> St -> Prop) (c1 c2 : M A) : Prop :=
  forall s1 s2, R s1 s2 -> res_rel R (c1 s1) (c2 s2).

Section Related.
Context (R : St -> St -> Prop).

Lemma related_ret {A} (a : A) : related R (ret a) (ret a).
Proof. intros s1 s2 H. split; [reflexivity | exact H]. Qed.

Lemma related_raise {A} e : related R (@raise A e) (@raise A e).
Proof. intros s1 s2 H. split; [reflexivity | exact H]. Qed.

Lemma related_bind {A B} (c1 c2 : M A) (k1 k2 : A -> M B) :
  related R c1 c2 -> (forall a, related R (k1 a) (k2 a)) ->
  related R (bind c1 k1) (bind c2 k2).
Proof.
  intros Hc Hk s1 s2 H. specialize (Hc s1 s2 H). unfold bind.
  destruct (c1 s1) as [a1 t1|e1 t1], (c2 s2) as [a2 t2|e2 t2];
    simpl in Hc; try contradiction; destruct Hc as [-> Ht].
  - apply Hk, Ht.
  - split; [reflexivity | exact Ht].
Qed.

Lemma related_try {A} (c1 c2 : M A) h1 h2 :
  related R c1 c2 -> (forall e, related R (h1 e) (h2 e)) ->
  related R (try_except c1 h1) (try_except c2 h2).
Proof.
  intros Hc Hh s1 s2 H. specialize (Hc s1 s2 H). unfold try_except.
  destruct (c1 s1) as [a1 t1|e1 t1], (c2 s2) as [a2 t2|e2 t2];
    simpl in Hc; try contradiction; destruct Hc as [-> Ht].
  - split; [reflexivity | exact Ht].
  - apply Hh, Ht.
Qed.

Lemma related_modify f1 f2 :
  (forall s1 s2, R s1 s2 -> R (f1 s1) (f2 s2)) ->
  related R (modify f1) (modify f2).
Proof. intros Hf s1 s2 H. split; [reflexivity | apply Hf, H]. Qed.

Lemma related_gets {A} (f : St -> A) :
  (forall s1 s2, R s1 s2 -> f s1 = f s2) -> related R (gets f) (gets f).
Proof. intros Hf s1 s2 H. split; [apply Hf, H | exact H]. Qed.

Lemma related_for_each {X} (b1 b2 : X -> M unit) l :
  (forall x, related R (b1 x) (b2 x)) ->
  related R (for_each b1 l) (for_each b2 l).
Proof.
  intros Hb. induction l as [|x l IH]; simpl; [apply related_ret|].
  apply related_bind; [apply Hb | intros _; exact IH].
Qed.

Lemma related_for_each_caught {X} msg (b1 b2 : X -> M unit) l :
  (forall m, related R (report m) (report m)) ->
  (forall x, related R (b1 x) (b2 x)) ->
  related R (for_each_caught msg b1 l) (for_each_caught msg b2 l).
Proof.
  intros Hr Hb. induction l as [|x l IH]; simpl; [apply related_ret|].
  apply related_bind; [|intros _; exact IH].
  apply related_try; [apply Hb | intros e; apply Hr].
Qed.

End Related.

(** The attributes of a [CONTAINS_CLASS] edge set over the dict [o]. *)
Definition contains_class (o : option attrs) : attrs :=
  attr_update (default [] o) [("relation", VStr "CONTAINS_CLASS")].

(** The edges [E1] and [E2] of two runs from the edges [E0], one under the
    parent [p1] and one under [p2]: equal from every source other than
    the two parents; each run leaves the other's parent as in [E0]; and
    for each target, both runs left their own parent's edge to it alone,
    or both set its relation to [CONTAINS_CLASS]. *)
Definition parent_edges (p1 p2 : string) (E0 E1 E2 : gmap (string * string) attrs)
    : Prop :=
  (forall u v, u <> p1 -> u <> p2 -> E1 !! (u, v) = E2 !! (u, v)) /\
  (forall v, E1 !! (p2, v) = E0 !! (p2, v)) /\
  (forall v, E2 !! (p1, v) = E0 !! (p1, v)) /\
  (forall v, (E1 !! (p1, v) = E0 !! (p1, v) /\ E2 !! (p2, v) = E0 !! (p2, v)) \/
             (E1 !! (p1, v) = Some (contains_class (E0 !! (p1, v))) /\
              E2 !! (p2, v) = Some (contains_class (E0 !! (p2, v))))).

(** Two states equal in everything but their edges, where [p1] is a node
    of the first and [p2] a node of the second, and whose edges are
    related to [E0] as above. *)
Definition same_but_edges (p1 p2 : string) (E0 : gmap (string * string) attrs)
    (s1 s2 : St) : Prop :=
  g_nodes (graph s1) = g_nodes (graph s2) /\
  class_methods s1 = class_methods s2 /\
  method_params s1 = method_params s2 /\
  method_returns s1 = method_returns s2 /\
  analyzed_files s1 = analyzed_files s2 /\
  files_processed s1 = files_processed s2 /\
  st_stats s1 = st_stats s2 /\
  stderr s1 = stderr s2 /\
  is_Some (g_nodes (graph s1) !! p1) /\ is_Some (g_nodes (graph s2) !! p2) /\
  parent_edges p1 p2 E0 (g_edges (graph s1)) (g_edges (graph s2)).

Lemma same_but_edges_intro p1 p2 E0 s1 s2 :
  g_nodes (graph s1) = g_nodes (graph s2) ->
  class_methods s1 = class_methods s2 ->
  method_params s1 = method_params s2 ->
  method_returns s1 = method_returns s2 ->
  analyzed_files s1 = analyzed_files s2 ->
  files_processed s1 = files_processed s2 ->
  st_stats s1 = st_stats s2 ->
  stderr s1 = stderr s2 ->
  is_Some (g_nodes (graph s1) !! p1) -> is_Some (g_nodes (graph s2) !! p2) ->
  parent_edges p1 p2 E0 (g_edges (graph s1)) (g_edges (graph s2)) ->
  same_but_edges p1 p2 E0 s1 s2.
Proof. unfold same_but_edges. tauto. Qed.

Lemma add_endpoint_is_Some N u n :
  is_Some (N !! n) -> is_Some (add_endpoint N u !! n).
Proof.
  intros Hn. unfold add_endpoint. destruct (N !! u); [exact Hn|].
  destruct (decide (u = n)) as [->|Hne];
    [rewrite lookup_insert_eq; eauto | rewrite lookup_insert_ne by exact Hne; exact Hn].
Qed.

Lemma attr_set_idem k v a : attr_set k v (attr_set k v a) = attr_set k v a.
Proof.
  induction a as [|[k' v'] a IH]; simpl.
  - rewrite String.eqb_refl. reflexivity.
  - destruct (String.eqb k k') eqn:E; simpl; rewrite E; [reflexivity|].
    rewrite IH. reflexivity.
Qed.

Lemma contains_class_idem o :
  attr_update (default [] (Some (contains_class o)))
    [("relation", VStr "CONTAINS_CLASS")] = contains_class o.
Proof. unfold contains_class, attr_update. simpl. apply attr_set_idem. Qed.

Lemma contains_first (o o0 : option attrs) :
  o = o0 ->
  attr_update (default [] o) [("relation", VStr "CONTAINS_CLASS")] = contains_class o0.
Proof. intros ->. reflexivity. Qed.

Lemma contains_again (o o0 : option attrs) :
  o = Some (contains_class o0) ->
  attr_update (default [] o) [("relation", VStr "CONTAINS_CLASS")] = contains_class o0.
Proof. intros ->. apply contains_class_idem. Qed.


(** An edge from a source other than the two parents, on both sides. *)
Lemma parent_edges_insert p1 p2 E0 E1 E2 u v (f : option attrs -> attrs) :
  u <> p1 -> u <> p2 -> parent_edges p1 p2 E0 E1 E2 ->
  parent_edges p1 p2 E0 (<[(u, v) := f (E1 !! (u, v))]> E1)
                        (<[(u, v) := f (E2 !! (u, v))]> E2).
Proof.
  intros Hu1 Hu2 (G1 & G2 & G3 & G4).
  assert (Hp : forall p w, u <> p -> (u, v) <> (p, w)) by congruence.
  split; [|split; [|split]].
  - intros u' v' H1 H2. destruct (decide ((u, v) = (u', v'))) as [Heq|Hne].
    + injection Heq as <- <-. rewrite !lookup_insert_eq, G1 by assumption.
      reflexivity.
    + rewrite !lookup_insert_ne by exact Hne. apply G1; assumption.
  - intros w. rewrite lookup_insert_ne by (apply Hp; assumption). apply G2.
  - intros w. rewrite lookup_insert_ne by (apply Hp; assumption). apply G3.
  - intros w. rewrite !lookup_insert_ne by (apply Hp; assumption). apply G4.
Qed.

(** The containment edge, from [p1] on one side and [p2] on the other. *)
Lemma parent_edges_contains p1 p2 E0 E1 E2 v :
  p1 <> p2 -> parent_edges p1 p2 E0 E1 E2 ->
  parent_edges p1 p2 E0
    (<[(p1, v) := attr_update (default [] (E1 !! (p1, v)))
                    [("relation", VStr "CONTAINS_CLASS")]]> E1)
    (<[(p2, v) := attr_update (default [] (E2 !! (p2, v)))
                    [("relation", VStr "CONTAINS_CLASS")]]> E2).
Proof.
  intros Hne (G1 & G2 & G3 & G4).
  split; [|split; [|split]].
  - intros u w H1 H2. rewrite !lookup_insert_ne by congruence. apply G1; assumption.
  - intros w. rewrite lookup_insert_ne by congruence. apply G2.
  - intros w. rewrite lookup_insert_ne by congruence. apply G3.
  - intros w. destruct (decide (w = v)) as [->|Hw].
    + rewrite !lookup_insert_eq. right.
      destruct (G4 v) as [[A B]|[A B]]; split; f_equal.
      * apply contains_first, A.
      * apply contains_first, B.
      * apply contains_again, A.
      * apply contains_again, B.
    + rewrite !lookup_insert_ne by congruence. apply G4.
Qed.

Section SameButEdges.
Context (p1 p2 : string) (E0 : gmap (string * string) attrs).
Local Abbreviation R := (same_but_edges p1 p2 E0).

Ltac same_fields :=
  intros s1 s2 (HN & HC & HP & HR & HA & HF & HS & HE & H1 & H2 & HG);
  apply same_but_edges_intro; simpl; try congruence; assumption.

Lemma sb_add_node_if_absent n a :
  related R (add_node_if_absent n a) (add_node_if_absent n a).
Proof.
  unfold add_node_if_absent. apply related_bind.
  - apply related_gets. intros s1 s2 H. unfold has_node. destruct H as [-> _]. reflexivity.
  - intros [|]; [apply related_ret|]. apply related_modify.
    intros s1 s2 (HN & HC & HP & HR & HA & HF & HS & HE & H1 & H2 & HG).
    apply same_but_edges_intro; simpl; try assumption;
      [rewrite HN; reflexivity| |];
      apply lookup_insert_is_Some'; right; assumption.
Qed.

Lemma sb_add_edge u v r :
  u <> p1 -> u <> p2 ->
  related R (graph_add_edge u v r) (graph_add_edge u v r).
Proof.
  intros Hu1 Hu2. apply related_modify.
  intros s1 s2 (HN & HC & HP & HR & HA & HF & HS & HE & H1 & H2 & HG).
  apply same_but_edges_intro; simpl; try assumption.
  - rewrite HN. reflexivity.
  - apply add_endpoint_is_Some, add_endpoint_is_Some, H1.
  - apply add_endpoint_is_Some, add_endpoint_is_Some, H2.
  - apply (parent_edges_insert _ _ _ _ _ u v
             (fun o => attr_update (default [] o) [("relation", VStr r)]));
      assumption.
Qed.

(** The containment edge: a different source on each side, both present,
    the same target. *)
Lemma sb_parent_edge v :
  p1 <> p2 ->
  related R (graph_add_edge p1 v "CONTAINS_CLASS") (graph_add_edge p2 v "CONTAINS_CLASS").
Proof.
  intros Hne. apply related_modify.
  intros s1 s2 (HN & HC & HP & HR & HA & HF & HS & HE & H1 & H2 & HG).
  apply same_but_edges_intro; simpl; try assumption.
  - rewrite (add_endpoint_present _ p1 H1), (add_endpoint_present _ p2 H2), HN.
    reflexivity.
  - apply add_endpoint_is_Some, add_endpoint_is_Some, H1.
  - apply add_endpoint_is_Some, add_endpoint_is_Some, H2.
  - apply parent_edges_contains; assumption.
Qed.

Lemma sb_bump f : related R (bump f) (bump f).
Proof. apply related_modify. same_fields. Qed.
Lemma sb_report m : related R (report m) (report m).
Proof. apply related_modify. same_fields. Qed.
Lemma sb_class_method c n :
  related R (record_class_method c n) (record_class_method c n).
Proof. apply related_modify. same_fields. Qed.
Lemma sb_params n ps : related R (record_params n ps) (record_params n ps).
Proof. apply related_modify. same_fields. Qed.
Lemma sb_return n r : related R (record_return n r) (record_return n r).
Proof. apply related_modify. same_fields. Qed.

End SameButEdges.

Create HintDb sidebyside.
#[local] Hint Resolve sb_add_node_if_absent sb_add_edge sb_parent_edge sb_bump
  sb_report sb_class_method sb_params sb_return related_ret related_raise
  : sidebyside.

(** Walk two copies of a computation in step. *)
Ltac related_go :=
  repeat match goal with
  | |- forall _, related _ _ _ => intros ?
  | |- related _ _ _ =>
      first
        [ solve [eauto with sidebyside]
        | match goal with
          | |- related _ (bind _ _) (bind _ _) =>
              apply related_bind; [|intros ?; cbv beta zeta]
          | |- related _ (for_each_caught _ _ _) (for_each_caught _ _ _) =>
              apply related_for_each_caught; [|intros ?; cbv beta zeta]
          | |- related _ (for_each _ _) (for_each _ _) =>
              apply related_for_each; intros ?; cbv beta zeta
          | |- related _ (try_except _ _) (try_except _ _) =>
              apply related_try; [|intros ?; cbv beta zeta]
          | |- related _ (let _ := _ in _) _ => cbv zeta
          | |- related _ (if ?b then _ else _) _ => destruct b
          | |- related _ (match ?x with _ => _ end) _ => destruct x
          end ]
  end.

Section Members.
Context (p1 p2 : string) (E0 : gmap (string * string) attrs) (n : string)
  (Hn1 : n <> p1) (Hn2 : n <> p2).

Lemma sb_process_methods c :
  related (same_but_edges p1 p2 E0) (process_methods c n) (process_methods c n).
Proof. unfold process_methods. related_go. Qed.
Lemma sb_process_properties c :
  related (same_but_edges p1 p2 E0) (process_properties c n) (process_properties c n).
Proof. unfold process_properties. related_go. Qed.
Lemma sb_process_events c :
  related (same_but_edges p1 p2 E0) (process_events c n) (process_events c n).
Proof. unfold process_events. related_go. Qed.
Lemma sb_process_fields c :
  related (same_but_edges p1 p2 E0) (process_fields c n) (process_fields c n).
Proof. unfold process_fields. related_go. Qed.
Lemma sb_process_bases k pre r i :
  related (same_but_edges p1 p2 E0) (process_bases k pre r n i) (process_bases k pre r n i).
Proof. unfold process_bases. related_go. Qed.

End Members.
#[local] Hint Resolve sb_process_methods sb_process_properties sb_process_events
  sb_process_fields sb_process_bases : sidebyside.

Lemma class_not_namespace x a : node_id "Class" x <> node_id "Namespace" a.
Proof. unfold node_id. simpl. intros H. discriminate H. Qed.

Lemma append_cancel_l (p a b : string) : (p ++ a)%string = (p ++ b)%string -> a = b.
Proof. induction p as [|c p IH]; simpl; [tauto|]. intros H. injection H. exact IH. Qed.

Lemma namespace_inj a b : a <> b -> node_id "Namespace" a <> node_id "Namespace" b.
Proof. intros Hab H. apply Hab. unfold node_id in H. apply append_cancel_l, append_cancel_l in H. exact H. Qed.

#[local] Hint Resolve class_not_namespace namespace_inj : sidebyside.


(* ----------------------------------------------------------------- *)
(** ** What a class scan adds, whatever the state *)

(** [class_methods] after appending the lists of [D] key by key. *)
Definition cm_append (C D : gmap string (list string)) : gmap string (list string) :=
  union_with (fun l1 l2 => Some (l1 ++ l2)%list) C D.

(** [c] returns normally, adds the nodes of [K] that are missing (a node
    already present keeps its dict) and appends [D] to [class_methods],
    from every state. *)
Definition eff (c : M unit) (K : gmap string attrs) (D : gmap string (list string))
    : Prop :=
  forall t, exists t', c t = Ok tt t' /\
    g_nodes (graph t') = g_nodes (graph t) ∪ K /\
    class_methods t' = cm_append (class_methods t) D.

Definition fixed_effect (c : M unit) : Prop := exists K D, eff c K D.

Lemma cm_append_empty C : cm_append C ∅ = C.
Proof.
  apply map_eq. intros k. unfold cm_append.
  rewrite lookup_union_with, lookup_empty. destruct (C !! k); reflexivity.
Qed.

Lemma cm_append_assoc C D1 D2 :
  cm_append (cm_append C D1) D2 = cm_append C (cm_append D1 D2).
Proof.
  apply map_eq. intros k. unfold cm_append. rewrite !lookup_union_with.
  destruct (C !! k), (D1 !! k), (D2 !! k); simpl; try reflexivity.
  rewrite app_assoc. reflexivity.
Qed.

Lemma union_present (N : gmap string attrs) n a :
  is_Some (N !! n) -> N ∪ {[n := a]} = N.
Proof.
  intros [x Hx]. apply map_eq. intros k. rewrite lookup_union.
  destruct (decide (k = n)) as [->|Hk].
  - rewrite Hx, lookup_singleton_eq. reflexivity.
  - rewrite lookup_singleton_ne by congruence. destruct (N !! k); reflexivity.
Qed.

Lemma add_endpoint_union N u : add_endpoint N u = N ∪ {[u := []]}.
Proof.
  unfold add_endpoint. destruct (N !! u) as [x|] eqn:E.
  - apply map_eq. intros k. rewrite lookup_union.
    destruct (decide (k = u)) as [->|Hk].
    + rewrite E, lookup_singleton_eq. reflexivity.
    + rewrite lookup_singleton_ne by congruence. destruct (N !! k); reflexivity.
  - apply insert_union_singleton_r, E.
Qed.

Lemma fe_ret : fixed_effect (ret tt).
Proof.
  exists ∅, ∅. intros t. exists t. split; [reflexivity|].
  rewrite (right_id_L ∅ (∪)), cm_append_empty. split; reflexivity.
Qed.

Lemma fe_bind (c : M unit) (k : unit -> M unit) :
  fixed_effect c -> fixed_effect (k tt) -> fixed_effect (bind c k).
Proof.
  intros (K1 & D1 & H1) (K2 & D2 & H2). exists (K1 ∪ K2), (cm_append D1 D2).
  intros t. destruct (H1 t) as (t1 & E1 & N1 & C1).
  destruct (H2 t1) as (t2 & E2 & N2 & C2).
  exists t2. unfold bind. rewrite E1. split; [exact E2|]. split.
  - rewrite N2, N1, (assoc_L (∪)). reflexivity.
  - rewrite C2, C1, cm_append_assoc. reflexivity.
Qed.

Lemma fe_try (c : M unit) h : fixed_effect c -> fixed_effect (try_except c h).
Proof.
  intros (K & D & H). exists K, D. intros t. destruct (H t) as (t' & E & HN & HC).
  exists t'. unfold try_except. rewrite E. auto.
Qed.

Lemma fe_for_each_caught {X} msg (b : X -> M unit) l :
  (forall x, fixed_effect (b x)) -> fixed_effect (for_each_caught msg b l).
Proof.
  intros Hb. induction l as [|x l IH]; simpl; [apply fe_ret|].
  apply fe_bind; [apply fe_try, Hb | exact IH].
Qed.

Lemma fe_for_each {X} (b : X -> M unit) l :
  (forall x, fixed_effect (b x)) -> fixed_effect (for_each b l).
Proof.
  intros Hb. induction l as [|x l IH]; simpl; [apply fe_ret|].
  apply fe_bind; [apply Hb | exact IH].
Qed.

Lemma fe_modify f :
  (forall t, g_nodes (graph (f t)) = g_nodes (graph t) /\
             class_methods (f t) = class_methods t) ->
  fixed_effect (modify f).
Proof.
  intros Hf. exists ∅, ∅. intros t. exists (f t). split; [reflexivity|].
  destruct (Hf t) as [-> ->].
  rewrite (right_id_L ∅ (∪)), cm_append_empty. split; reflexivity.
Qed.

Lemma fe_add_node_if_absent n a : fixed_effect (add_node_if_absent n a).
Proof.
  exists {[n := a]}, ∅. intros t.
  unfold add_node_if_absent, bind, graph_has_node, gets, has_node.
  case_bool_decide as Hb.
  - exists t. split; [reflexivity|]. rewrite cm_append_empty. split; [|reflexivity].
    symmetry. apply union_present, Hb.
  - exists (set_graph (add_node (graph t) n a) t).
    split; [reflexivity|]. rewrite cm_append_empty. split; [|reflexivity].
    simpl. destruct (g_nodes (graph t) !! n) eqn:E; [exfalso; apply Hb; eauto|].
    apply insert_union_singleton_r, E.
Qed.

Lemma fe_add_edge u v r : fixed_effect (graph_add_edge u v r).
Proof.
  exists ({[u := []]} ∪ {[v := []]}), ∅. intros t. eexists. split; [reflexivity|].
  rewrite cm_append_empty. split; [|reflexivity].
  simpl. rewrite !add_endpoint_union, (assoc_L (∪)). reflexivity.
Qed.

Lemma fe_record_class_method k n : fixed_effect (record_class_method k n).
Proof.
  exists ∅, {[k := [n]]}. intros t. eexists. split; [reflexivity|].
  rewrite (right_id_L ∅ (∪)). split; [reflexivity|]. simpl.
  apply map_eq. intros j. unfold cm_append. rewrite lookup_union_with.
  destruct (decide (j = k)) as [->|Hj].
  - rewrite lookup_insert_eq, lookup_singleton_eq. destruct (class_methods t !! k); reflexivity.
  - rewrite lookup_insert_ne, lookup_singleton_ne by congruence.
    destruct (class_methods t !! j); reflexivity.
Qed.

Lemma fe_bump f : fixed_effect (bump f).
Proof. apply fe_modify. intros t. split; reflexivity. Qed.
Lemma fe_report m : fixed_effect (report m).
Proof. apply fe_modify. intros t. split; reflexivity. Qed.
Lemma fe_params n ps : fixed_effect (record_params n ps).
Proof. apply fe_modify. intros t. split; reflexivity. Qed.
Lemma fe_return n r : fixed_effect (record_return n r).
Proof. apply fe_modify. intros t. split; reflexivity. Qed.

Create HintDb effects.
#[local] Hint Resolve fe_ret fe_add_node_if_absent fe_add_edge fe_record_class_method
  fe_bump fe_report fe_params fe_return : effects.

Ltac effect_go :=
  repeat match goal with
  | |- forall _, fixed_effect _ => intros ?
  | |- fixed_effect _ =>
      first
        [ solve [eauto with effects]
        | match goal with
          | |- fixed_effect (bind _ _) => apply fe_bind; [|cbv beta zeta]
          | |- fixed_effect (for_each_caught _ _ _) =>
              apply fe_for_each_caught; intros ?; cbv beta zeta
          | |- fixed_effect (for_each _ _) =>
              apply fe_for_each; intros ?; cbv beta zeta
          | |- fixed_effect (let _ := _ in _) => cbv zeta
          | |- fixed_effect (match ?x with _ => _ end) => destruct x
          end ]
  end.

Lemma fe_process_methods c n : fixed_effect (process_methods c n).
Proof. unfold process_methods. effect_go. Qed.
Lemma fe_process_properties c n : fixed_effect (process_properties c n).
Proof. unfold process_properties. effect_go. Qed.
Lemma fe_process_events c n : fixed_effect (process_events c n).
Proof. unfold process_events. effect_go. Qed.
Lemma fe_process_fields c n : fixed_effect (process_fields c n).
Proof. unfold process_fields. effect_go. Qed.
Lemma fe_process_bases k pre r o i : fixed_effect (process_bases k pre r o i).
Proof. unfold process_bases. effect_go. Qed.
#[local] Hint Resolve fe_process_methods fe_process_properties fe_process_events
  fe_process_fields fe_process_bases : effects.








(* ----------------------------------------------------------------- *)
(** ** What the regex engine accepts *)

(** The spans [r] can match in [s], engine order aside; a repetition
    iterates only on non-empty matches, as the engine does. *)
Inductive matches : Re.regex -> list ascii -> nat -> nat -> Prop :=
| m_eps s i : matches Re.REps s i i
| m_char p s i c :
    nth_error s i = Some c -> p c = true -> matches (Re.RChar p) s i (S i)
| m_seq r1 r2 s i j l :
    matches r1 s i j -> matches r2 s j l -> matches (Re.RSeq r1 r2) s i l
| m_alt_l r1 r2 s i j : matches r1 s i j -> matches (Re.RAlt r1 r2) s i j
| m_alt_r r1 r2 s i j : matches r2 s i j -> matches (Re.RAlt r1 r2) s i j
| m_star_nil gr r s i : matches (Re.RStar gr r) s i i
| m_star_cons gr r s i j l :
    matches r s i j -> i < j -> matches (Re.RStar gr r) s j l ->
    matches (Re.RStar gr r) s i l
| m_group n r s i j : matches r s i j -> matches (Re.RGroup n r) s i j.

(** The repetition loop of [Re.m], by name. *)
Definition star_loop (gr : bool) (r : Re.regex) (s : list ascii)
    (k : nat -> Re.groups -> option (nat * Re.groups)) :=
  fix loop (fuel : nat) (i : nat) (g : Re.groups) {struct fuel} :=
    match fuel with
    | O => k i g
    | S f =>
        let more := fun (_ : unit) =>
          Re.m r s i g (fun j h => if Nat.leb j i then None else loop f j h) in
        if gr then Re.orelse (more tt) (fun _ => k i g)
        else Re.orelse (k i g) more
    end.

Lemma m_star_eq gr r s i g k :
  Re.m (Re.RStar gr r) s i g k = star_loop gr r s k (S (length s - i)) i g.
Proof. reflexivity. Qed.

Lemma m_sound r : forall s i g k res,
  Re.m r s i g k = Some res -> exists j h, matches r s i j /\ k j h = Some res.
Proof.
  induction r as [|p|r1 IH1 r2 IH2|r1 IH1 r2 IH2|gr r IH|n r IH];
    intros s i g k res H.
  - exists i, g. split; [constructor | exact H].
  - simpl in H. destruct (nth_error s i) as [c|] eqn:E; [|discriminate].
    destruct (p c) eqn:Ep; [|discriminate].
    exists (S i), g. split; [econstructor; eauto | exact H].
  - simpl in H. destruct (IH1 _ _ _ _ _ H) as (j & h & H1 & H2).
    destruct (IH2 _ _ _ _ _ H2) as (l & h' & H3 & H4).
    exists l, h'. split; [econstructor; eauto | exact H4].
  - simpl in H. unfold Re.orelse in H. destruct (Re.m r1 s i g k) eqn:E.
    + inversion H; subst. destruct (IH1 _ _ _ _ _ E) as (j & h & H1 & H2).
      exists j, h. split; [apply m_alt_l, H1 | exact H2].
    + destruct (IH2 _ _ _ _ _ H) as (j & h & H1 & H2).
      exists j, h. split; [apply m_alt_r, H1 | exact H2].
  - rewrite m_star_eq in H. revert H. generalize (S (length s - i)) as f.
    intros f. revert i g res.
    induction f as [|f IHf]; intros i g res H; simpl in H.
    + exists i, g. split; [constructor | exact H].
    + assert (Hmore : forall res',
          Re.m r s i g (fun j h => if Nat.leb j i then None
                                   else star_loop gr r s k f j h) = Some res' ->
          exists j h, matches (Re.RStar gr r) s i j /\ k j h = Some res').
      { intros res' Hm. destruct (IH _ _ _ _ _ Hm) as (j & h & H1 & H2).
        destruct (Nat.leb j i) eqn:Ej; [discriminate|].
        apply Nat.leb_gt in Ej.
        destruct (IHf _ _ _ H2) as (l & h' & H3 & H4).
        exists l, h'. split; [eapply m_star_cons; eauto | exact H4]. }
      destruct gr; unfold Re.orelse in H.
      * destruct (Re.m r s i g _) eqn:E.
        -- inversion H; subst. apply Hmore. reflexivity.
        -- exists i, g. split; [constructor | exact H].
      * destruct (k i g) eqn:E.
        -- inversion H; subst. exists i, g. split; [constructor | exact E].
        -- apply Hmore, H.
  - simpl in H. destruct (IH _ _ _ _ _ H) as (j & h & H1 & H2).
    exists j, ((n, (i, j)) :: h). split; [constructor; exact H1 | exact H2].
Qed.

(** Every offset in [i, j) holds a character satisfying [P]. *)
Definition runp (P : ascii -> bool) (s : list ascii) (i j : nat) : Prop :=
  forall t, i <= t < j -> exists c, nth_error s t = Some c /\ P c = true.

(** Every character class in [r] lies inside [P]. *)
Fixpoint chars_okb (P : ascii -> bool) (r : Re.regex) : bool :=
  match r with
  | Re.REps => true
  | Re.RChar p =>
      forallb (fun n => implb (p (ascii_of_nat n)) (P (ascii_of_nat n))) (seq 0 256)
  | Re.RSeq r1 r2 | Re.RAlt r1 r2 => chars_okb P r1 && chars_okb P r2
  | Re.RStar _ r0 | Re.RGroup _ r0 => chars_okb P r0
  end.

Lemma chars_okb_char P p c :
  chars_okb P (Re.RChar p) = true -> p c = true -> P c = true.
Proof.
  intros H0 Hp.
  assert (H : forallb (fun n => implb (p (ascii_of_nat n)) (P (ascii_of_nat n)))
                      (seq 0 256) = true) by exact H0.
  rewrite forallb_forall in H. specialize (H (nat_of_ascii c)).
  rewrite ascii_nat_embedding, Hp in H. apply H.
  apply in_seq. pose proof (nat_ascii_bounded c). lia.
Qed.

Lemma runp_empty P s i : runp P s i i.
Proof. intros t Ht. lia. Qed.

Lemma matches_consumed P r s i j :
  matches r s i j -> chars_okb P r = true -> i <= j /\ runp P s i j.
Proof.
  induction 1 as [s i|p s i c E Hp|r1 r2 s i j l H1 IH1 H2 IH2
                 |r1 r2 s i j H IH|r1 r2 s i j H IH|gr r s i
                 |gr r s i j l H1 IH1 Hlt H2 IH2|n r s i j H IH];
    intros Hok; cbn [chars_okb] in Hok;
    repeat match goal with Hb : _ && _ = true |- _ => apply andb_prop in Hb; destruct Hb end.
  - split; [lia | apply runp_empty].
  - split; [lia|]. intros t Ht. assert (t = i) by lia. subst t.
    exists c. split; [exact E | exact (chars_okb_char P p c Hok Hp)].
  - destruct (IH1 H) as [Hij R1]. destruct (IH2 H0) as [Hjl R2].
    split; [lia|]. intros t Ht.
    destruct (Nat.lt_ge_cases t j); [apply R1 | apply R2]; lia.
  - destruct (IH H0) as [Hij R]. split; [lia | exact R].
  - destruct (IH H1) as [Hij R]. split; [lia | exact R].
  - split; [lia | apply runp_empty].
  - destruct (IH1 Hok) as [Hij R1]. destruct (IH2 Hok) as [Hjl R2].
    split; [lia|]. intros t Ht.
    destruct (Nat.lt_ge_cases t j); [apply R1 | apply R2]; lia.
  - apply IH, Hok.
Qed.

Lemma chars_okb_self p : chars_okb p (Re.RChar p) = true.
Proof.
  change (forallb (fun n => implb (p (ascii_of_nat n)) (p (ascii_of_nat n)))
                  (seq 0 256) = true).
  apply forallb_forall. intros n _. destruct (p (ascii_of_nat n)); reflexivity.
Qed.

Lemma star_char_run gr p s i j :
  matches (Re.RStar gr (Re.RChar p)) s i j -> i <= j /\ runp p s i j.
Proof. intros H. apply (matches_consumed p _ _ _ _ H). apply chars_okb_self. Qed.

Lemma plus_char_run p s i j :
  matches (Re.plus (Re.RChar p)) s i j -> i < j /\ runp p s i j.
Proof.
  intros H. unfold Re.plus in H. inversion H as [| | ? ? ? ? k ? Hc Hs | | | | |]; subst.
  inversion Hc as [|? ? ? c E Hp| | | | | |]; subst.
  destruct (star_char_run _ _ _ _ _ Hs) as [Hle R2].
  split; [lia|]. intros t Ht.
  destruct (Nat.eq_dec t i) as [->|Hne]; [eauto | apply R2; lia].
Qed.

(** [[\w\<\>\[\]]], by name. *)
Definition tok_p (c : ascii) : bool := Re.is_word c || Re.in_set "<>[]" c.

Ltac inv_seqs :=
  repeat match goal with
  | H : matches (Re.RSeq _ _) _ _ _ |- _ => inversion H; subst; clear H
  | H : matches (Re.RGroup _ _) _ _ _ |- _ => inversion H; subst; clear H
  end.

Ltac runs :=
  repeat match goal with
  | H : matches (Re.plus (Re.RChar _)) _ _ _ |- _ =>
      apply plus_char_run in H; destruct H
  | H : matches (Re.RStar _ (Re.RChar _)) _ _ _ |- _ =>
      apply star_char_run in H; destruct H
  end.

(** [([\w\<\>\[\]]+\s+\w+)\s*=]: a type token, spaces, a word, optional
    spaces, then [=]. *)
Lemma default_shape s j :
  matches Re.default_pattern s 0 j ->
  exists j1 j2 j3 j4,
    0 < j1 /\ runp tok_p s 0 j1 /\ j1 < j2 /\ runp Re.is_space s j1 j2 /\
    j2 < j3 /\ runp Re.is_word s j2 j3 /\ j3 <= j4 /\ runp Re.is_space s j3 j4 /\
    nth_error s j4 = Some "="%char.
Proof.
  unfold Re.default_pattern, Re.type_tok, Re.sp, Re.w, Re.star, Re.chr, Re.dot.
  cbn [Re.seqs]. intros H. inv_seqs. runs.
  match goal with
  | H : matches (Re.RChar (fun d => Ascii.eqb d "="%char)) _ _ _ |- _ =>
      inversion H as [|? ? ? c E Hp| | | | | |]; subst
  end.
  apply Ascii.eqb_eq in Hp. subst c.
  do 4 eexists. repeat split; eauto.
Qed.

(** [(ref|out|in|params)\s+([\w\<\>\[\]]+)\s+(\w+)]: a keyword (word
    characters), spaces, a type token, spaces, a word. *)
Lemma modifier_shape s j :
  matches Re.modifier_pattern s 0 j ->
  exists a b c d e,
    runp Re.is_word s 0 a /\ a < b /\ runp Re.is_space s a b /\
    b < c /\ runp tok_p s b c /\ c < d /\ runp Re.is_space s c d /\
    d < e /\ runp Re.is_word s d e.
Proof.
  unfold Re.modifier_pattern, Re.type_tok, Re.sp, Re.w.
  cbn [Re.seqs]. intros H. inv_seqs. runs.
  match goal with
  | H : matches (Re.words _) _ _ _ |- _ =>
      destruct (matches_consumed Re.is_word _ _ _ _ H) as [_ Rw];
      [vm_compute; reflexivity|]
  end.
  do 5 eexists. repeat split; eauto.
Qed.

(** No character is both a type-token character and a space; word
    characters are type-token characters. *)
Lemma tok_space_disjoint c : tok_p c = true -> Re.is_space c = false.
Proof. destruct c as [[] [] [] [] [] [] [] []]; vm_compute; congruence. Qed.

Lemma word_tok c : Re.is_word c = true -> tok_p c = true.
Proof. unfold tok_p. intros ->. reflexivity. Qed.

Lemma re_match_sound r s mt :
  Re.re_match r s = Some mt -> exists j, matches r s 0 j.
Proof.
  unfold Re.re_match. destruct (Re.m r s 0 [] Re.done_k) as [[j h]|] eqn:E;
    [|discriminate]. intros _.
  destruct (m_sound _ _ _ _ _ _ E) as (j' & h' & H & _). eauto.
Qed.

Ltac chars_contra :=
  repeat match goal with H : Re.is_word ?c = true |- _ => apply word_tok in H end;
  match goal with
  | H : tok_p ?c = true, H' : Re.is_space ?c = true |- _ =>
      rewrite (tok_space_disjoint c H) in H'; discriminate
  end.

(** Offset [t] lies in two runs whose classes do not meet. *)
Ltac clash t R1 R2 :=
  let c1 := fresh "c" in let c2 := fresh "c" in
  let E1 := fresh "E" in let E2 := fresh "E" in
  let P1 := fresh "P" in let P2 := fresh "P" in
  destruct (R1 t ltac:(lia)) as (c1 & E1 & P1);
  destruct (R2 t ltac:(lia)) as (c2 & E2 & P2);
  rewrite E1 in E2; injection E2 as <-; chars_contra.

(** Offset [t] holds [=] and lies in a run of spaces or type-token
    characters. *)
Ltac clash_eq t Heq R :=
  let c := fresh "c" in let E := fresh "E" in let P := fresh "P" in
  destruct (R t ltac:(lia)) as (c & E & P);
  rewrite Heq in E; injection E as <-; vm_compute in P; discriminate.

(** A text the modifier pattern matches has no [type name =] prefix. *)
Lemma modifier_excludes_default s :
  Re.re_match Re.modifier_pattern s <> None ->
  Re.re_match Re.default_pattern s = None.
Proof.
  intros Hmod. destruct (Re.re_match Re.modifier_pattern s) as [mt|] eqn:Em;
    [|congruence]. clear Hmod.
  destruct (Re.re_match Re.default_pattern s) as [mt'|] eqn:Ed; [|reflexivity].
  exfalso.
  destruct (re_match_sound _ _ _ Em) as [j Hm].
  destruct (re_match_sound _ _ _ Ed) as [j' Hd].
  destruct (modifier_shape _ _ Hm) as (a & b & c & d & e & Ra & Hab & Rb & Hbc & Rc & Hcd & Rd & Hde & Re_).
  destruct (default_shape _ _ Hd) as (j1 & j2 & j3 & j4 & H0 & D1 & H12 & D2 & H23 & D3 & H34 & D4 & Heq).
  assert (a = j1).
  { destruct (lt_eq_lt_dec a j1) as [[Hlt|]|Hlt]; [clash a D1 Rb | assumption | clash j1 Ra D2]. }
  subst j1.
  assert (b = j2).
  { destruct (lt_eq_lt_dec b j2) as [[Hlt|]|Hlt]; [clash b D2 Rc | assumption | clash j2 Rb D3]. }
  subst j2.
  assert (c = j3).
  { destruct (lt_eq_lt_dec c j3) as [[Hlt|]|Hlt]; [clash c D3 Rd | assumption |].
    destruct (Nat.eq_dec j3 j4) as [<-|Hne]; [clash_eq j3 Heq Rc | clash j3 Rc D4]. }
  subst j3.
  destruct (lt_eq_lt_dec d j4) as [[Hlt|<-]|Hlt].
  - clash d D4 Re_.
  - destruct (Re_ d ltac:(lia)) as (x & E & P). rewrite Heq in E.
    injection E as <-. vm_compute in P. discriminate.
  - clash_eq j4 Heq Rd.
Qed.

Lemma orelse_not_None {A} (x : option A) (y : unit -> option A) :
  x <> None \/ y tt <> None -> Re.orelse x y <> None.
Proof. destruct x; simpl; [congruence | intros [H|H]; [congruence | exact H]]. Qed.

Lemma runp_length p s i j : runp p s i j -> i < j -> j <= length s.
Proof.
  intros R Hij. destruct (R (j - 1) ltac:(lia)) as (c & E & _).
  assert (j - 1 < length s) by (apply nth_error_Some; congruence). lia.
Qed.

(** Greedy repetition of a class succeeds whenever some run of the class
    reaches a point where the continuation succeeds. *)
Lemma star_char_complete p s k j : forall f i g,
  runp p s i j -> i <= j -> j - i < f -> k j g <> None ->
  star_loop true (Re.RChar p) s k f i g <> None.
Proof.
  induction f as [|f IH]; intros i g R Hij Hf Hk; [lia|].
  cbn [star_loop]. apply orelse_not_None.
  destruct (Nat.eq_dec i j) as [->|Hne]; [right; exact Hk|]. left.
  destruct (R i ltac:(lia)) as (c & E & P). cbn [Re.m]. rewrite E, P.
  replace (Nat.leb (S i) i) with false by (symmetry; apply Nat.leb_gt; lia).
  apply IH; [|lia|lia|exact Hk].
  intros t Ht. apply R. lia.
Qed.

Lemma plus_char_complete p s i j g k :
  runp p s i j -> i < j -> k j g <> None ->
  Re.m (Re.plus (Re.RChar p)) s i g k <> None.
Proof.
  intros R Hij Hk. pose proof (runp_length _ _ _ _ R Hij) as Hlen.
  destruct (R i ltac:(lia)) as (c & E & P).
  unfold Re.plus.
  change (Re.m (Re.RSeq (Re.RChar p) (Re.RStar true (Re.RChar p))) s i g k)
    with (match nth_error s i with
          | Some c => if p c then Re.m (Re.RStar true (Re.RChar p)) s (S i) g k
                      else None
          | None => None
          end).
  rewrite E, P, m_star_eq.
  apply star_char_complete with (j := j); [|lia|lia|exact Hk].
  intros t Ht. apply R. lia.
Qed.

(** Whatever the default pattern matches, the type-name pattern matches. *)
Lemma default_implies_type_name s :
  Re.re_match Re.default_pattern s <> None ->
  Re.re_match Re.type_name_pattern s <> None.
Proof.
  intros Hd. destruct (Re.re_match Re.default_pattern s) as [mt|] eqn:Ed;
    [|congruence]. clear Hd.
  destruct (re_match_sound _ _ _ Ed) as [j Hm].
  destruct (default_shape _ _ Hm)
    as (j1 & j2 & j3 & j4 & H0 & D1 & H12 & D2 & H23 & D3 & _).
  unfold Re.re_match.
  enough (Re.m Re.type_name_pattern s 0 [] Re.done_k <> None)
    by (destruct (Re.m _ _ _ _ _) as [[]|]; congruence).
  unfold Re.type_name_pattern. cbn [Re.seqs Re.m].
  apply (plus_char_complete tok_p s 0 j1); [exact D1 | exact H0|].
  apply (plus_char_complete Re.is_space s j1 j2); [exact D2 | exact H12|].
  apply (plus_char_complete Re.is_word s j2 j3); [exact D3 | exact H23|].
  unfold Re.done_k. congruence.
Qed.

(** Which of the three branches of [_parse_single_parameter] names the
    parameter. *)
Inductive branch := BModifier | BTypeName | BRaw.

Definition param_branch (param : list ascii) : branch :=
  match Re.re_match Re.modifier_pattern param with
  | Some _ => BModifier
  | None =>
      match Re.re_match Re.type_name_pattern param with
      | Some _ => BTypeName
      | None => BRaw
      end
  end.

(** Counterexample to C2: the segments [ref int x = 5] (modifier branch)
    and [x = 5] (raw-text fallback) both end in [= 5], yet neither gets a
    default; [int x = 5] (plain type-name branch) does. *)
Lemma default_missed_outside_type_name_branch :
  let p1 := list_ascii_of_string "ref int x = 5" in
  let p2 := list_ascii_of_string "x = 5" in
  let p3 := list_ascii_of_string "int x = 5" in
  param_branch p1 = BModifier /\ p_default (parse_single_parameter p1) = None /\
  param_branch p2 = BRaw /\ p_default (parse_single_parameter p2) = None /\
  param_branch p3 = BTypeName /\
  p_default (parse_single_parameter p3) = Some "5".
Proof. vm_compute. repeat split. Qed.

(** Greedy repetition of a class over a run that ends where the class
    stops: the engine hands the continuation the end of the run first. *)
Lemma star_char_max p s j k res : forall f i g,
  runp p s i j -> i <= j -> j - i < f ->
  (forall c, nth_error s j = Some c -> p c = false) -> k j g = Some res ->
  star_loop true (Re.RChar p) s k f i g = Some res.
Proof.
  induction f as [|f IH]; intros i g R Hij Hf Hend Hk; [lia|].
  cbn [star_loop]. unfold Re.orelse.
  destruct (Nat.eq_dec i j) as [->|Hne].
  - cbn [Re.m]. destruct (nth_error s j) as [c|] eqn:E; [rewrite (Hend c eq_refl); exact Hk|exact Hk].
  - destruct (R i ltac:(lia)) as (c & E & P). cbn [Re.m]. rewrite E, P.
    replace (Nat.leb (S i) i) with false by (symmetry; apply Nat.leb_gt; lia).
    rewrite (IH (S i) g); [reflexivity | | lia | lia | exact Hend | exact Hk].
    intros t Ht. apply R. lia.
Qed.

Lemma star_max_m p s i j g k res :
  runp p s i j -> i <= j ->
  (forall c, nth_error s j = Some c -> p c = false) -> k j g = Some res ->
  Re.m (Re.star (Re.RChar p)) s i g k = Some res.
Proof.
  intros R Hij Hend Hk. unfold Re.star. rewrite m_star_eq.
  assert (j - i < S (length s - i)).
  { destruct (Nat.eq_dec i j) as [->|Hne]; [lia|].
    pose proof (runp_length p s i j R ltac:(lia)). lia. }
  apply star_char_max with j; auto.
Qed.

Lemma plus_max_m p s i j g k res :
  runp p s i j -> i < j ->
  (forall c, nth_error s j = Some c -> p c = false) -> k j g = Some res ->
  Re.m (Re.plus (Re.RChar p)) s i g k = Some res.
Proof.
  intros R Hij Hend Hk. pose proof (runp_length _ _ _ _ R Hij) as Hlen.
  destruct (R i ltac:(lia)) as (c & E & P).
  unfold Re.plus.
  change (Re.m (Re.RSeq (Re.RChar p) (Re.RStar true (Re.RChar p))) s i g k)
    with (match nth_error s i with
          | Some c => if p c then Re.m (Re.RStar true (Re.RChar p)) s (S i) g k
                      else None
          | None => None
          end).
  rewrite E, P, m_star_eq.
  apply star_char_max with (j := j); [|lia|lia|exact Hend|exact Hk].
  intros t Ht. apply R. lia.
Qed.

Lemma runp_app p pre x post :
  forallb p x = true -> runp p (pre ++ x ++ post) (length pre) (length pre + length x).
Proof.
  intros H t Ht. rewrite nth_error_app2 by lia. rewrite nth_error_app1 by lia.
  destruct (nth_error x (t - length pre)) as [c|] eqn:E.
  - exists c. split; [reflexivity|]. rewrite forallb_forall in H.
    apply H. eapply nth_error_In, E.
  - apply nth_error_None in E. lia.
Qed.

Lemma nth_error_after {A} (pre post : list A) :
  nth_error (pre ++ post) (length pre) = hd_error post.
Proof.
  rewrite nth_error_app2 by lia. rewrite Nat.sub_diag. destruct post; reflexivity.
Qed.

Lemma space_not_tok c : Re.is_space c = true -> tok_p c = false.
Proof. destruct c as [[] [] [] [] [] [] [] []]; vm_compute; congruence. Qed.
Lemma word_not_space c : Re.is_word c = true -> Re.is_space c = false.
Proof. destruct c as [[] [] [] [] [] [] [] []]; vm_compute; congruence. Qed.
Lemma space_not_word c : Re.is_space c = true -> Re.is_word c = false.
Proof. destruct c as [[] [] [] [] [] [] [] []]; vm_compute; congruence. Qed.

Definition not_newline (c : ascii) : bool := negb (Ascii.eqb c (ascii_of_nat 10)).


(** [type name = expression], with the expression on one line: the
    default pattern matches the whole text, its second group being the
    expression. *)
Lemma default_pattern_full ty sp1 nm sp2 sp3 c0 rest :
  ty <> [] -> forallb tok_p ty = true ->
  sp1 <> [] -> forallb Re.is_space sp1 = true ->
  nm <> [] -> forallb Re.is_word nm = true ->
  forallb Re.is_space sp2 = true -> forallb Re.is_space sp3 = true ->
  Re.is_space c0 = false -> forallb not_newline (c0 :: rest) = true ->
  let s := ty ++ sp1 ++ nm ++ sp2 ++ ("="%char :: sp3 ++ c0 :: rest) in
  Re.group s (default {| Re.m_start := 0; Re.m_end := 0; Re.m_groups := [] |}
                      (Re.re_match Re.default_pattern s)) 2
  = Some (string_of_list_ascii (c0 :: rest)) /\
  Re.re_match Re.default_pattern s <> None.
Proof.
  intros Hty Tty Hs1 Ts1 Hnm Tnm Ts2 Ts3 Hc0 Te s.
  set (j1 := length ty). set (j2 := j1 + length sp1). set (j3 := j2 + length nm).
  set (j4 := j3 + length sp2). set (j5 := S j4 + length sp3).
  assert (Hlen : length s = j5 + S (length rest)).
  { subst s j1 j2 j3 j4 j5. rewrite !length_app. simpl. rewrite length_app. simpl. lia. }
  assert (Hm : Re.m Re.default_pattern s 0 [] Re.done_k
               = Some (length s, [(2, (j5, length s)); (1, (0, j3))])).
  { unfold Re.default_pattern. cbn [Re.seqs Re.m].
    (* [[\w\<\>\[\]]+] over [ty] *)
    apply (plus_max_m tok_p s 0 j1).
    { apply (runp_app tok_p [] ty), Tty. }
    { unfold j1. destruct ty; [congruence | simpl; lia]. }
    { intros c Hc. subst s j1. rewrite (nth_error_after ty) in Hc.
      destruct sp1 as [|d sp1]; [congruence|]. injection Hc as <-.
      apply space_not_tok. simpl in Ts1. destruct (Re.is_space d); [reflexivity|discriminate]. }
    cbv beta.
    (* [\s+] over [sp1] *)
    apply (plus_max_m Re.is_space s j1 j2).
    { apply (runp_app Re.is_space ty sp1), Ts1. }
    { unfold j2. destruct sp1; [congruence | simpl; lia]. }
    { intros c Hc.
      replace s with ((ty ++ sp1) ++ nm ++ sp2 ++ ("="%char :: sp3 ++ c0 :: rest)) in Hc
        by (subst s; rewrite <- !app_assoc; reflexivity).
      replace j2 with (length (ty ++ sp1)) in Hc
        by (subst j2 j1; rewrite !length_app; lia).
      rewrite nth_error_after in Hc.
      destruct nm as [|d nm]; [congruence|]. injection Hc as <-.
      apply word_not_space. simpl in Tnm. destruct (Re.is_word d); [reflexivity|discriminate]. }
    cbv beta.
    (* [\w+] over [nm] *)
    apply (plus_max_m Re.is_word s j2 j3).
    { replace s with ((ty ++ sp1) ++ nm ++ (sp2 ++ ("="%char :: sp3 ++ c0 :: rest)))
        by (subst s; rewrite <- !app_assoc; reflexivity).
      replace j2 with (length (ty ++ sp1)) by (subst j2 j1; rewrite !length_app; lia).
      replace j3 with (length (ty ++ sp1) + length nm)
        by (subst j3 j2 j1; rewrite !length_app; lia).
      apply runp_app, Tnm. }
    { unfold j3. destruct nm; [congruence | simpl; lia]. }
    { intros c Hc.
      replace s with ((ty ++ sp1 ++ nm) ++ sp2 ++ ("="%char :: sp3 ++ c0 :: rest)) in Hc
        by (subst s; rewrite <- !app_assoc; reflexivity).
      replace j3 with (length (ty ++ sp1 ++ nm)) in Hc
        by (subst j3 j2 j1; rewrite !length_app; lia).
      rewrite nth_error_after in Hc.
      destruct sp2 as [|d sp2]; simpl in Hc; injection Hc as <-; [reflexivity|].
      apply space_not_word. simpl in Ts2. destruct (Re.is_space d); [reflexivity|discriminate]. }
    cbv beta.
    (* [\s*] over [sp2] *)
    apply (star_max_m Re.is_space s j3 j4).
    { replace s with ((ty ++ sp1 ++ nm) ++ sp2 ++ ("="%char :: sp3 ++ c0 :: rest))
        by (subst s; rewrite <- !app_assoc; reflexivity).
      replace j3 with (length (ty ++ sp1 ++ nm)) by (subst j3 j2 j1; rewrite !length_app; lia).
      replace j4 with (length (ty ++ sp1 ++ nm) + length sp2)
        by (subst j4 j3 j2 j1; rewrite !length_app; lia).
      apply runp_app, Ts2. }
    { lia. }
    { intros c Hc.
      replace s with (((ty ++ sp1 ++ nm) ++ sp2) ++ ("="%char :: sp3 ++ c0 :: rest)) in Hc
        by (subst s; rewrite <- !app_assoc; reflexivity).
      replace j4 with (length ((ty ++ sp1 ++ nm) ++ sp2)) in Hc
        by (subst j4 j3 j2 j1; rewrite !length_app; lia).
      rewrite nth_error_after in Hc. injection Hc as <-. reflexivity. }
    cbv beta. unfold Re.chr. cbn [Re.m].
    replace (nth_error s j4) with (Some "="%char).
    2:{ replace s with (((ty ++ sp1 ++ nm) ++ sp2) ++ ("="%char :: sp3 ++ c0 :: rest))
          by (subst s; rewrite <- !app_assoc; reflexivity).
        replace j4 with (length ((ty ++ sp1 ++ nm) ++ sp2))
          by (subst j4 j3 j2 j1; rewrite !length_app; lia).
        rewrite nth_error_after. reflexivity. }
    cbn [Ascii.eqb Bool.eqb andb].
    (* [\s*] over [sp3] *)
    apply (star_max_m Re.is_space s (S j4) j5).
    { replace s with ((((ty ++ sp1 ++ nm) ++ sp2) ++ ["="%char]) ++ sp3 ++ (c0 :: rest))
        by (subst s; rewrite <- !app_assoc; reflexivity).
      replace (S j4) with (length (((ty ++ sp1 ++ nm) ++ sp2) ++ ["="%char]))
        by (subst j4 j3 j2 j1; rewrite !length_app; simpl; lia).
      subst j5. replace (S j4 + length sp3)
        with (length (((ty ++ sp1 ++ nm) ++ sp2) ++ ["="%char]) + length sp3)
        by (subst j4 j3 j2 j1; rewrite !length_app; simpl; lia).
      apply runp_app, Ts3. }
    { lia. }
    { intros c Hc.
      replace s with (((((ty ++ sp1 ++ nm) ++ sp2) ++ ["="%char]) ++ sp3) ++ (c0 :: rest)) in Hc
        by (subst s; rewrite <- !app_assoc; reflexivity).
      replace j5 with (length ((((ty ++ sp1 ++ nm) ++ sp2) ++ ["="%char]) ++ sp3)) in Hc
        by (subst j5 j4 j3 j2 j1; rewrite !length_app; simpl; lia).
      rewrite nth_error_after in Hc. injection Hc as <-. exact Hc0. }
    cbv beta.
    (* [.+] over the expression, to the end *)
    apply (plus_max_m not_newline s j5 (length s)).
    { replace (length s) with
        (length ((((ty ++ sp1 ++ nm) ++ sp2) ++ ["="%char]) ++ sp3) + length (c0 :: rest)).
      2:{ rewrite Hlen. subst j5 j4 j3 j2 j1. rewrite !length_app. simpl. lia. }
      replace s with (((((ty ++ sp1 ++ nm) ++ sp2) ++ ["="%char]) ++ sp3) ++ (c0 :: rest) ++ [])
        by (subst s; rewrite app_nil_r, <- !app_assoc; reflexivity).
      replace j5 with (length ((((ty ++ sp1 ++ nm) ++ sp2) ++ ["="%char]) ++ sp3))
        by (subst j5 j4 j3 j2 j1; rewrite !length_app; simpl; lia).
      apply runp_app, Te. }
    { lia. }
    { intros c Hc. assert (length s < length s) by (apply nth_error_Some; congruence). lia. }
    reflexivity. }
  unfold Re.re_match. rewrite Hm. split; [|discriminate].
  cbn [default Re.m_groups]. unfold Re.group. cbn [Re.lookup_group Nat.eqb].
  unfold Re.substr. f_equal. f_equal.
  replace s with (((((ty ++ sp1 ++ nm) ++ sp2) ++ ["="%char]) ++ sp3) ++ (c0 :: rest))
    by (subst s; rewrite <- !app_assoc; reflexivity).
  replace j5 with (length ((((ty ++ sp1 ++ nm) ++ sp2) ++ ["="%char]) ++ sp3))
    by (subst j5 j4 j3 j2 j1; rewrite !length_app; simpl; lia).
  rewrite skipn_app, skipn_all, Nat.sub_diag, skipn_O, app_nil_l, length_app.
  replace (_ + _ - _) with (length (c0 :: rest)) by lia.
  apply firstn_all.
Qed.

(** C2 (amended): a parameter segment gets a default only in the plain
    type-name branch of the parser.  When the modifier pattern matches, or
    when neither the modifier nor the type-name pattern matches (raw-text
    fallback), the descriptor's default is absent, whatever the segment
    ends with.  In the type-name branch, a segment [type name = expression]
    (a type token, spaces, a word, optional spaces, [=], optional spaces,
    then an expression on one line starting with a non-space) is in that
    branch and gets the stripped expression as its default. *)
Theorem default_only_in_type_name_branch :
  (forall param, param_branch param <> BTypeName ->
     p_default (parse_single_parameter param) = None) /\
  (forall ty sp1 nm sp2 sp3 c0 rest,
     ty <> [] -> forallb tok_p ty = true ->
     sp1 <> [] -> forallb Re.is_space sp1 = true ->
     nm <> [] -> forallb Re.is_word nm = true ->
     forallb Re.is_space sp2 = true -> forallb Re.is_space sp3 = true ->
     Re.is_space c0 = false -> forallb not_newline (c0 :: rest) = true ->
     let param := ty ++ sp1 ++ nm ++ sp2 ++ ("="%char :: sp3 ++ c0 :: rest) in
     param_branch param = BTypeName /\
     p_default (parse_single_parameter param) = Some (Py.str (Py.strip (c0 :: rest)))).
Proof.
  split.
  - intros param. unfold param_branch. intros Hb.
    assert (Hd : Re.re_match Re.default_pattern param = None).
    { destruct (Re.re_match Re.modifier_pattern param) eqn:Em.
      - apply modifier_excludes_default. congruence.
      - destruct (Re.re_match Re.type_name_pattern param) eqn:Et;
          [congruence|].
        destruct (Re.re_match Re.default_pattern param) eqn:Ed; [|reflexivity].
        exfalso. apply (default_implies_type_name param); congruence. }
    unfold parse_single_parameter. rewrite Hd.
    destruct (Re.re_match Re.modifier_pattern param);
      [|destruct (Re.re_match Re.type_name_pattern param)]; reflexivity.
  - intros ty sp1 nm sp2 sp3 c0 rest H1 H2 H3 H4 H5 H6 H7 H8 H9 H10 param.
    destruct (default_pattern_full ty sp1 nm sp2 sp3 c0 rest H1 H2 H3 H4 H5 H6 H7 H8 H9 H10)
      as [Hg Hd]. fold param in Hg, Hd.
    split.
    + unfold param_branch.
      destruct (Re.re_match Re.modifier_pattern param) eqn:Em.
      * exfalso. apply Hd, modifier_excludes_default. congruence.
      * destruct (Re.re_match Re.type_name_pattern param) eqn:Et; [reflexivity|].
        exfalso. apply (default_implies_type_name param Hd). exact Et.
    + unfold parse_single_parameter.
      destruct (Re.re_match Re.default_pattern param) as [mt|] eqn:Ed; [|congruence].
      assert (Hg' : Re.group param mt 2 = Some (string_of_list_ascii (c0 :: rest)))
        by exact Hg.
      destruct (Re.re_match Re.modifier_pattern param);
        [|destruct (Re.re_match Re.type_name_pattern param)];
        cbn [p_default]; unfold grp; rewrite Hg'; simpl default;
        change (String c0 (string_of_list_ascii rest)) with (string_of_list_ascii (c0 :: rest)); rewrite list_ascii_of_string_of_list_ascii; reflexivity.
Qed.

Lemma default_only_in_type_name_branch_witness :
  (param_branch (list_ascii_of_string "ref int x = 5") <> BTypeName /\
   p_default (parse_single_parameter (list_ascii_of_string "ref int x = 5"))
     = None) /\
  (param_branch (list_ascii_of_string "int x = 5") = BTypeName /\
   p_default (parse_single_parameter (list_ascii_of_string "int x = 5"))
     = Some (Py.str (Py.strip (list_ascii_of_string "5")))).
Proof.
  split.
  - split; [vm_compute; discriminate|].
    apply (proj1 default_only_in_type_name_branch). vm_compute. discriminate.
  - exact (proj2 default_only_in_type_name_branch
             (list_ascii_of_string "int") [" "%char] [ "x"%char ] [" "%char] [" "%char]
             "5"%char [] ltac:(discriminate) eq_refl ltac:(discriminate) eq_refl
             ltac:(discriminate) eq_refl eq_refl eq_refl eq_refl eq_refl).
Defined.

(* ----------------------------------------------------------------- *)
(** ** What the statistics counters count *)

(** [c] returns normally and raises the counter [cnt] by exactly [k]. *)
Definition adds (cnt : stats -> nat) (c : M unit) (k : nat) : Prop :=
  forall s, exists s', c s = Ok tt s' /\ cnt (st_stats s') = cnt (st_stats s) + k.

Section Adds.
Context (cnt : stats -> nat).

Lemma adds_weaken c k k' : adds cnt c k -> k = k' -> adds cnt c k'.
Proof. intros H <-. exact H. Qed.

Lemma adds_ret : adds cnt (ret tt) 0.
Proof. intros s. exists s. split; [reflexivity | lia]. Qed.

Lemma adds_bind c (f : unit -> M unit) k1 k2 :
  adds cnt c k1 -> adds cnt (f tt) k2 -> adds cnt (bind c f) (k1 + k2).
Proof.
  intros Hc Hf s. destruct (Hc s) as (s1 & E1 & C1).
  destruct (Hf s1) as (s2 & E2 & C2). exists s2. unfold bind. rewrite E1.
  split; [exact E2 | lia].
Qed.

Lemma adds_node n a : adds cnt (add_node_if_absent n a) 0.
Proof.
  intros s. unfold add_node_if_absent, bind, graph_has_node, gets.
  destruct (has_node (graph s) n); eexists; (split; [reflexivity|]); simpl; lia.
Qed.

Lemma adds_edge u v r : adds cnt (graph_add_edge u v r) 0.
Proof. intros s. eexists. split; [reflexivity|]. simpl. lia. Qed.

Lemma adds_class_method c n : adds cnt (record_class_method c n) 0.
Proof. intros s. eexists. split; [reflexivity|]. simpl. lia. Qed.

Lemma adds_params n ps : adds cnt (record_params n ps) 0.
Proof. intros s. eexists. split; [reflexivity|]. simpl. lia. Qed.

Lemma adds_return n r : adds cnt (record_return n r) 0.
Proof. intros s. eexists. split; [reflexivity|]. simpl. lia. Qed.

Lemma adds_bump0 f : (forall t, cnt (f t) = cnt t) -> adds cnt (bump f) 0.
Proof. intros Hf s. eexists. split; [reflexivity|]. simpl. rewrite Hf. lia. Qed.

Lemma adds_bump1 f : (forall t, cnt (f t) = S (cnt t)) -> adds cnt (bump f) 1.
Proof. intros Hf s. eexists. split; [reflexivity|]. simpl. rewrite Hf. lia. Qed.

Lemma adds_for_each {X} (body : X -> M unit) (k : X -> nat) l :
  (forall x, adds cnt (body x) (k x)) ->
  adds cnt (for_each body l) (list_sum (map k l)).
Proof.
  intros Hb. induction l as [|x l IH]; simpl.
  - apply adds_ret.
  - apply adds_bind; [apply Hb | exact IH].
Qed.

Lemma adds_for_each_caught {X} msg (body : X -> M unit) (k : X -> nat) l :
  (forall x, adds cnt (body x) (k x)) ->
  adds cnt (for_each_caught msg body l) (list_sum (map k l)).
Proof.
  intros Hb. induction l as [|x l IH]; simpl.
  - apply adds_ret.
  - apply adds_bind; [|exact IH].
    intros s. destruct (Hb x s) as (s' & E & C). exists s'.
    unfold try_except. rewrite E. split; [reflexivity | exact C].
Qed.

End Adds.

Lemma list_sum_const0 {X} (l : list X) : list_sum (map (fun _ => 0) l) = 0.
Proof. induction l; simpl; lia. Qed.

Lemma list_sum_const1 {X} (l : list X) : list_sum (map (fun _ => 1) l) = length l.
Proof. induction l; simpl; lia. Qed.

Lemma adds_for_each0 {X} cnt (body : X -> M unit) l :
  (forall x, adds cnt (body x) 0) -> adds cnt (for_each body l) 0.
Proof.
  intros Hb. eapply adds_weaken; [apply (adds_for_each cnt body (fun _ => 0)); exact Hb|].
  apply list_sum_const0.
Qed.

Lemma adds_for_each_caught0 {X} cnt msg (body : X -> M unit) l :
  (forall x, adds cnt (body x) 0) -> adds cnt (for_each_caught msg body l) 0.
Proof.
  intros Hb.
  eapply adds_weaken; [apply (adds_for_each_caught cnt msg body (fun _ => 0)); exact Hb|].
  apply list_sum_const0.
Qed.

Lemma adds_for_each_caught1 {X} cnt msg (body : X -> M unit) l :
  (forall x, adds cnt (body x) 1) ->
  adds cnt (for_each_caught msg body l) (length l).
Proof.
  intros Hb.
  eapply adds_weaken; [apply (adds_for_each_caught cnt msg body (fun _ => 1)); exact Hb|].
  apply list_sum_const1.
Qed.

(** Use [L] at the current amount, or at a fresh one and compare. *)
Ltac adds_apply_then L tac :=
  match goal with
  | |- adds _ _ ?k =>
      tryif is_evar k then (apply L; tac)
      else (eapply adds_weaken; [apply L; tac|])
  end.
Ltac adds_apply L := adds_apply_then L idtac.

(** Steps specific to one counter, redefined before each use. *)
Ltac adds_extra := fail.

Ltac adds_go :=
  repeat match goal with
  | |- adds _ (bind _ _) _ => adds_apply_then adds_bind ltac:(cbv beta zeta)
  | |- adds _ (let _ := _ in _) _ => cbv zeta
  | |- adds _ (if ?b then _ else _) _ => destruct b
  | |- adds _ (match ?x with _ => _ end) _ => destruct x
  | |- adds _ (for_each _ _) _ =>
      adds_apply_then adds_for_each0 ltac:(intros ?; cbv beta zeta)
  | |- adds _ _ _ =>
      first
        [ adds_extra
        | adds_apply adds_ret | adds_apply adds_node | adds_apply adds_edge
        | adds_apply adds_class_method | adds_apply adds_params
        | adds_apply adds_return
        | adds_apply_then adds_bump0 ltac:(intros ?; reflexivity)
        | adds_apply_then adds_bump1 ltac:(intros ?; reflexivity) ]
  end.

Section Preserved.
Context (cnt : stats -> nat).
Hypothesis Pn : forall t, cnt (incr_namespaces t) = cnt t.
Hypothesis Pc : forall t, cnt (incr_classes t) = cnt t.
Hypothesis Pm : forall t, cnt (incr_methods t) = cnt t.
Hypothesis Pi : forall t, cnt (incr_interfaces t) = cnt t.
Hypothesis Pe : forall t, cnt (incr_enums t) = cnt t.
Hypothesis Ps : forall t, cnt (incr_structs t) = cnt t.

Ltac adds_extra ::=
  match goal with
  | |- adds _ (bump _) _ =>
      adds_apply_then adds_bump0
        ltac:(first [exact Pn | exact Pc | exact Pm | exact Pi | exact Pe | exact Ps])
  | |- adds _ (for_each_caught _ _ _) _ =>
      adds_apply_then adds_for_each_caught0 ltac:(intros ?; cbv beta zeta)
  end.

Lemma pv_process_methods c n : adds cnt (process_methods c n) 0.
Proof. unfold process_methods. adds_go; reflexivity. Qed.
Lemma pv_process_properties c n : adds cnt (process_properties c n) 0.
Proof. unfold process_properties. adds_go; reflexivity. Qed.
Lemma pv_process_events c n : adds cnt (process_events c n) 0.
Proof. unfold process_events. adds_go; reflexivity. Qed.
Lemma pv_process_fields c n : adds cnt (process_fields c n) 0.
Proof. unfold process_fields. adds_go; reflexivity. Qed.
Lemma pv_process_bases k p r o i : adds cnt (process_bases k p r o i) 0.
Proof. unfold process_bases. adds_go; reflexivity. Qed.
Lemma pv_process_interface_members c n : adds cnt (process_interface_members c n) 0.
Proof. unfold process_interface_members. adds_go; reflexivity. Qed.

Ltac adds_extra ::=
  match goal with
  | |- adds _ (bump _) _ =>
      adds_apply_then adds_bump0
        ltac:(first [exact Pn | exact Pc | exact Pm | exact Pi | exact Pe | exact Ps])
  | |- adds _ (for_each_caught _ _ _) _ =>
      adds_apply_then adds_for_each_caught0 ltac:(intros ?; cbv beta zeta)
  | |- adds _ _ _ =>
      first [ adds_apply pv_process_methods | adds_apply pv_process_properties
            | adds_apply pv_process_events | adds_apply pv_process_fields
            | adds_apply pv_process_bases | adds_apply pv_process_interface_members ]
  end.

Lemma pv_process_classes c n : adds cnt (process_classes c n) 0.
Proof. unfold process_classes. adds_go; reflexivity. Qed.
Lemma pv_process_interfaces c n : adds cnt (process_interfaces c n) 0.
Proof. unfold process_interfaces. adds_go; reflexivity. Qed.
Lemma pv_process_enums c n : adds cnt (process_enums c n) 0.
Proof. unfold process_enums. adds_go; reflexivity. Qed.
Lemma pv_process_structs c n : adds cnt (process_structs c n) 0.
Proof. unfold process_structs. adds_go; reflexivity. Qed.

Ltac adds_extra ::=
  match goal with
  | |- adds _ (bump _) _ =>
      adds_apply_then adds_bump0
        ltac:(first [exact Pn | exact Pc | exact Pm | exact Pi | exact Pe | exact Ps])
  | |- adds _ (for_each_caught _ _ _) _ =>
      adds_apply_then adds_for_each_caught0 ltac:(intros ?; cbv beta zeta)
  | |- adds _ _ _ =>
      first [ adds_apply pv_process_classes | adds_apply pv_process_interfaces
            | adds_apply pv_process_enums | adds_apply pv_process_structs ]
  end.

Lemma pv_process_namespaces c n : adds cnt (process_namespaces c n) 0.
Proof. unfold process_namespaces. adds_go; reflexivity. Qed.

End Preserved.

Ltac adds_extra ::= fail.

(** The usings loop touches the using counter and the dependency set. *)
Lemma pv_process_usings cnt c n :
  (forall t, cnt (incr_usings t) = cnt t) ->
  (forall d t, cnt (add_dependency d t) = cnt t) ->
  adds cnt (process_usings c n) 0.
Proof.
  intros Pu Pd. unfold process_usings.
  apply adds_for_each_caught0. intros mt. cbv beta zeta.
  adds_go; try (eapply adds_weaken; [apply adds_bump0; intros ?; auto|]);
    reflexivity.
Qed.

Lemma adds_bind_ret {A} cnt (a : A) (f : A -> M unit) k :
  adds cnt (f a) k -> adds cnt (bind (ret a) f) k.
Proof. intros H. exact H. Qed.

Lemma adds_try cnt (c : M unit) h k : adds cnt c k -> adds cnt (try_except c h) k.
Proof.
  intros H s. destruct (H s) as (s' & E & C). exists s'.
  unfold try_except. rewrite E. split; [reflexivity | exact C].
Qed.

Lemma adds_mark cnt p : adds cnt (mark_analyzed p) 0.
Proof. intros s. eexists. split; [reflexivity|]. simpl. lia. Qed.

Lemma adds_files_processed cnt :
  adds cnt (modify (fun s => set_files_processed (S (files_processed s)) s)) 0.
Proof. intros s. eexists. split; [reflexivity|]. simpl. lia. Qed.

Lemma adds_final cnt c k s :
  adds cnt c k -> cnt (st_stats (final_state (c s))) = cnt (st_stats s) + k.
Proof. intros H. destruct (H s) as (s' & -> & C). exact C. Qed.

Lemma count_process_usings c n :
  adds total_usings (process_usings c n) (length (Re.finditer Re.using_pattern c)).
Proof.
  unfold process_usings. apply adds_for_each_caught1. intros mt. cbv beta zeta.
  adds_go; reflexivity.
Qed.

Lemma count_process_methods c n :
  adds total_methods (process_methods c n) (length (Re.finditer Re.method_pattern c)).
Proof.
  unfold process_methods. apply adds_for_each_caught1. intros mt. cbv beta zeta.
  adds_go; reflexivity.
Qed.

(** Recognizers that leave the counter alone, their side conditions
    checked by computation. *)
Ltac adds_extra ::=
  match goal with
  | |- adds _ (bind (ret _) _) _ => apply adds_bind_ret; cbv beta
  | |- adds _ _ _ =>
      first
        [ adds_apply adds_mark | adds_apply adds_files_processed
        | adds_apply_then pv_process_classes ltac:(intros; reflexivity)
        | adds_apply_then pv_process_interfaces ltac:(intros; reflexivity)
        | adds_apply_then pv_process_enums ltac:(intros; reflexivity)
        | adds_apply_then pv_process_structs ltac:(intros; reflexivity)
        | adds_apply_then pv_process_methods ltac:(intros; reflexivity)
        | adds_apply_then pv_process_properties ltac:(intros; reflexivity)
        | adds_apply_then pv_process_events ltac:(intros; reflexivity)
        | adds_apply_then pv_process_fields ltac:(intros; reflexivity)
        | adds_apply_then pv_process_bases ltac:(intros; reflexivity)
        | adds_apply_then pv_process_interface_members ltac:(intros; reflexivity)
        | adds_apply_then pv_process_namespaces ltac:(intros; reflexivity)
        | adds_apply_then pv_process_usings ltac:(intros; reflexivity) ]
  end.

Lemma count_process_namespaces c n :
  adds total_namespaces (process_namespaces c n)
    (length (Re.finditer Re.namespace_pattern c)).
Proof.
  unfold process_namespaces. apply adds_for_each_caught1. intros mt. cbv beta zeta.
  adds_go; reflexivity.
Qed.

Lemma count_file p c s : forall cnt k,
  p ∉ analyzed_files s ->
  adds cnt (bind (modify (fun s => set_files_processed (S (files_processed s)) s))
    (fun _ => bind (read_file (Some c)) (fun content =>
      bind (mark_analyzed p) (fun _ =>
      bind (add_node_if_absent (node_id "File" p)
              [("type", VStr "file"); ("path", VStr p)]) (fun _ =>
      bind (process_usings content (node_id "File" p)) (fun _ =>
      process_namespaces content (node_id "File" p))))))) k ->
  cnt (st_stats (final_state (process_file p (Some c) s))) = cnt (st_stats s) + k.
Proof.
  intros cnt k Hp H. unfold process_file, is_analyzed, gets, bind at 1.
  cbv beta iota. rewrite bool_decide_eq_false_2 by exact Hp.
  apply adds_final, adds_try, H.
Qed.

(** The statistics of a file: [_process_file] on a readable file not yet
    analyzed raises [total_usings] by the number of using directives the
    using pattern matches in its text and [total_namespaces] by the number
    of namespace blocks the namespace pattern matches, one per match, so a
    namespace opened twice, in one file or in two, counts twice though it
    has one node. *)
Theorem file_counts_usings_and_namespaces (p : string) (c : list ascii) (s : St) :
  p ∉ analyzed_files s ->
  total_usings (st_stats (final_state (process_file p (Some c) s)))
    = total_usings (st_stats s) + length (Re.finditer Re.using_pattern c) /\
  total_namespaces (st_stats (final_state (process_file p (Some c) s)))
    = total_namespaces (st_stats s) + length (Re.finditer Re.namespace_pattern c).
Proof.
  intros Hp. split; apply count_file; try exact Hp; unfold read_file.
  - adds_go; try (adds_apply count_process_usings); lia.
  - adds_go; try (adds_apply count_process_namespaces); lia.
Qed.

Definition twice_text : list ascii :=
  list_ascii_of_string
    "using A.B; using A.B; namespace N { class C { } } namespace N { }".

Lemma file_counts_usings_and_namespaces_witness :
  ("T.cs" ∉ analyzed_files init_state) /\
  (total_usings (st_stats (final_state (process_file "T.cs" (Some twice_text) init_state)))
     = total_usings (st_stats init_state)
       + length (Re.finditer Re.using_pattern twice_text) /\
   total_namespaces (st_stats (final_state (process_file "T.cs" (Some twice_text) init_state)))
     = total_namespaces (st_stats init_state)
       + length (Re.finditer Re.namespace_pattern twice_text)).
Proof.
  split; [apply (bool_decide_unpack _); vm_compute; reflexivity|].
  apply (file_counts_usings_and_namespaces "T.cs" twice_text init_state).
  apply (bool_decide_unpack _); vm_compute; reflexivity.
Defined.

Example twice_text_counts :
  length (Re.finditer Re.using_pattern twice_text) = 2 /\
  length (Re.finditer Re.namespace_pattern twice_text) = 2 /\
  size (dom (g_nodes (graph (final_state (process_file "T.cs" (Some twice_text) init_state))))) = 4.
Proof. vm_compute. repeat split. Qed.

(** The methods the method pattern finds in the block that follows a
    declaration match. *)
Definition body_methods (content : list ascii) (mt : Re.match_) : nat :=
  length (Re.finditer Re.method_pattern (extract_block content (Re.m_end mt - 1))).

(** Classes and structs: [total_classes] (resp. [total_structs]) rises by
    one per declaration match, and [total_methods] by the number of method
    matches in each declaration's extracted body, every match counted, so a
    class declared twice (or two same-named classes in two namespaces) is
    counted twice, as are its methods. *)
Theorem classes_structs_count_matches (c : list ascii) (n : string) (s : St) :
  total_classes (st_stats (final_state (process_classes c n s)))
    = total_classes (st_stats s) + length (Re.finditer Re.class_pattern c) /\
  total_methods (st_stats (final_state (process_classes c n s)))
    = total_methods (st_stats s)
      + list_sum (map (body_methods c) (Re.finditer Re.class_pattern c)) /\
  total_structs (st_stats (final_state (process_structs c n s)))
    = total_structs (st_stats s) + length (Re.finditer Re.struct_pattern c) /\
  total_methods (st_stats (final_state (process_structs c n s)))
    = total_methods (st_stats s)
      + list_sum (map (body_methods c) (Re.finditer Re.struct_pattern c)).
Proof.
  repeat split; apply adds_final.
  - unfold process_classes. apply adds_for_each_caught1. intros mt. cbv beta zeta.
    adds_go; lia.
  - unfold process_classes. apply adds_for_each_caught. intros mt.
    cbv beta zeta. unfold body_methods.
    adds_go; try (adds_apply count_process_methods); lia.
  - unfold process_structs. apply adds_for_each_caught1. intros mt. cbv beta zeta.
    adds_go; lia.
  - unfold process_structs. apply adds_for_each_caught. intros mt.
    cbv beta zeta. unfold body_methods.
    adds_go; try (adds_apply count_process_methods); lia.
Qed.

(** Interfaces: [total_interfaces] rises by one per interface match, and
    the methods declared in an interface body never reach [total_methods],
    although each gets a method node and entries in [method_params] and
    [method_returns]. *)
Theorem interfaces_count_matches_not_methods (c : list ascii) (n : string) (s : St) :
  total_interfaces (st_stats (final_state (process_interfaces c n s)))
    = total_interfaces (st_stats s) + length (Re.finditer Re.interface_pattern c) /\
  total_methods (st_stats (final_state (process_interfaces c n s)))
    = total_methods (st_stats s).
Proof.
  split.
  - apply adds_final. unfold process_interfaces. apply adds_for_each_caught1.
    intros mt. cbv beta zeta. adds_go; lia.
  - rewrite (adds_final _ _ 0); [lia|].
    apply pv_process_interfaces; intros; reflexivity.
Qed.

(* ----------------------------------------------------------------- *)
(** ** The file counter of the first pass and [files_processed] *)

(** The test of both [os.walk] passes for a C# source file:
    [f not in self.ignored_files and f.endswith(".cs")]. *)
Definition cs_selected (f : source_file) : bool :=
  negb (existsb (String.eqb (sf_name f)) ignored_files) && Py.endswith ".cs" (sf_name f).

(** The first pass of [analyze_codebase]:
    [self.total_files += sum(1 for f in files if ...)], over the same
    walk (the same directories are pruned in both passes). *)
Definition count_total_files (files : list source_file) : nat :=
  length (List.filter cs_selected files).

(** The paths a file can add to [analyzed_files]: its own, once read. *)
Definition marked (f : source_file) : gset string :=
  match sf_content f with Some _ => {[ sf_path f ]} | None => ∅ end.

Definition fp_inv (n : nat) (X : gset string) (s : St) : Prop :=
  files_processed s = n /\ analyzed_files s ⊆ X.

Section FilesProcessed.
Context (n : nat) (X : gset string).
Local Abbreviation I := (fp_inv n X).

Lemma fp_node v a : hoare I (add_node_if_absent v a) I.
Proof.
  unfold add_node_if_absent. apply hoare_bind; [apply hoare_gets|].
  intros [|]; [apply hoare_ret|]. apply hoare_modify. intros s H; exact H.
Qed.
Lemma fp_edge u v r : hoare I (graph_add_edge u v r) I.
Proof. apply hoare_modify. intros s H; exact H. Qed.
Lemma fp_bump f : hoare I (bump f) I.
Proof. apply hoare_modify. intros s H; exact H. Qed.
Lemma fp_stderr s m : I s -> I (set_stderr m s).
Proof. intros H; exact H. Qed.
Lemma fp_class_method c v : hoare I (record_class_method c v) I.
Proof. apply hoare_modify. intros s H; exact H. Qed.
Lemma fp_params v ps : hoare I (record_params v ps) I.
Proof. apply hoare_modify. intros s H; exact H. Qed.
Lemma fp_return v r : hoare I (record_return v r) I.
Proof. apply hoare_modify. intros s H; exact H. Qed.
Lemma fp_report m : hoare I (report m) I.
Proof. apply hoare_modify. intros s H; exact H. Qed.
Lemma fp_read c : hoare I (read_file c) I.
Proof. destruct c; [apply hoare_ret | apply hoare_raise]. Qed.
Lemma fp_mark p : p ∈ X -> hoare I (mark_analyzed p) I.
Proof.
  intros Hp. apply hoare_modify. intros s [H1 H2]. split; [exact H1|]. simpl. set_solver.
Qed.

Lemma fp_process_usings c v : hoare I (process_usings c v) I.
Proof. apply fr_process_usings; auto using fp_node, fp_edge, fp_bump, fp_stderr. Qed.
Lemma fp_process_namespaces c v : hoare I (process_namespaces c v) I.
Proof.
  apply fr_process_namespaces;
    auto using fp_node, fp_edge, fp_bump, fp_stderr, fp_class_method, fp_params, fp_return.
Qed.
Lemma fp_add_dependency_node f v w r : hoare I (add_dependency_node f v w r) I.
Proof. apply fr_add_dependency_node; auto using fp_node, fp_edge, fp_bump. Qed.
Lemma fp_process_lock_file f c : hoare I (process_lock_file f c) I.
Proof. apply fr_process_lock_file; auto using fp_node, fp_edge, fp_bump. Qed.

End FilesProcessed.

#[local] Hint Resolve fp_node fp_edge fp_bump fp_report fp_read fp_mark
  fp_process_usings fp_process_namespaces fp_add_dependency_node
  fp_process_lock_file : cntxt.

Lemma try_bind_modify (f : St -> St) (k : unit -> M unit) h s :
  try_except (bind (modify f) k) h s = try_except (k tt) h (f s).
Proof. reflexivity. Qed.

Lemma fp_process_file p c s :
  fp_inv (files_processed s + (if bool_decide (p ∈ analyzed_files s) then 0 else 1))
    ({[p]} ∪ analyzed_files s) (final_state (process_file p c s)).
Proof.
  case_bool_decide as Hp.
  - rewrite process_file_skip by exact Hp. split; simpl; [lia | set_solver].
  - unfold process_file, is_analyzed, gets, bind at 1. cbv beta iota.
    rewrite bool_decide_eq_false_2 by exact Hp. rewrite try_bind_modify.
    assert (Hin : p ∈ ({[p]} ∪ analyzed_files s : gset string)) by set_solver.
    set (X := {[p]} ∪ analyzed_files s) in *.
    set (n := files_processed s + 1).
    assert (H : hoare (fp_inv n X) (try_except (
      let* content := read_file c in
      let* _ := mark_analyzed p in
      let* _ := add_node_if_absent (node_id "File" p)
                  [("type", VStr "file"); ("path", VStr p)] in
      let* _ := process_usings content (node_id "File" p) in
      process_namespaces content (node_id "File" p))
      (fun e => report ("Error processing " ++ p ++ ": " ++ e))) (fp_inv n X)).
    { hoare_go. }
    apply H. split; [simpl; unfold n; lia | simpl; unfold X; set_solver].
Qed.

Lemma fp_process_dependency_file p c s :
  fp_inv (files_processed s) ({[p]} ∪ analyzed_files s)
    (final_state (process_dependency_file p c s)).
Proof.
  assert (Hin : p ∈ ({[p]} ∪ analyzed_files s : gset string)) by set_solver.
  set (X := {[p]} ∪ analyzed_files s) in *.
  assert (H : hoare (fp_inv (files_processed s) X) (process_dependency_file p c)
                    (fp_inv (files_processed s) X)).
  { unfold process_dependency_file, is_analyzed. hoare_go. }
  apply H. split; [reflexivity | unfold X; set_solver].
Qed.

Lemma fp_analyze_one f s :
  files_processed (final_state (analyze_one f s))
    = files_processed s
      + (if cs_selected f && negb (bool_decide (sf_path f ∈ analyzed_files s))
         then 1 else 0) /\
  analyzed_files (final_state (analyze_one f s)) ⊆ marked f ∪ analyzed_files s.
Proof.
  destruct f as [p nm c]. unfold analyze_one, cs_selected, marked.
  cbn [sf_name sf_path sf_content].
  destruct (existsb (String.eqb nm) ignored_files); simpl;
    [split; [lia | set_solver]|].
  destruct (Py.endswith ".cs" nm).
  - destruct (fp_process_file p c s) as [H1 H2]. split.
    + rewrite H1. case_bool_decide; simpl; lia.
    + destruct c as [c|].
      * exact H2.
      * rewrite (proj2 (process_file_unreadable p s)). set_solver.
  - destruct (fp_process_dependency_file p c s) as [H1 H2].
    destruct (_ || _); simpl; [split; [lia|] | split; [lia | set_solver]].
    destruct c as [c|].
    + exact H2.
    + rewrite (proj2 (process_dependency_file_unreadable p s)). set_solver.
Qed.

Lemma NoDup_map_same {A B} (h : A -> B) l x y :
  NoDup (map h l) -> In x l -> In y l -> h x = h y -> x = y.
Proof.
  induction l as [|z l IH]; intros Hnd Hx Hy Hxy; [destruct Hx|].
  simpl in Hnd. apply NoDup_cons in Hnd as [Hz Hnd].
  destruct Hx as [<-|Hx], Hy as [<-|Hy]; auto.
  - exfalso. apply Hz. rewrite Hxy. apply list_elem_of_In, in_map, Hy.
  - exfalso. apply Hz. rewrite <- Hxy. apply list_elem_of_In, in_map, Hx.
Qed.

Lemma analyze_one_grows f s : analyzed_files s ⊆ analyzed_files (final_state (analyze_one f s)).
Proof. apply (ag_analyze_one (analyzed_files s) f s). unfold analyzed_contains. done. Qed.

(** With distinct paths, the counter rises once per selected file whose
    path was not analyzed when the run began. *)
Lemma files_processed_run files s :
  NoDup (map sf_path files) ->
  files_processed (run files s)
    = files_processed s
      + length (List.filter (fun f => cs_selected f
                               && negb (bool_decide (sf_path f ∈ analyzed_files s))) files).
Proof.
  induction files as [|f fs IH] in s |- *; intros Hnd; [rewrite run_nil; simpl; lia|].
  rewrite run_cons. simpl in Hnd. apply NoDup_cons in Hnd as [Hf Hnd].
  destruct (fp_analyze_one f s) as [H1 H2].
  pose proof (analyze_one_grows f s) as H3.
  rewrite IH by exact Hnd. rewrite H1.
  set (s1 := final_state (analyze_one f s)) in *.
  rewrite (filter_ext_in _ (fun g => cs_selected g
             && negb (bool_decide (sf_path g ∈ analyzed_files s))) fs).
  - simpl. destruct (cs_selected f && _); simpl; lia.
  - intros g Hg. f_equal. f_equal. apply bool_decide_ext.
    assert (sf_path g ≠ sf_path f)
      by (intros E; apply Hf; rewrite <- E; apply list_elem_of_In, in_map, Hg).
    unfold marked in H2. destruct (sf_content f); set_solver.
Qed.

(** [_process_file] and [_process_dependency_file] mark a path only after
    reading it. *)
Lemma run_analyzed_from files s p :
  p ∈ analyzed_files (run files s) ->
  p ∈ analyzed_files s \/ exists g, In g files /\ sf_path g = p /\ sf_content g <> None.
Proof.
  induction files as [|f fs IH] in s |- *; intros Hp; [left; exact Hp|].
  rewrite run_cons in Hp. destruct (IH _ Hp) as [H|(g & Hg & Hpg & Hc)].
  - destruct (fp_analyze_one f s) as [_ H2]. apply H2 in H.
    unfold marked in H. destruct (sf_content f) eqn:Ec.
    + apply elem_of_union in H as [H|H]; [|left; exact H].
      apply elem_of_singleton in H. right. exists f. split; [left; reflexivity|].
      split; [congruence | rewrite Ec; discriminate].
    + left. set_solver.
  - right. exists g. split; [right; exact Hg | split; assumption].
Qed.

Lemma run_marks_readable files s f c :
  In f files -> cs_selected f = true -> sf_content f = Some c ->
  sf_path f ∈ analyzed_files (run files s).
Proof.
  induction files as [|g fs IH] in s |- *; intros Hf Hsel Hc; [destruct Hf|].
  rewrite run_cons. destruct Hf as [->|Hf]; [|apply IH; assumption].
  apply run_analyzed_grows.
  destruct f as [p nm c']. unfold cs_selected in Hsel. cbn [sf_name sf_path sf_content] in *.
  subst c'. unfold analyze_one. cbn [sf_name sf_path sf_content].
  apply andb_prop in Hsel as [Hi Hcs]. apply negb_true_iff in Hi.
  rewrite Hi, Hcs. apply process_file_marks.
Qed.

(** Two runs over the same files: files_processed runs from a fresh
    analyzer to exactly the first pass's count, and a second run counts
    again every C# file that could not be read. *)
Theorem files_processed_matches_first_pass (files : list source_file) :
  NoDup (map sf_path files) ->
  files_processed (run files init_state) = count_total_files files /\
  files_processed (run files (run files init_state))
    = files_processed (run files init_state)
      + length (List.filter (fun f => cs_selected f
                               && match sf_content f with None => true | Some _ => false end)
                  files).
Proof.
  intros Hnd. split.
  - rewrite files_processed_run by exact Hnd. unfold count_total_files. simpl.
    f_equal. apply filter_ext. intros f. rewrite bool_decide_eq_false_2 by set_solver.
    rewrite andb_true_r. reflexivity.
  - rewrite (files_processed_run files (run files init_state)) by exact Hnd. f_equal.
    f_equal. apply filter_ext_in. intros f Hf.
    destruct (cs_selected f) eqn:Hsel; [simpl|reflexivity].
    destruct (sf_content f) as [c|] eqn:Ec.
    + rewrite bool_decide_eq_true_2; [reflexivity|].
      eapply run_marks_readable; eassumption.
    + rewrite bool_decide_eq_false_2; [reflexivity|]. intros Hin.
      destruct (run_analyzed_from files init_state (sf_path f) Hin)
        as [H|(g & Hg & Hpg & Hc)]; [set_solver|].
      assert (g = f) by (apply (NoDup_map_same sf_path files); assumption).
      subst g. congruence.
Qed.

Definition unreadable_cs : source_file :=
  {| sf_path := "Broken.cs"; sf_name := "Broken.cs"; sf_content := None |}.

Lemma files_processed_matches_first_pass_witness :
  NoDup (map sf_path [small_file; unreadable_cs; dup_csproj]) /\
  (files_processed (run [small_file; unreadable_cs; dup_csproj] init_state)
     = count_total_files [small_file; unreadable_cs; dup_csproj] /\
   files_processed (run [small_file; unreadable_cs; dup_csproj]
                      (run [small_file; unreadable_cs; dup_csproj] init_state))
     = files_processed (run [small_file; unreadable_cs; dup_csproj] init_state)
       + length (List.filter (fun f => cs_selected f
                    && match sf_content f with None => true | Some _ => false end)
                  [small_file; unreadable_cs; dup_csproj])).
Proof.
  assert (Hnd : NoDup (map sf_path [small_file; unreadable_cs; dup_csproj]))
    by (apply (bool_decide_unpack _); vm_compute; reflexivity).
  split; [exact Hnd|]. apply (files_processed_matches_first_pass _ Hnd).
Defined.

Example unreadable_counts :
  count_total_files [small_file; unreadable_cs; dup_csproj] = 2 /\
  files_processed (run [small_file; unreadable_cs; dup_csproj]
                     (run [small_file; unreadable_cs; dup_csproj] init_state)) = 3.
Proof. split; vm_compute; reflexivity. Qed.

(** A file that cannot be read, not analyzed yet: [_process_file] counts
    it in files_processed and reports it, and [_process_dependency_file]
    only reports it; neither marks it analyzed nor touches the graph, the
    metadata or the statistics, so a later pass tries it again. *)
Theorem unreadable_file_only_reported (p : string) (s : St) :
  p ∉ analyzed_files s ->
  (exists e, process_file p None s
     = Ok tt (set_stderr (("Error processing " ++ p ++ ": " ++ e)%string :: stderr s)
                (set_files_processed (S (files_processed s)) s))) /\
  (exists e, process_dependency_file p None s
     = Ok tt (set_stderr (("Error processing dependency file " ++ p ++ ": " ++ e)%string
                            :: stderr s) s)).
Proof.
  intros Hp. split; eexists;
    unfold process_file, process_dependency_file, try_except, bind, is_analyzed, gets;
    rewrite (bool_decide_eq_false_2 _ Hp); reflexivity.
Qed.

Lemma unreadable_file_only_reported_witness :
  ("Broken.cs" ∉ analyzed_files (run [small_file] init_state)) /\
  (exists e, process_file "Broken.cs" None (run [small_file] init_state)
     = Ok tt (set_stderr (("Error processing " ++ "Broken.cs" ++ ": " ++ e)%string
                            :: stderr (run [small_file] init_state))
                (set_files_processed (S (files_processed (run [small_file] init_state)))
                   (run [small_file] init_state)))) /\
  (exists e, process_dependency_file "Broken.cs" None (run [small_file] init_state)
     = Ok tt (set_stderr (("Error processing dependency file " ++ "Broken.cs" ++ ": " ++ e)%string
                            :: stderr (run [small_file] init_state))
                (run [small_file] init_state))).
Proof.
  assert (Hp : "Broken.cs" ∉ analyzed_files (run [small_file] init_state))
    by (apply (bool_decide_unpack _); vm_compute; reflexivity).
  split; [exact Hp|]. apply (unreadable_file_only_reported _ _ Hp).
Defined.

(* ----------------------------------------------------------------- *)
(** ** The dependencies [_process_usings] records *)

(** The characters of [l] before the first [sep]. *)
Fixpoint before_sep (sep : ascii) (l : list ascii) : list ascii :=
  match l with
  | [] => []
  | c :: l' => if Ascii.eqb c sep then [] else c :: before_sep sep l'
  end.

Lemma split_aux_head sep l cur :
  head (Py.split_aux sep l cur) = Some (rev cur ++ before_sep sep l).
Proof.
  induction l as [|c l IH] in cur |- *; simpl.
  - rewrite app_nil_r. reflexivity.
  - destruct (Ascii.eqb c sep); simpl.
    + rewrite app_nil_r. reflexivity.
    + rewrite IH. simpl. rewrite <- app_assoc. reflexivity.
Qed.

Lemma before_sep_no_sep sep l : existsb (Ascii.eqb sep) (before_sep sep l) = false.
Proof.
  induction l as [|c l IH]; simpl; [reflexivity|].
  destruct (Ascii.eqb c sep) eqn:E; simpl; [reflexivity|].
  rewrite IH, orb_false_r. apply Ascii.eqb_neq. intros ->.
  rewrite Ascii.eqb_refl in E. discriminate.
Qed.

Lemma before_sep_prefix sep l : exists r, l = before_sep sep l ++ r.
Proof.
  induction l as [|c l [r IH]]; simpl; [exists []; reflexivity|].
  destruct (Ascii.eqb c sep); [exists (c :: l); reflexivity|].
  exists r. simpl. rewrite <- IH. reflexivity.
Qed.

Lemma is_prefix_app p a b : Py.is_prefix p a = true -> Py.is_prefix p (a ++ b) = true.
Proof.
  induction p as [|c p IH] in a |- *; simpl; [reflexivity|].
  destruct a as [|d a]; simpl; [discriminate|].
  intros [H1 H2]%andb_prop. rewrite H1. simpl. apply IH, H2.
Qed.

(** What [namespace.split('.')[0]] gives. *)
Lemma using_dependency_name ns :
  Py.str (default [] (head (Py.split "." (list_ascii_of_string ns))))
  = Py.str (before_sep "." (list_ascii_of_string ns)).
Proof. unfold Py.split. rewrite split_aux_head. reflexivity. Qed.

(** [namespace] is a name a using of [N] records a dependency for, and [d]
    is what it records: the part of the name before its first dot. *)
Definition using_dependency (N : list string) (d : string) : Prop :=
  exists ns, In ns N /\ Py.startswith "System" ns = false /\ Py.contains "." ns = true /\
    d = Py.str (before_sep "." (list_ascii_of_string ns)).

Definition usings_deps_from (D : gset string) (N : list string) (s : St) : Prop :=
  forall d, d ∈ total_dependencies (st_stats s) -> d ∈ D \/ using_dependency N d.

Lemma hoare_for_each_caught_in (I : St -> Prop) {X} msg (body : X -> M unit) l :
  (forall s m, I s -> I (set_stderr m s)) ->
  (forall x, In x l -> hoare I (body x) I) -> hoare I (for_each_caught msg body l) I.
Proof.
  intros Hr Hb. induction l as [|x l IH]; simpl.
  - apply hoare_ret.
  - apply hoare_bind; [|intros _; apply IH; intros y Hy; apply Hb; right; exact Hy].
    apply hoare_try; [apply Hb; left; reflexivity|]. intros e. apply hoare_modify. auto.
Qed.

Section UsingsFrom.
Context (D : gset string) (N : list string).
Local Abbreviation I := (usings_deps_from D N).

Lemma uf_node n a : hoare I (add_node_if_absent n a) I.
Proof.
  unfold add_node_if_absent. apply hoare_bind; [apply hoare_gets|].
  intros [|]; [apply hoare_ret|]. apply hoare_modify. intros s H; exact H.
Qed.
Lemma uf_edge u v r : hoare I (graph_add_edge u v r) I.
Proof. apply hoare_modify. intros s H; exact H. Qed.
Lemma uf_incr : hoare I (bump incr_usings) I.
Proof. apply hoare_modify. intros s H; exact H. Qed.
Lemma uf_stderr s m : I s -> I (set_stderr m s).
Proof. intros H; exact H. Qed.

Lemma uf_add ns :
  In ns N -> Py.startswith "System" ns = false -> Py.contains "." ns = true ->
  hoare I (bump (add_dependency
             (Py.str (default [] (head (Py.split "." (list_ascii_of_string ns))))))) I.
Proof.
  intros Hn Hsys Hdot. rewrite using_dependency_name. apply hoare_modify.
  intros s H d Hd. simpl in Hd. apply elem_of_union in Hd as [Hd|Hd]; [|apply H, Hd].
  apply elem_of_singleton in Hd. subst d. right. exists ns. auto.
Qed.

End UsingsFrom.

Lemma uf_process_usings D c n :
  hoare (usings_deps_from D (map (fun mt => grp c mt 1) (Re.finditer Re.using_pattern c)))
    (process_usings c n)
    (usings_deps_from D (map (fun mt => grp c mt 1) (Re.finditer Re.using_pattern c))).
Proof.
  unfold process_usings. apply hoare_for_each_caught_in; [apply uf_stderr|].
  intros mt Hmt. cbv zeta.
  apply hoare_bind; [apply uf_node|intros _].
  apply hoare_bind; [apply uf_edge|intros _].
  apply hoare_bind; [apply uf_incr|intros _].
  destruct (negb _ && _) eqn:E; [|apply hoare_ret].
  apply andb_prop in E as [E1 E2]. apply negb_true_iff in E1.
  apply uf_add; [apply (in_map (fun mt => grp c mt 1)), Hmt | exact E1 | exact E2].
Qed.

Lemma before_first_dot_props ns :
  Py.startswith "System" ns = false ->
  Py.contains "." (Py.str (before_sep "." (list_ascii_of_string ns))) = false /\
  Py.startswith "System" (Py.str (before_sep "." (list_ascii_of_string ns))) = false.
Proof.
  intros Hsys. unfold Py.contains, Py.startswith, Py.str.
  rewrite list_ascii_of_string_of_list_ascii. split; [apply before_sep_no_sep|].
  destruct (Py.is_prefix _ (before_sep _ _)) eqn:E; [|reflexivity].
  unfold Py.startswith in Hsys. rewrite <- Hsys.
  destruct (before_sep_prefix "." (list_ascii_of_string ns)) as [r Hr].
  rewrite Hr at 1. symmetry. apply is_prefix_app, E.
Qed.

(** Every dependency that [_process_usings] adds to total_dependencies is
    [namespace.split('.')[0]] for the name [namespace] of one of the usings
    it matched, a name that contains a dot and does not start with
    "System": the part of that name before its first dot, which contains
    no dot and does not start with "System" either. *)
Theorem usings_dependencies_dotless_non_system (content : list ascii) (file_node : string) (s : St) :
  forall d, d ∈ total_dependencies (st_stats (final_state (process_usings content file_node s))) ->
  d ∈ total_dependencies (st_stats s) \/
  exists mt, In mt (Re.finditer Re.using_pattern content) /\
    Py.startswith "System" (grp content mt 1) = false /\
    Py.contains "." (grp content mt 1) = true /\
    d = Py.str (before_sep "." (list_ascii_of_string (grp content mt 1))) /\
    Py.contains "." d = false /\ Py.startswith "System" d = false.
Proof.
  intros d Hd.
  destruct (uf_process_usings (total_dependencies (st_stats s)) content file_node s)
    with (d := d) as [H|(ns & Hn & Hsys & Hdot & ->)];
    [intros d' Hd'; left; exact Hd' | exact Hd | left; exact H |].
  right. apply in_map_iff in Hn as (mt & <- & Hmt).
  exists mt. destruct (before_first_dot_props _ Hsys). auto 7.
Qed.


(** A using whose name starts with a dot records the empty name. *)
Example leading_dot_using_records_empty :
  total_dependencies (st_stats (run [cs_file "D.cs" "using .Foo;"] init_state)) = {[ ""%string ]}.
Proof. vm_compute. reflexivity. Qed.

(* ----------------------------------------------------------------- *)
(** ** Dependency nodes and total_dependencies *)

(** Every node of type [dependency] has a [name], and that name is in
    total_dependencies. *)
Definition dep_nodes_counted (s : St) : Prop :=
  forall n a, g_nodes (graph s) !! n = Some a ->
  attr_get "type" a = Some (VStr "dependency") ->
  exists nm, attr_get "name" a = Some (VStr nm) /\ nm ∈ total_dependencies (st_stats s).

Lemma add_endpoint_lookup N n m a :
  add_endpoint N n !! m = Some a -> N !! m = Some a \/ a = [].
Proof.
  unfold add_endpoint. destruct (N !! n) eqn:E; [left; exact H|].
  destruct (decide (m = n)) as [->|Hne].
  - rewrite lookup_insert_eq. intros [= <-]. right. reflexivity.
  - rewrite lookup_insert_ne by congruence. left. exact H.
Qed.

Section DepNodes.
Local Abbreviation I := dep_nodes_counted.

Lemma dn_node n a :
  attr_get "type" a <> Some (VStr "dependency") -> hoare I (add_node_if_absent n a) I.
Proof.
  intros Ha s H. unfold add_node_if_absent, bind, graph_has_node, gets. simpl.
  destruct (has_node (graph s) n) eqn:Eh; simpl; [exact H|].
  unfold has_node in Eh. apply bool_decide_eq_false in Eh.
  assert (Hn : g_nodes (graph s) !! n = None)
    by (destruct (g_nodes (graph s) !! n); [exfalso; apply Eh; eauto | reflexivity]).
  intros m b. unfold add_node. simpl. rewrite Hn.
  destruct (decide (m = n)) as [->|Hne].
  - rewrite lookup_insert_eq. intros [= <-] Ht. congruence.
  - rewrite lookup_insert_ne by congruence. apply H.
Qed.

Lemma dn_edge u v r : hoare I (graph_add_edge u v r) I.
Proof.
  intros s H m b. simpl. intros Hb Ht.
  apply add_endpoint_lookup in Hb as [Hb| ->]; [|discriminate].
  apply add_endpoint_lookup in Hb as [Hb| ->]; [|discriminate].
  apply (H m b Hb Ht).
Qed.

Lemma dn_bump f :
  (forall t, total_dependencies t ⊆ total_dependencies (f t)) -> hoare I (bump f) I.
Proof.
  intros Hf s H m b Hb Ht. destruct (H m b Hb Ht) as [nm [Hnm Hin]].
  exists nm. split; [exact Hnm|]. apply Hf, Hin.
Qed.

Lemma dn_report m : hoare I (report m) I.
Proof. apply hoare_modify. intros s H; exact H. Qed.
Lemma dn_class_method c n : hoare I (record_class_method c n) I.
Proof. apply hoare_modify. intros s H; exact H. Qed.
Lemma dn_params n ps : hoare I (record_params n ps) I.
Proof. apply hoare_modify. intros s H; exact H. Qed.
Lemma dn_return n r : hoare I (record_return n r) I.
Proof. apply hoare_modify. intros s H; exact H. Qed.
Lemma dn_mark f : hoare I (mark_analyzed f) I.
Proof. apply hoare_modify. intros s H; exact H. Qed.
Lemma dn_files_processed :
  hoare I (modify (fun s => set_files_processed (S (files_processed s)) s)) I.
Proof. apply hoare_modify. intros s H; exact H. Qed.
Lemma dn_read c : hoare I (read_file c) I.
Proof. destruct c; [apply hoare_ret | apply hoare_raise]. Qed.

(** The node and its name in total_dependencies come together. *)
Lemma dn_add_dependency_node f nm v r : hoare I (add_dependency_node f nm v r) I.
Proof.
  intros s H. unfold add_dependency_node, add_node_if_absent, bind, graph_has_node, gets.
  simpl. destruct (has_node (graph s) (node_id "Dependency" nm)) eqn:Eh; simpl.
  - intros m b Hb Ht.
    apply add_endpoint_lookup in Hb as [Hb| ->]; [|discriminate].
    apply add_endpoint_lookup in Hb as [Hb| ->]; [|discriminate].
    destruct (H m b Hb Ht) as [x [Hx Hin]]. exists x. split; [exact Hx|set_solver].
  - unfold has_node in Eh. apply bool_decide_eq_false in Eh.
    assert (Hn : g_nodes (graph s) !! node_id "Dependency" nm = None)
      by (destruct (g_nodes (graph s) !! node_id "Dependency" nm);
          [exfalso; apply Eh; eauto | reflexivity]).
    intros m b Hb Ht.
    apply add_endpoint_lookup in Hb as [Hb| ->]; [|discriminate].
    apply add_endpoint_lookup in Hb as [Hb| ->]; [|discriminate].
    simpl in Hb. rewrite Hn in Hb.
    destruct (decide (m = node_id "Dependency" nm)) as [->|Hne].
    + rewrite lookup_insert_eq in Hb. injection Hb as <-.
      exists nm. split; [reflexivity|set_solver].
    + rewrite lookup_insert_ne in Hb by congruence.
      destruct (H m b Hb Ht) as [x [Hx Hin]]. exists x. split; [exact Hx|set_solver].
Qed.

Lemma dn_process_bases k p rel o i :
  k <> "dependency"%string -> hoare I (process_bases k p rel o i) I.
Proof.
  intros Hk. unfold process_bases. destruct i; [|apply hoare_ret].
  apply hoare_for_each. intros b. cbv zeta. apply hoare_bind; [|intros _; apply dn_edge].
  apply dn_node. simpl. congruence.
Qed.

End DepNodes.

#[local] Hint Resolve dn_edge dn_report dn_class_method dn_params dn_return dn_mark
  dn_files_processed dn_read dn_add_dependency_node : cntxt.

Ltac hoare_extra ::=
  match goal with
  | |- hoare dep_nodes_counted (add_node_if_absent _ _) _ =>
      apply dn_node; simpl; discriminate
  | |- hoare dep_nodes_counted (bump _) _ =>
      apply dn_bump; intros ?; simpl; set_solver
  | |- hoare dep_nodes_counted (process_bases _ _ _ _ _) _ =>
      apply dn_process_bases; discriminate
  end.

Lemma dn_process_methods c n : hoare dep_nodes_counted (process_methods c n) dep_nodes_counted.
Proof. unfold process_methods. hoare_go. Qed.
Lemma dn_process_properties c n : hoare dep_nodes_counted (process_properties c n) dep_nodes_counted.
Proof. unfold process_properties. hoare_go. Qed.
Lemma dn_process_events c n : hoare dep_nodes_counted (process_events c n) dep_nodes_counted.
Proof. unfold process_events. hoare_go. Qed.
Lemma dn_process_fields c n : hoare dep_nodes_counted (process_fields c n) dep_nodes_counted.
Proof. unfold process_fields. hoare_go. Qed.
#[local] Hint Resolve dn_process_methods dn_process_properties dn_process_events
  dn_process_fields : cntxt.
Lemma dn_process_classes c n : hoare dep_nodes_counted (process_classes c n) dep_nodes_counted.
Proof. unfold process_classes. hoare_go. Qed.
Lemma dn_process_interface_members c n :
  hoare dep_nodes_counted (process_interface_members c n) dep_nodes_counted.
Proof. unfold process_interface_members. hoare_go. Qed.
#[local] Hint Resolve dn_process_interface_members : cntxt.
Lemma dn_process_interfaces c n : hoare dep_nodes_counted (process_interfaces c n) dep_nodes_counted.
Proof. unfold process_interfaces. hoare_go. Qed.
Lemma dn_process_enums c n : hoare dep_nodes_counted (process_enums c n) dep_nodes_counted.
Proof. unfold process_enums. hoare_go. Qed.
Lemma dn_process_structs c n : hoare dep_nodes_counted (process_structs c n) dep_nodes_counted.
Proof. unfold process_structs. hoare_go. Qed.
#[local] Hint Resolve dn_process_classes dn_process_interfaces dn_process_enums
  dn_process_structs : cntxt.
Lemma dn_process_namespaces c n : hoare dep_nodes_counted (process_namespaces c n) dep_nodes_counted.
Proof. unfold process_namespaces. hoare_go. Qed.
Lemma dn_process_usings c n : hoare dep_nodes_counted (process_usings c n) dep_nodes_counted.
Proof. unfold process_usings. hoare_go. Qed.
#[local] Hint Resolve dn_process_namespaces dn_process_usings : cntxt.
Lemma dn_process_lock_file f c : hoare dep_nodes_counted (process_lock_file f c) dep_nodes_counted.
Proof. unfold process_lock_file, attribute_error. hoare_go. Qed.
#[local] Hint Resolve dn_process_lock_file : cntxt.
Lemma dn_process_dependency_file f c :
  hoare dep_nodes_counted (process_dependency_file f c) dep_nodes_counted.
Proof. unfold process_dependency_file, is_analyzed. hoare_go. Qed.
Lemma dn_process_file f c : hoare dep_nodes_counted (process_file f c) dep_nodes_counted.
Proof. unfold process_file, is_analyzed. hoare_go. Qed.
#[local] Hint Resolve dn_process_dependency_file dn_process_file : cntxt.
Lemma dn_analyze_codebase fs :
  hoare dep_nodes_counted (analyze_codebase fs) dep_nodes_counted.
Proof. unfold analyze_codebase, analyze_one. hoare_go. Qed.

Ltac hoare_extra ::= fail.

(** After a run from a fresh analyzer, every node of type [dependency]
    (from a .csproj, packages.config or packages.lock.json entry) has a
    name, and that name is in total_dependencies. *)
Theorem dependency_nodes_in_total_dependencies (files : list source_file) :
  forall n a, g_nodes (graph (run files init_state)) !! n = Some a ->
  attr_get "type" a = Some (VStr "dependency") ->
  exists nm, attr_get "name" a = Some (VStr nm) /\
             nm ∈ total_dependencies (st_stats (run files init_state)).
Proof.
  apply (dn_analyze_codebase files init_state).
  intros n a Hn. simpl in Hn. rewrite lookup_empty in Hn. discriminate.
Qed.

Definition dotted_usings : list ascii :=
  list_ascii_of_string "using System.Text; using Newtonsoft.Json.Linq; using static Foo.Bar;".

Lemma usings_dependencies_dotless_non_system_witness :
  "Newtonsoft"%string ∈ total_dependencies
    (st_stats (final_state (process_usings dotted_usings "File: U.cs" init_state))) /\
  ("Newtonsoft"%string ∈ total_dependencies (st_stats init_state) \/
   exists mt, In mt (Re.finditer Re.using_pattern dotted_usings) /\
    Py.startswith "System" (grp dotted_usings mt 1) = false /\
    Py.contains "." (grp dotted_usings mt 1) = true /\
    "Newtonsoft"%string = Py.str (before_sep "." (list_ascii_of_string (grp dotted_usings mt 1))) /\
    Py.contains "." "Newtonsoft" = false /\ Py.startswith "System" "Newtonsoft" = false).
Proof.
  assert (H : "Newtonsoft"%string ∈ total_dependencies
    (st_stats (final_state (process_usings dotted_usings "File: U.cs" init_state))))
    by (apply (bool_decide_unpack _); vm_compute; reflexivity).
  split; [exact H|]. apply (usings_dependencies_dotless_non_system _ _ _ _ H).
Defined.

Example dotted_usings_dependencies :
  total_dependencies
    (st_stats (final_state (process_usings dotted_usings "File: U.cs" init_state)))
  = {[ "Newtonsoft"%string; "Foo"%string ]}.
Proof. apply (bool_decide_unpack _). vm_compute. reflexivity. Qed.

Lemma dependency_nodes_in_total_dependencies_witness :
  g_nodes (graph (run [dup_csproj] init_state)) !! "Dependency: Foo"
    = Some [("type", VStr "dependency"); ("name", VStr "Foo"); ("version", VStr "1.0")] /\
  attr_get "type" [("type", VStr "dependency"); ("name", VStr "Foo"); ("version", VStr "1.0")]
    = Some (VStr "dependency") /\
  exists nm, attr_get "name" [("type", VStr "dependency"); ("name", VStr "Foo");
                               ("version", VStr "1.0")] = Some (VStr nm) /\
             nm ∈ total_dependencies (st_stats (run [dup_csproj] init_state)).
Proof.
  assert (H1 : g_nodes (graph (run [dup_csproj] init_state)) !! "Dependency: Foo"
    = Some [("type", VStr "dependency"); ("name", VStr "Foo"); ("version", VStr "1.0")])
    by (vm_compute; reflexivity).
  assert (H2 : attr_get "type" [("type", VStr "dependency"); ("name", VStr "Foo");
                                ("version", VStr "1.0")] = Some (VStr "dependency"))
    by reflexivity.
  split; [exact H1|]. split; [exact H2|].
  apply (dependency_nodes_in_total_dependencies _ _ _ H1 H2).
Defined.

(* ----------------------------------------------------------------- *)
(** ** The manifest loops of [_process_dependency_file] *)

(** The edge [(u, v)] exists with relation [r]. *)
Definition edge_labelled (G : digraph) (u v r : string) : Prop :=
  exists a, g_edges G !! (u, v) = Some a /\ attr_get "relation" a = Some (VStr r).

Lemma add_edge_labelled G u v r : edge_labelled (add_edge G u v [("relation", VStr r)]) u v r.
Proof.
  eexists. split; [simpl; rewrite lookup_insert_eq; reflexivity|]. apply attr_get_set.
Qed.

Lemma add_edge_keeps_labelled G u v r x y r' :
  (x, y) <> (u, v) -> edge_labelled G x y r' ->
  edge_labelled (add_edge G u v [("relation", VStr r)]) x y r'.
Proof.
  intros Hne [a [Ha Hr]]. exists a. split; [|exact Hr].
  simpl. rewrite lookup_insert_ne by congruence. exact Ha.
Qed.

Lemma add_node_keeps_labelled G n a u v r :
  edge_labelled G u v r -> edge_labelled (add_node G n a) u v r.
Proof. intros H. exact H. Qed.

(** One entry of a manifest loop: it never raises, adds its name to
    total_dependencies, labels its edge, keeps the other edges of the same
    file with the same relation, and touches nothing but the graph and the
    statistics. *)
Lemma add_dependency_node_step f nm v r s :
  exists s', add_dependency_node f nm v r s = Ok tt s' /\
    total_dependencies (st_stats s') = {[ nm ]} ∪ total_dependencies (st_stats s) /\
    edge_labelled (graph s') f (node_id "Dependency" nm) r /\
    (forall y, edge_labelled (graph s) f y r -> edge_labelled (graph s') f y r) /\
    analyzed_files s' = analyzed_files s /\ stderr s' = stderr s /\
    files_processed s' = files_processed s.
Proof.
  unfold add_dependency_node, add_node_if_absent, bind, graph_has_node, gets.
  destruct (has_node (graph s) (node_id "Dependency" nm)); cbn [ret graph_add_node modify];
    (eexists; split; [reflexivity|]); cbn [graph st_stats set_graph set_stats analyzed_files
      stderr files_processed add_dependency total_dependencies];
    (split; [reflexivity|]); (split; [apply add_edge_labelled|]);
    (split; [|repeat split]); intros y Hl;
    (destruct (decide (y = node_id "Dependency" nm)) as [->|Hne];
      [apply add_edge_labelled | apply add_edge_keeps_labelled; [congruence|auto]]).
Qed.

Lemma for_each_dependency_nodes {X} f (g : X -> string) (v : X -> value) r l s :
  exists s', for_each (fun mt => add_dependency_node f (g mt) (v mt) r) l s = Ok tt s' /\
    total_dependencies (st_stats s') = list_to_set (map g l) ∪ total_dependencies (st_stats s) /\
    (forall x, In x l -> edge_labelled (graph s') f (node_id "Dependency" (g x)) r) /\
    (forall y, edge_labelled (graph s) f y r -> edge_labelled (graph s') f y r) /\
    analyzed_files s' = analyzed_files s /\ stderr s' = stderr s /\
    files_processed s' = files_processed s.
Proof.
  induction l as [|x l IH] in s |- *.
  - exists s. simpl. split; [reflexivity|]. split; [set_solver|].
    split; [intros ? []|]. repeat split; auto.
  - destruct (add_dependency_node_step f (g x) (v x) r s)
      as (s1 & E1 & D1 & L1 & K1 & A1 & R1 & P1).
    destruct (IH s1) as (s2 & E2 & D2 & L2 & K2 & A2 & R2 & P2).
    exists s2. simpl. unfold bind. rewrite E1, E2.
    split; [reflexivity|]. split; [rewrite D2, D1; set_solver|].
    split; [intros y [<-|Hy]; [apply K2, L1 | apply L2, Hy]|].
    split; [intros y Hy; apply K2, K1, Hy|].
    split; [congruence|split; congruence].
Qed.

(** What a manifest loop leaves: total_dependencies grows by exactly the
    names the pattern matches, each match has its HAS_DEPENDENCY edge from
    the Dependency File node, the file is marked analyzed, and nothing is
    reported or counted in files_processed. *)
Definition manifest_recorded (pattern : Re.regex) (p : string) (c : list ascii)
    (s s' : St) : Prop :=
  total_dependencies (st_stats s')
    = list_to_set (map (fun mt => grp c mt 1) (Re.finditer pattern c))
      ∪ total_dependencies (st_stats s) /\
  (forall mt, In mt (Re.finditer pattern c) ->
     edge_labelled (graph s') (node_id "Dependency File" p)
       (node_id "Dependency" (grp c mt 1)) "HAS_DEPENDENCY") /\
  p ∈ analyzed_files s' /\ stderr s' = stderr s /\ files_processed s' = files_processed s.

Lemma endswith_config_not_csproj p :
  Py.endswith "packages.config" p = true -> Py.endswith ".csproj" p = false.
Proof.
  unfold Py.endswith. destruct (rev (list_ascii_of_string p)) as [|ch l]; [discriminate|].
  intros H. destruct ch as [[] [] [] [] [] [] [] []]; cbn in H |- *;
    first [discriminate H | reflexivity].
Qed.

Ltac manifest_loop Hp p c :=
  unfold try_except, bind, is_analyzed, gets;
  rewrite (bool_decide_eq_false_2 _ Hp); cbn [read_file ret];
  unfold mark_analyzed, modify, add_node_if_absent, graph_has_node, gets, bind;
  cbv beta iota zeta;
  match goal with |- context [has_node ?G ?n] => destruct (has_node G n) end;
  cbn [ret graph_add_node modify];
  match goal with |- context [for_each ?b ?l ?st] =>
    destruct (for_each_dependency_nodes (node_id "Dependency File" p) (fun mt => grp c mt 1)
      (fun mt => VStr (grp c mt 2)) "HAS_DEPENDENCY" l st)
      as (s2 & E2 & D2 & L2 & K2 & A2 & R2 & P2);
    cbv beta in E2; rewrite E2; cbn [final_state];
    (split; [rewrite D2; reflexivity|]); (split; [exact L2|]);
    rewrite A2, R2, P2; simpl; (split; [set_solver|]); auto
  end.

(** A .csproj or packages.config file, readable and not analyzed yet: its
    PackageReference (or package) entries are all recorded, and
    total_dependencies grows by exactly their names. *)
Theorem manifest_entries_recorded p c s :
  p ∉ analyzed_files s ->
  (Py.endswith ".csproj" p = true ->
   manifest_recorded Re.package_reference_pattern p c s
     (final_state (process_dependency_file p (Some c) s))) /\
  (Py.endswith "packages.config" p = true ->
   manifest_recorded Re.package_config_pattern p c s
     (final_state (process_dependency_file p (Some c) s))).
Proof.
  intros Hp. split; intros He; unfold process_dependency_file.
  - rewrite He. manifest_loop Hp p c.
  - rewrite (endswith_config_not_csproj p He), He. manifest_loop Hp p c.
Qed.

Lemma endswith_lock_not_others p :
  Py.endswith "packages.lock.json" p = true ->
  Py.endswith ".csproj" p = false /\ Py.endswith "packages.config" p = false.
Proof.
  unfold Py.endswith. destruct (rev (list_ascii_of_string p)) as [|ch l]; [discriminate|].
  intros H. destruct ch as [[] [] [] [] [] [] [] []]; cbn in H |- *;
    first [discriminate H | split; reflexivity].
Qed.

Definition two_packages_config : list ascii :=
  dq_text "<packages><package id='Foo' version='1.0' targetFramework='net48' /><package id='Bar' version='2.0' /></packages>".

Lemma manifest_entries_recorded_witness :
  ("packages.config" ∉ analyzed_files init_state) /\
  Py.endswith "packages.config" "packages.config" = true /\
  manifest_recorded Re.package_config_pattern "packages.config" two_packages_config init_state
    (final_state (process_dependency_file "packages.config" (Some two_packages_config) init_state)).
Proof.
  assert (Hp : "packages.config" ∉ analyzed_files init_state)
    by (apply (bool_decide_unpack _); vm_compute; reflexivity).
  assert (He : Py.endswith "packages.config" "packages.config" = true) by reflexivity.
  split; [exact Hp|]. split; [exact He|].
  apply (proj2 (manifest_entries_recorded _ _ _ Hp) He).
Defined.

Example two_packages_config_names :
  total_dependencies (st_stats (final_state
    (process_dependency_file "packages.config" (Some two_packages_config) init_state)))
  = {[ "Foo"%string; "Bar"%string ]}.
Proof. apply (bool_decide_unpack _). vm_compute. reflexivity. Qed.

Lemma for_each_ext {X} (b1 b2 : X -> M unit) l :
  (forall x s, In x l -> b1 x s = b2 x s) -> forall s, for_each b1 l s = for_each b2 l s.
Proof.
  intros H. induction l as [|x l IH]; intros s; simpl; [reflexivity|].
  unfold bind. rewrite (H x s (or_introl eq_refl)).
  destruct (b2 x s); [apply IH; intros; apply H; right; assumption|reflexivity].
Qed.

(** [dep_info.get("resolved", "")] of a dict entry. *)
Definition lock_version (dep_info : json) : value :=
  match dep_info with
  | JObj l => json_value (default (JStr "") (Json.obj_get "resolved" l))
  | _ => VNone
  end.

(** A packages.lock.json whose [dependencies] is a dict of dicts, readable
    and not analyzed yet: every entry gets its dependency node and a
    HAS_LOCKED_DEPENDENCY edge from the Dependency File node,
    total_dependencies grows by exactly the entry names, the file is marked
    analyzed, and nothing is reported. *)
Theorem lock_file_entries_recorded p c s l items :
  p ∉ analyzed_files s -> Py.endswith "packages.lock.json" p = true ->
  Json.loads c = Some (JObj l) ->
  default (JObj []) (Json.obj_get "dependencies" l) = JObj items ->
  Forall (fun kv => exists m, kv.2 = JObj m) items ->
  let s' := final_state (process_dependency_file p (Some c) s) in
  total_dependencies (st_stats s')
    = list_to_set (map fst items) ∪ total_dependencies (st_stats s) /\
  (forall k, In k (map fst items) ->
     edge_labelled (graph s') (node_id "Dependency File" p) (node_id "Dependency" k)
       "HAS_LOCKED_DEPENDENCY") /\
  p ∈ analyzed_files s' /\ stderr s' = stderr s /\ files_processed s' = files_processed s.
Proof.
  intros Hp Hl Hj Hd Hobj. destruct (endswith_lock_not_others p Hl) as [Hc Hg].
  unfold process_dependency_file. rewrite Hc, Hg, Hl.
  unfold try_except, bind, is_analyzed, gets.
  rewrite (bool_decide_eq_false_2 _ Hp). cbn [read_file ret].
  unfold mark_analyzed, modify, add_node_if_absent, graph_has_node, gets, bind.
  cbv beta iota zeta. unfold process_lock_file. rewrite Hj. rewrite Hd.
  unfold bind, ret. cbv beta iota. cbn [graph set_analyzed].
  destruct (has_node (graph s) (node_id "Dependency File" p)) eqn:Eh;
    cbn [ret graph_add_node modify];
  match goal with |- context [for_each ?b ?its ?st] =>
    rewrite (for_each_ext b (fun kv => add_dependency_node (node_id "Dependency File" p)
               kv.1 (lock_version kv.2) "HAS_LOCKED_DEPENDENCY") items);
    [destruct (for_each_dependency_nodes (node_id "Dependency File" p) fst
       (fun kv => lock_version kv.2) "HAS_LOCKED_DEPENDENCY" items st)
       as (s2 & E2 & D2 & L2 & K2 & A2 & R2 & P2);
     cbv beta in E2; rewrite E2; cbn [final_state];
     (split; [exact D2|]);
     (split; [intros k Hk; apply in_map_iff in Hk as ([k' v] & <- & Hin); apply (L2 _ Hin)|]);
     rewrite A2, R2, P2; simpl; (split; [set_solver|]); auto
    | intros [k v] s0 Hin; rewrite Forall_forall in Hobj;
      apply list_elem_of_In in Hin; destruct (Hobj _ Hin) as [m Hm]; simpl in Hm; subst v; reflexivity]
  end.
Qed.

Definition good_lock : list ascii :=
  dq_text "{'version': 1, 'dependencies': {'A': {'resolved': '1.0'}, 'B': {}}}".
Definition good_lock_items : list (string * json) :=
  [("A", JObj [("resolved", JStr "1.0")]); ("B", JObj [])].
Definition good_lock_doc : list (string * json) :=
  [("version", JNum "1"); ("dependencies", JObj good_lock_items)].

Lemma lock_file_entries_recorded_witness :
  ("packages.lock.json" ∉ analyzed_files init_state) /\
  Py.endswith "packages.lock.json" "packages.lock.json" = true /\
  Json.loads good_lock = Some (JObj good_lock_doc) /\
  default (JObj []) (Json.obj_get "dependencies" good_lock_doc) = JObj good_lock_items /\
  Forall (fun kv => exists m, kv.2 = JObj m) good_lock_items /\
  let s' := final_state (process_dependency_file "packages.lock.json" (Some good_lock)
                           init_state) in
  total_dependencies (st_stats s')
    = list_to_set (map fst good_lock_items) ∪ total_dependencies (st_stats init_state) /\
  (forall k, In k (map fst good_lock_items) ->
     edge_labelled (graph s') (node_id "Dependency File" "packages.lock.json")
       (node_id "Dependency" k) "HAS_LOCKED_DEPENDENCY") /\
  "packages.lock.json" ∈ analyzed_files s' /\ stderr s' = stderr init_state /\
  files_processed s' = files_processed init_state.
Proof.
  assert (Hp : "packages.lock.json" ∉ analyzed_files init_state)
    by (apply (bool_decide_unpack _); vm_compute; reflexivity).
  assert (He : Py.endswith "packages.lock.json" "packages.lock.json" = true) by reflexivity.
  assert (Hj : Json.loads good_lock = Some (JObj good_lock_doc)) by (vm_compute; reflexivity).
  assert (Hd : default (JObj []) (Json.obj_get "dependencies" good_lock_doc)
               = JObj good_lock_items) by reflexivity.
  assert (Ho : Forall (fun kv => exists m, kv.2 = JObj m) good_lock_items)
    by (repeat constructor; eexists; reflexivity).
  split; [exact Hp|]. split; [exact He|]. split; [exact Hj|]. split; [exact Hd|].
  split; [exact Ho|].
  apply (lock_file_entries_recorded _ _ _ _ _ Hp He Hj Hd Ho).
Defined.

(* ----------------------------------------------------------------- *)
(** ** Enum members and [_extract_block] edges *)

Lemma existsb_app_l {X} (f : X -> bool) a b :
  existsb f a = true -> existsb f (a ++ b) = true.
Proof. rewrite existsb_app. intros ->. reflexivity. Qed.

Lemma existsb_rev {X} (f : X -> bool) l : existsb f (rev l) = existsb f l.
Proof.
  induction l as [|x l IH]; simpl; [reflexivity|].
  rewrite existsb_app, IH. simpl. rewrite orb_false_r, orb_comm. reflexivity.
Qed.

Lemma existsb_lstrip f l : existsb f (Py.lstrip l) = true -> existsb f l = true.
Proof.
  induction l as [|c l IH]; simpl; [auto|].
  destruct (Py.is_space c); simpl; [intros H; rewrite IH by exact H; apply orb_true_r|auto].
Qed.

Lemma existsb_strip f l : existsb f (Py.strip l) = true -> existsb f l = true.
Proof.
  unfold Py.strip. rewrite existsb_rev. intros H.
  apply existsb_lstrip in H. rewrite existsb_rev in H. apply existsb_lstrip, H.
Qed.

Lemma existsb_before_sep f sep l : existsb f (before_sep sep l) = true -> existsb f l = true.
Proof.
  destruct (before_sep_prefix sep l) as [r Hr]. intros H.
  rewrite Hr. apply existsb_app_l, H.
Qed.

Lemma split_aux_no_sep sep l cur x :
  existsb (Ascii.eqb sep) cur = false -> In x (Py.split_aux sep l cur) ->
  existsb (Ascii.eqb sep) x = false.
Proof.
  induction l as [|c l IH] in cur |- *; simpl; intros Hc Hx.
  - destruct Hx as [<-|[]]. rewrite existsb_rev. exact Hc.
  - destruct (Ascii.eqb c sep) eqn:E.
    + destruct Hx as [<-|Hx]; [rewrite existsb_rev; exact Hc|].
      apply (IH [] (eq_refl) Hx).
    + apply (IH (c :: cur)); [|exact Hx]. simpl. rewrite Hc, orb_false_r.
      apply Ascii.eqb_neq. intros ->. rewrite Ascii.eqb_refl in E. discriminate.
Qed.

(** Every name [_process_enums] gives a member has neither a comma nor an
    equals sign: it is the text of one comma-separated entry of the enum
    body, cut at its first [=]. *)
Theorem enum_members_have_no_comma_or_equals (enum_body : list ascii) (m : string) :
  In m (enum_members enum_body) ->
  Py.contains "," m = false /\ Py.contains "=" m = false.
Proof.
  unfold enum_members. intros Hm. apply in_map_iff in Hm as (member & <- & Hin).
  apply filter_In in Hin as [Hin _].
  unfold Py.contains, Py.str. rewrite list_ascii_of_string_of_list_ascii.
  unfold Py.split in *. rewrite split_aux_head. simpl.
  split.
  - destruct (existsb _ _) eqn:E; [|reflexivity].
    apply existsb_strip, existsb_before_sep, existsb_strip in E.
    rewrite (split_aux_no_sep "," enum_body [] member eq_refl Hin) in E. discriminate.
  - destruct (existsb _ _) eqn:E; [|reflexivity].
    apply existsb_strip in E. rewrite before_sep_no_sep in E. discriminate.
Qed.

Definition tricky_enum_body : list ascii :=
  list_ascii_of_string " Red = 1, Green,, = 4 , Blue=Red|Green ".

Lemma enum_members_have_no_comma_or_equals_witness :
  In ""%string (enum_members tricky_enum_body) /\
  (Py.contains "," "" = false /\ Py.contains "=" "" = false).
Proof.
  assert (H : In ""%string (enum_members tricky_enum_body)) by (vm_compute; auto).
  split; [exact H|]. apply (enum_members_have_no_comma_or_equals _ _ H).
Defined.

Example tricky_enum_members :
  enum_members tricky_enum_body = ["Red"; "Green"; ""; "Blue"].
Proof. vm_compute. reflexivity. Qed.

Lemma extract_loop_prefix cs st : exists rest, cs = (extract_loop cs st ++ rest)%list.
Proof.
  induction cs as [|c cs IH] in st |- *; simpl; [exists []; reflexivity|].
  assert (Hn : forall st', exists rest,
            cs = (match st' with [] => [] | _ :: _ => extract_loop cs st' end ++ rest)%list)
    by (intros [|x st']; [exists cs; reflexivity | apply IH]).
  destruct (Ascii.eqb c "{"); [destruct (Hn (c :: st)) as [r Hr]|].
  - exists r. simpl. f_equal. exact Hr.
  - destruct (Ascii.eqb c "}").
    + destruct st as [|x st']; [exists cs; reflexivity|].
      destruct (Hn st') as [r Hr]. exists r. simpl. f_equal. exact Hr.
    + destruct (Hn st) as [r Hr]. exists r. simpl. f_equal. exact Hr.
Qed.

(** [_extract_block] returns a prefix of [content[start_index:]]: the
    empty string past the end, and the single character at [start_index]
    when that character is not an opening brace (a closing brace or any
    other character ends the loop at once). *)
Theorem extract_block_prefix_and_edges (content : list ascii) (start_index : nat) :
  (exists rest, skipn start_index content = (extract_block content start_index ++ rest)%list) /\
  (length content <= start_index -> extract_block content start_index = []) /\
  (forall c rest, skipn start_index content = c :: rest -> c <> "{"%char ->
     extract_block content start_index = [c]).
Proof.
  unfold extract_block. split; [apply extract_loop_prefix|]. split.
  - intros H. rewrite skipn_all2 by exact H. reflexivity.
  - intros c rest Hs Hc. rewrite Hs. simpl.
    rewrite (proj2 (Ascii.eqb_neq c "{") Hc).
    destruct (Ascii.eqb c "}"); reflexivity.
Qed.

Lemma extract_block_prefix_and_edges_witness :
  skipn 1 (list_ascii_of_string "a}{b}") = "}"%char :: list_ascii_of_string "{b}" /\
  "}"%char <> "{"%char /\
  extract_block (list_ascii_of_string "a}{b}") 1 = ["}"%char].
Proof.
  assert (Hs : skipn 1 (list_ascii_of_string "a}{b}") = "}"%char :: list_ascii_of_string "{b}")
    by reflexivity.
  assert (Hc : "}"%char <> "{"%char) by discriminate.
  split; [exact Hs|]. split; [exact Hc|].
  apply (proj2 (proj2 (extract_block_prefix_and_edges _ _)) _ _ Hs Hc).
Defined.

(* ----------------------------------------------------------------- *)
(** ** [visualize_graph]: node colours *)

(** The [color_map] of [visualize_graph], in its order. *)
Definition color_map : list (string * string) :=
  [("file", "#ADD8E6"); ("namespace", "#87CEFA"); ("class", "#90EE90");
   ("interface", "#32CD32"); ("struct", "#20B2AA"); ("enum", "#FFD700");
   ("enum_member", "#FFA500"); ("method", "#FFE5B4"); ("property", "#FFB6C1");
   ("event", "#E6E6FA"); ("field", "#DDA0DD"); ("dependency_file", "#C0C0C0");
   ("dependency", "#8A2BE2")].

Fixpoint str_assoc (k : string) (l : list (string * string)) : option string :=
  match l with
  | [] => None
  | (k', v) :: l' => if String.eqb k k' then Some v else str_assoc k l'
  end.

(** [color_map.get(self.graph.nodes[node].get("type", "file"), "lightgray")]:
    a string key is looked up; any other hashable value (None, a number, a
    bool) misses; a list or a dict is unhashable and raises [TypeError]
    ([None] here). *)
Definition node_color (a : attrs) : option string :=
  match default (VStr "file") (attr_get "type" a) with
  | VStr t => Some (default "lightgray" (str_assoc t color_map))
  | VNone => Some "lightgray"
  | VParams _ => None
  | VJson j =>
      match j with
      | JStr t => Some (default "lightgray" (str_assoc t color_map))
      | JArr _ | JObj _ => None
      | _ => Some "lightgray"
      end
  end.

(** [node_colors], over the nodes of the graph. *)
Definition node_colors (G : digraph) : list (option string) :=
  map (fun na => node_color na.2) (map_to_list (g_nodes G)).

(** No [type], or a [type] that is a key of [color_map]. *)
Definition typed_okb (a : attrs) : bool :=
  match attr_get "type" a with
  | None => true
  | Some (VStr t) => existsb (String.eqb t) (map fst color_map)
  | Some _ => false
  end.

Definition types_in_color_map (s : St) : Prop :=
  forall n a, g_nodes (graph s) !! n = Some a -> typed_okb a = true.

Section Colours.
Local Abbreviation I := types_in_color_map.

Lemma tc_node n a : typed_okb a = true -> hoare I (add_node_if_absent n a) I.
Proof.
  intros Ha s H. unfold add_node_if_absent, bind, graph_has_node, gets. simpl.
  destruct (has_node (graph s) n) eqn:Eh; simpl; [exact H|].
  unfold has_node in Eh. apply bool_decide_eq_false in Eh.
  assert (Hn : g_nodes (graph s) !! n = None)
    by (destruct (g_nodes (graph s) !! n); [exfalso; apply Eh; eauto | reflexivity]).
  intros m b. unfold add_node. simpl. rewrite Hn.
  destruct (decide (m = n)) as [->|Hne].
  - rewrite lookup_insert_eq. intros [= <-]. exact Ha.
  - rewrite lookup_insert_ne by congruence. apply H.
Qed.

Lemma tc_edge u v r : hoare I (graph_add_edge u v r) I.
Proof.
  intros s H m b. simpl. intros Hb.
  apply add_endpoint_lookup in Hb as [Hb| ->]; [|reflexivity].
  apply add_endpoint_lookup in Hb as [Hb| ->]; [|reflexivity].
  apply (H m b Hb).
Qed.

Lemma tc_bump f : hoare I (bump f) I.
Proof. apply hoare_modify. intros s H; exact H. Qed.
Lemma tc_report m : hoare I (report m) I.
Proof. apply hoare_modify. intros s H; exact H. Qed.
Lemma tc_class_method c n : hoare I (record_class_method c n) I.
Proof. apply hoare_modify. intros s H; exact H. Qed.
Lemma tc_params n ps : hoare I (record_params n ps) I.
Proof. apply hoare_modify. intros s H; exact H. Qed.
Lemma tc_return n r : hoare I (record_return n r) I.
Proof. apply hoare_modify. intros s H; exact H. Qed.
Lemma tc_mark f : hoare I (mark_analyzed f) I.
Proof. apply hoare_modify. intros s H; exact H. Qed.
Lemma tc_files_processed :
  hoare I (modify (fun s => set_files_processed (S (files_processed s)) s)) I.
Proof. apply hoare_modify. intros s H; exact H. Qed.
Lemma tc_read c : hoare I (read_file c) I.
Proof. destruct c; [apply hoare_ret | apply hoare_raise]. Qed.
Lemma tc_stderr s m : I s -> I (set_stderr m s).
Proof. intros H; exact H. Qed.

Lemma tc_process_bases k p rel o i :
  existsb (String.eqb k) (map fst color_map) = true ->
  hoare I (process_bases k p rel o i) I.
Proof.
  intros Hk. unfold process_bases. destruct i; [|apply hoare_ret].
  apply hoare_for_each. intros b. cbv zeta. apply hoare_bind; [|intros _; apply tc_edge].
  apply tc_node. exact Hk.
Qed.

End Colours.

#[local] Hint Resolve tc_edge tc_bump tc_report tc_class_method tc_params tc_return
  tc_mark tc_files_processed tc_read : cntxt.

Ltac hoare_extra ::=
  match goal with
  | |- hoare types_in_color_map (add_node_if_absent _ _) _ =>
      apply tc_node; reflexivity
  | |- hoare types_in_color_map (process_bases _ _ _ _ _) _ =>
      apply tc_process_bases; reflexivity
  end.

Lemma tc_process_methods c n : hoare types_in_color_map (process_methods c n) types_in_color_map.
Proof. unfold process_methods. hoare_go. Qed.
Lemma tc_process_properties c n :
  hoare types_in_color_map (process_properties c n) types_in_color_map.
Proof. unfold process_properties. hoare_go. Qed.
Lemma tc_process_events c n : hoare types_in_color_map (process_events c n) types_in_color_map.
Proof. unfold process_events. hoare_go. Qed.
Lemma tc_process_fields c n : hoare types_in_color_map (process_fields c n) types_in_color_map.
Proof. unfold process_fields. hoare_go. Qed.
#[local] Hint Resolve tc_process_methods tc_process_properties tc_process_events
  tc_process_fields : cntxt.
Lemma tc_process_classes c n : hoare types_in_color_map (process_classes c n) types_in_color_map.
Proof. unfold process_classes. hoare_go. Qed.
Lemma tc_process_interface_members c n :
  hoare types_in_color_map (process_interface_members c n) types_in_color_map.
Proof. unfold process_interface_members. hoare_go. Qed.
#[local] Hint Resolve tc_process_interface_members : cntxt.
Lemma tc_process_interfaces c n :
  hoare types_in_color_map (process_interfaces c n) types_in_color_map.
Proof. unfold process_interfaces. hoare_go. Qed.
Lemma tc_process_enums c n : hoare types_in_color_map (process_enums c n) types_in_color_map.
Proof. unfold process_enums. hoare_go. Qed.
Lemma tc_process_structs c n : hoare types_in_color_map (process_structs c n) types_in_color_map.
Proof. unfold process_structs. hoare_go. Qed.
#[local] Hint Resolve tc_process_classes tc_process_interfaces tc_process_enums
  tc_process_structs : cntxt.
Lemma tc_process_namespaces c n :
  hoare types_in_color_map (process_namespaces c n) types_in_color_map.
Proof. unfold process_namespaces. hoare_go. Qed.
Lemma tc_process_usings c n : hoare types_in_color_map (process_usings c n) types_in_color_map.
Proof. unfold process_usings. hoare_go. Qed.
Lemma tc_add_dependency_node f n v r :
  hoare types_in_color_map (add_dependency_node f n v r) types_in_color_map.
Proof. unfold add_dependency_node. hoare_go. Qed.
#[local] Hint Resolve tc_process_namespaces tc_process_usings tc_add_dependency_node : cntxt.
Lemma tc_process_lock_file f c :
  hoare types_in_color_map (process_lock_file f c) types_in_color_map.
Proof. unfold process_lock_file, attribute_error. hoare_go. Qed.
#[local] Hint Resolve tc_process_lock_file : cntxt.
Lemma tc_process_dependency_file f c :
  hoare types_in_color_map (process_dependency_file f c) types_in_color_map.
Proof. unfold process_dependency_file, is_analyzed. hoare_go. Qed.
Lemma tc_process_file f c : hoare types_in_color_map (process_file f c) types_in_color_map.
Proof. unfold process_file, is_analyzed. hoare_go. Qed.
#[local] Hint Resolve tc_process_dependency_file tc_process_file : cntxt.
Lemma tc_analyze_codebase fs :
  hoare types_in_color_map (analyze_codebase fs) types_in_color_map.
Proof. unfold analyze_codebase, analyze_one. hoare_go. Qed.

Ltac hoare_extra ::= fail.

Lemma str_assoc_in k l :
  existsb (String.eqb k) (map fst l) = true ->
  exists v, str_assoc k l = Some v /\ In v (map snd l).
Proof.
  induction l as [|[k' v] l IH]; simpl; [discriminate|].
  destruct (String.eqb k k'); simpl.
  - intros _. exists v. auto.
  - intros H. destruct (IH H) as [w [Hw Hin]]. exists w. auto.
Qed.

Lemma typed_okb_color a :
  typed_okb a = true -> exists col, node_color a = Some col /\ In col (map snd color_map).
Proof.
  unfold typed_okb, node_color. destruct (attr_get "type" a) as [[t| | |]|];
    cbn [default id]; try discriminate.
  - intros H. destruct (str_assoc_in t color_map H) as [v [-> Hin]]. eauto.
  - intros _. eexists. split; [reflexivity|]. simpl. auto.
Qed.

(** After a run from a fresh analyzer, [visualize_graph] finds a colour of
    its legend for every node: every node's [type] is a key of
    [color_map] (or missing, which reads as ["file"]), so no node is drawn
    in the fallback "lightgray" and the lookup never raises. *)
Theorem node_colors_in_legend (files : list source_file) :
  forall col, In col (node_colors (graph (run files init_state))) ->
  exists c, col = Some c /\ In c (map snd color_map).
Proof.
  intros col Hcol. unfold node_colors in Hcol.
  apply in_map_iff in Hcol as ([n a] & <- & Hin). simpl.
  apply list_elem_of_In, elem_of_map_to_list in Hin.
  assert (Ht : typed_okb a = true).
  { refine (tc_analyze_codebase files init_state _ n a Hin).
    intros m b Hb. simpl in Hb. rewrite lookup_empty in Hb. discriminate. }
  destruct (typed_okb_color a Ht) as [c [Hc Hin']]. eauto.
Qed.

Lemma node_colors_in_legend_witness :
  In (Some "#90EE90") (node_colors (graph (run [methods_file] init_state))) /\
  exists c, Some "#90EE90" = Some c /\ In c (map snd color_map).
Proof.
  assert (H : In (Some "#90EE90") (node_colors (graph (run [methods_file] init_state))))
    by (vm_compute; tauto).
  split; [exact H|]. apply (node_colors_in_legend _ _ H).
Defined.

(* ----------------------------------------------------------------- *)
(** ** [_convert_sets_to_lists] and the metadata of [save_graph] *)

(** Hashable atoms, the only things a Python [set] can hold here. *)
Inductive patom := AStr (s : string) | ANone.

(** Python values as trees: a [set] is given by its iteration order, a
    [dict] by its items in insertion order. *)
Inductive pyval :=
| PAtom (a : patom)
| PList (l : list pyval)
| PSet (l : list patom)
| PDict (d : list (string * pyval)).

Section PyvalInd.
Context (P : pyval -> Prop).
Hypothesis HAtom : forall a, P (PAtom a).
Hypothesis HList : forall l, Forall P l -> P (PList l).
Hypothesis HSet : forall l, P (PSet l).
Hypothesis HDict : forall d, Forall (fun kv => P kv.2) d -> P (PDict d).

Fixpoint pyval_ind' (v : pyval) : P v :=
  match v with
  | PAtom a => HAtom a
  | PList l => HList l ((fix go l : Forall P l :=
                          match l with
                          | [] => @List.Forall_nil _ _
                          | x :: l' => @List.Forall_cons _ _ x l' (pyval_ind' x) (go l')
                          end) l)
  | PSet l => HSet l
  | PDict d => HDict d ((fix go d : Forall (fun kv => P kv.2) d :=
                          match d with
                          | [] => @List.Forall_nil _ _
                          | kv :: d' => @List.Forall_cons _ _ kv d' (pyval_ind' kv.2) (go d')
                          end) d)
  end.
End PyvalInd.

(** What the loop of [_convert_sets_to_lists] stores back under a key:
    a set becomes [list(value)], a dict is converted recursively, and in a
    list each item that is a set or a dict is converted the same way (the
    items of a nested list are not looked at). *)
Fixpoint convert_value (v : pyval) : pyval :=
  match v with
  | PSet l => PList (map PAtom l)
  | PDict d => PDict (map (fun kv => (kv.1, convert_value kv.2)) d)
  | PList l =>
      PList (map (fun item =>
                    match item with
                    | PSet l' => PList (map PAtom l')
                    | PDict d' => PDict (map (fun kv => (kv.1, convert_value kv.2)) d')
                    | _ => item
                    end) l)
  | PAtom a => PAtom a
  end.

(** [_convert_sets_to_lists(data_dict)]: every value is replaced in place,
    the keys and their order are kept, and the same dict is returned. *)
Definition convert_sets_to_lists (data_dict : list (string * pyval))
    : list (string * pyval) :=
  map (fun kv => (kv.1, convert_value kv.2)) data_dict.

Fixpoint set_free (v : pyval) : bool :=
  match v with
  | PSet _ => false
  | PAtom _ => true
  | PList l => forallb set_free l
  | PDict d => forallb (fun kv => set_free kv.2) d
  end.

(** No set where [_convert_sets_to_lists] looks: not as a dict value, at
    any depth of dicts, and not as an item of a list held by a dict. *)
Fixpoint converted (v : pyval) : bool :=
  match v with
  | PSet _ => false
  | PAtom _ => true
  | PList l =>
      forallb (fun item =>
                 match item with
                 | PSet _ => false
                 | PDict d' => forallb (fun kv => converted kv.2) d'
                 | _ => true
                 end) l
  | PDict d => forallb (fun kv => converted kv.2) d
  end.

Lemma convert_value_set_free v : set_free v = true -> convert_value v = v.
Proof.
  induction v as [a|l IH|l|d IH] using pyval_ind'; simpl; intros H.
  - reflexivity.
  - f_equal. rewrite forallb_forall in H. rewrite List.Forall_forall in IH.
    rewrite <- (map_id l) at 2. apply map_ext_in. intros [a|l'|l'|d'] Hin; try reflexivity.
    + specialize (H _ Hin). discriminate.
    + specialize (IH _ Hin (H _ Hin)). simpl in IH. injection IH as IH. rewrite IH. reflexivity.
  - discriminate.
  - f_equal. rewrite forallb_forall in H. rewrite List.Forall_forall in IH.
    rewrite <- (map_id d) at 2. apply map_ext_in. intros [k x] Hin. simpl.
    specialize (IH _ Hin (H _ Hin)). simpl in IH. rewrite IH. reflexivity.
Qed.

Lemma convert_value_converted v : converted (convert_value v) = true.
Proof.
  induction v as [a|l IH|l|d IH] using pyval_ind'; simpl.
  - reflexivity.
  - rewrite forallb_forall. intros y Hy. apply in_map_iff in Hy as (x & <- & Hx).
    rewrite List.Forall_forall in IH. destruct x as [a|l'|l'|d']; try reflexivity.
    specialize (IH _ Hx). simpl in IH |- *. exact IH.
  - rewrite forallb_forall. intros y Hy. apply in_map_iff in Hy as (x & <- & Hx). reflexivity.
  - rewrite forallb_forall. intros y Hy. apply in_map_iff in Hy as (x & <- & Hx).
    rewrite List.Forall_forall in IH. apply IH, Hx.
Qed.

Lemma convert_value_idem v : convert_value (convert_value v) = convert_value v.
Proof.
  induction v as [a|l IH|l|d IH] using pyval_ind'; simpl.
  - reflexivity.
  - f_equal. rewrite map_map. apply map_ext_in. intros x Hx.
    rewrite List.Forall_forall in IH. destruct x as [a|l'|l'|d']; try reflexivity.
    specialize (IH _ Hx). simpl in IH. injection IH as IH. rewrite map_map in IH |- *.
    simpl in IH |- *. rewrite IH. reflexivity.
  - f_equal. rewrite map_map. apply map_ext. intros a. reflexivity.
  - f_equal. rewrite map_map. apply map_ext_in. intros [k x] Hx. simpl.
    rewrite List.Forall_forall in IH. specialize (IH _ Hx). simpl in IH. rewrite IH.
    reflexivity.
Qed.

(** [_convert_sets_to_lists] leaves no set as a dict value (at any depth of
    dicts) or as an item of a list held by a dict, keeps every key in its
    place, and running it again changes nothing. *)
Theorem convert_sets_to_lists_normalizes (data_dict : list (string * pyval)) :
  map fst (convert_sets_to_lists data_dict) = map fst data_dict /\
  forallb (fun kv => converted kv.2) (convert_sets_to_lists data_dict) = true /\
  convert_sets_to_lists (convert_sets_to_lists data_dict) = convert_sets_to_lists data_dict.
Proof.
  unfold convert_sets_to_lists. split; [|split].
  - rewrite map_map. reflexivity.
  - rewrite forallb_forall. intros y Hy. apply in_map_iff in Hy as (x & <- & _).
    apply convert_value_converted.
  - rewrite map_map. apply map_ext. intros [k v]. simpl. rewrite convert_value_idem.
    reflexivity.
Qed.

Lemma convert_sets_to_lists_set_free d :
  forallb (fun kv => set_free kv.2) d = true -> convert_sets_to_lists d = d.
Proof.
  unfold convert_sets_to_lists. induction d as [|[k v] d IH]; simpl; [reflexivity|].
  intros [Hv Hd]%andb_prop. rewrite (convert_value_set_free v Hv), (IH Hd). reflexivity.
Qed.

(** A set inside a list inside a list is not reached. *)
Example nested_set_left :
  convert_sets_to_lists [("k", PList [PList [PSet [AStr "a"]]])]
  = [("k", PList [PList [PSet [AStr "a"]]])].
Proof. reflexivity. Qed.

(** The dict [_parse_single_parameter] builds, with its keys in the order
    they are set. *)
Definition param_py (p : Param) : pyval :=
  let str v := PAtom (AStr v) in
  PDict ([("definition", str (p_definition p))]
         ++ match p_modifier p with Some m => [("modifier", str m)] | None => [] end
         ++ match p_type p with Some t => [("type", str t)] | None => [] end
         ++ [("name", str (p_name p))]
         ++ match p_default p with Some d => [("default", str d)] | None => [] end).

(** [self.method_params] and [self.class_methods] as Python values, with
    their items in the order of the map (the statements below hold for any
    order of the items). *)
Definition method_params_py (s : St) : list (string * pyval) :=
  map (fun kv => (kv.1, PList (map param_py kv.2))) (map_to_list (method_params s)).
Definition class_methods_py (s : St) : list (string * pyval) :=
  map (fun kv => (kv.1, PList (map (fun m => PAtom (AStr m)) kv.2)))
      (map_to_list (class_methods s)).

(** The [method_params] and [class_methods] that [save_graph] writes are
    the analyzer's own, unchanged: they hold lists, dicts and strings but
    no set, so [_convert_sets_to_lists] returns them as they are. *)
Theorem save_graph_metadata_unchanged (s : St) :
  convert_sets_to_lists (method_params_py s) = method_params_py s /\
  convert_sets_to_lists (class_methods_py s) = class_methods_py s.
Proof.
  split; apply convert_sets_to_lists_set_free; rewrite forallb_forall;
    intros y Hy; apply in_map_iff in Hy as ([k v] & <- & _); simpl;
    rewrite forallb_forall; intros z Hz; apply in_map_iff in Hz as (x & <- & _);
    [unfold param_py; destruct (p_modifier x), (p_type x), (p_default x)|]; reflexivity.
Qed.


(* ----------------------------------------------------------------- *)
(** ** The metadata refers to nodes of the graph *)

Create HintDb kn.

(** Every key of [method_params], [method_returns] and [class_methods] is
    a node of the graph. *)
Definition keys_in_graph (s : St) : Prop :=
  (forall k, is_Some (method_params s !! k) -> is_Some (g_nodes (graph s) !! k)) /\
  (forall k, is_Some (method_returns s !! k) -> is_Some (g_nodes (graph s) !! k)) /\
  (forall k, is_Some (class_methods s !! k) -> is_Some (g_nodes (graph s) !! k)).

(** ... and the nodes [L] (the enclosing constructs) are present. *)
Definition keys_with (L : list string) (s : St) : Prop :=
  (forall n, In n L -> is_Some (g_nodes (graph s) !! n)) /\ keys_in_graph s.

Lemma add_endpoint_mono N n m : is_Some (N !! m) -> is_Some (add_endpoint N n !! m).
Proof.
  unfold add_endpoint. destruct (N !! n); [auto|].
  destruct (decide (m = n)) as [->|Hne].
  - rewrite lookup_insert_eq. eauto.
  - rewrite lookup_insert_ne by congruence. auto.
Qed.

Lemma add_node_mono G n a m :
  is_Some (g_nodes G !! m) -> is_Some (g_nodes (add_node G n a) !! m).
Proof.
  unfold add_node. simpl. destruct (decide (m = n)) as [->|Hne].
  - rewrite lookup_insert_eq. eauto.
  - rewrite lookup_insert_ne by congruence. auto.
Qed.

Lemma keys_node_then v a L (k : M unit) :
  hoare (keys_with (v :: L)) k (keys_with (v :: L)) ->
  hoare (keys_with L) (bind (add_node_if_absent v a) (fun _ => k)) (keys_with L).
Proof.
  intros Hk s [HL [Hp [Hr Hc]]].
  assert (E : exists s', add_node_if_absent v a s = Ok tt s' /\ keys_with (v :: L) s').
  { unfold add_node_if_absent, bind, graph_has_node, gets. simpl.
    destruct (has_node (graph s) v) eqn:Eh.
    - exists s. split; [reflexivity|]. split; [|split; [exact Hp|split; [exact Hr|exact Hc]]].
      intros n [<-|Hn]; [|apply HL, Hn].
      unfold has_node in Eh. apply bool_decide_eq_true in Eh. exact Eh.
    - eexists. split; [reflexivity|]. simpl. split; [|split; [|split]].
      + intros n [<-|Hn].
        * unfold add_node. simpl. rewrite lookup_insert_eq. eauto.
        * apply add_node_mono, HL, Hn.
      + intros n Hn. apply add_node_mono, Hp, Hn.
      + intros n Hn. apply add_node_mono, Hr, Hn.
      + intros n Hn. apply add_node_mono, Hc, Hn. }
  destruct E as [s' [E Hs']]. unfold bind. rewrite E.
  destruct (Hk s' Hs') as [HL' HK']. split; [|exact HK'].
  intros n Hn. apply HL'. right. exact Hn.
Qed.

Section KeysInGraph.
Context (L : list string).
Local Abbreviation I := (keys_with L).

Lemma keys_edge u v r : hoare I (graph_add_edge u v r) I.
Proof.
  intros s [HL [Hp [Hr Hc]]]. simpl. unfold add_edge. cbn [g_nodes].
  split; [|split; [|split]]; intros n Hn; apply add_endpoint_mono, add_endpoint_mono;
    [apply HL|apply Hp|apply Hr|apply Hc]; exact Hn.
Qed.

Lemma keys_class_method c n : In c L -> hoare I (record_class_method c n) I.
Proof.
  intros Hc0. apply hoare_modify. intros s [HL [Hp [Hr Hc]]].
  split; [exact HL|]. split; [exact Hp|]. split; [exact Hr|]. simpl.
  intros k. destruct (decide (k = c)) as [->|Hne].
  - intros _. apply HL, Hc0.
  - rewrite lookup_insert_ne by congruence. apply Hc.
Qed.

Lemma keys_params n ps : In n L -> hoare I (record_params n ps) I.
Proof.
  intros Hn0. apply hoare_modify. intros s [HL [Hp [Hr Hc]]].
  split; [exact HL|]. split; [|split; [exact Hr|exact Hc]]. simpl.
  intros k. destruct (decide (k = n)) as [->|Hne].
  - intros _. apply HL, Hn0.
  - rewrite lookup_insert_ne by congruence. apply Hp.
Qed.

Lemma keys_return n r : In n L -> hoare I (record_return n r) I.
Proof.
  intros Hn0. apply hoare_modify. intros s [HL [Hp [Hr Hc]]].
  split; [exact HL|]. split; [exact Hp|]. split; [|exact Hc]. simpl.
  intros k. destruct (decide (k = n)) as [->|Hne].
  - intros _. apply HL, Hn0.
  - rewrite lookup_insert_ne by congruence. apply Hr.
Qed.

Lemma keys_bump f : hoare I (bump f) I.
Proof. apply hoare_modify. intros s H; exact H. Qed.
Lemma keys_report m : hoare I (report m) I.
Proof. apply hoare_modify. intros s H; exact H. Qed.
Lemma keys_mark f : hoare I (mark_analyzed f) I.
Proof. apply hoare_modify. intros s H; exact H. Qed.
Lemma keys_files_processed :
  hoare I (modify (fun s => set_files_processed (S (files_processed s)) s)) I.
Proof. apply hoare_modify. intros s H; exact H. Qed.
Lemma keys_read c : hoare I (read_file c) I.
Proof. destruct c; [apply hoare_ret | apply hoare_raise]. Qed.

End KeysInGraph.

#[local] Hint Resolve keys_edge keys_class_method keys_params keys_return keys_bump
  keys_report keys_mark keys_files_processed keys_read in_eq in_cons : kn.

Ltac hoare_extra ::=
  match goal with
  | |- hoare (keys_with _) (bind (add_node_if_absent _ _) (fun _ => _)) _ =>
      apply keys_node_then
  | |- hoare (keys_with _) _ _ => solve [eauto with kn]
  end.

Lemma keys_process_methods L c p :
  In p L -> hoare (keys_with L) (process_methods c p) (keys_with L).
Proof. intros Hp. unfold process_methods. hoare_go. Qed.
Lemma keys_process_properties L c p :
  hoare (keys_with L) (process_properties c p) (keys_with L).
Proof. unfold process_properties. hoare_go. Qed.
Lemma keys_process_events L c p :
  hoare (keys_with L) (process_events c p) (keys_with L).
Proof. unfold process_events. hoare_go. Qed.
Lemma keys_process_fields L c p :
  hoare (keys_with L) (process_fields c p) (keys_with L).
Proof. unfold process_fields. hoare_go. Qed.
Lemma keys_process_bases L k pre r o i :
  hoare (keys_with L) (process_bases k pre r o i) (keys_with L).
Proof. unfold process_bases. hoare_go. Qed.
#[local] Hint Resolve keys_process_methods keys_process_properties keys_process_events
  keys_process_fields keys_process_bases : kn.
Lemma keys_process_classes L c p :
  hoare (keys_with L) (process_classes c p) (keys_with L).
Proof. unfold process_classes. hoare_go. Qed.
Lemma keys_process_interface_members L c p :
  hoare (keys_with L) (process_interface_members c p) (keys_with L).
Proof. unfold process_interface_members. hoare_go. Qed.
#[local] Hint Resolve keys_process_interface_members : kn.
Lemma keys_process_interfaces L c p :
  hoare (keys_with L) (process_interfaces c p) (keys_with L).
Proof. unfold process_interfaces. hoare_go. Qed.
Lemma keys_process_enums L c p :
  hoare (keys_with L) (process_enums c p) (keys_with L).
Proof. unfold process_enums. hoare_go. Qed.
Lemma keys_process_structs L c p :
  hoare (keys_with L) (process_structs c p) (keys_with L).
Proof. unfold process_structs. hoare_go. Qed.
#[local] Hint Resolve keys_process_classes keys_process_interfaces keys_process_enums
  keys_process_structs : kn.
Lemma keys_process_namespaces L c p :
  hoare (keys_with L) (process_namespaces c p) (keys_with L).
Proof. unfold process_namespaces. hoare_go. Qed.
Lemma keys_process_usings L c p :
  hoare (keys_with L) (process_usings c p) (keys_with L).
Proof. unfold process_usings. hoare_go. Qed.
Lemma keys_add_dependency_node L f n v r :
  hoare (keys_with L) (add_dependency_node f n v r) (keys_with L).
Proof. unfold add_dependency_node. hoare_go. Qed.
#[local] Hint Resolve keys_process_namespaces keys_process_usings keys_add_dependency_node
  : kn.
Lemma keys_process_lock_file L f c :
  hoare (keys_with L) (process_lock_file f c) (keys_with L).
Proof. unfold process_lock_file, attribute_error. hoare_go. Qed.
#[local] Hint Resolve keys_process_lock_file : kn.
Lemma keys_process_dependency_file f c :
  hoare (keys_with []) (process_dependency_file f c) (keys_with []).
Proof. unfold process_dependency_file, is_analyzed. hoare_go. Qed.
Lemma keys_process_file f c :
  hoare (keys_with []) (process_file f c) (keys_with []).
Proof. unfold process_file, is_analyzed. hoare_go. Qed.
#[local] Hint Resolve keys_process_dependency_file keys_process_file : kn.
Lemma keys_analyze_codebase fs :
  hoare (keys_with []) (analyze_codebase fs) (keys_with []).
Proof. unfold analyze_codebase, analyze_one. hoare_go. Qed.

Ltac hoare_extra ::= fail.

(** After a run from a fresh analyzer, every key of [method_params],
    [method_returns] and [class_methods] (the metadata [save_graph]
    writes) is a node of the graph: a method is recorded only after its
    node is added, and a class only inside the loop over its own node. *)
Theorem metadata_keys_are_nodes (files : list source_file) (k : string) :
  is_Some (method_params (run files init_state) !! k) \/
  is_Some (method_returns (run files init_state) !! k) \/
  is_Some (class_methods (run files init_state) !! k) ->
  is_Some (g_nodes (graph (run files init_state)) !! k).
Proof.
  destruct (keys_analyze_codebase files init_state) as [_ [Hp [Hr Hc]]].
  - split; [intros n []|].
    split; [|split]; intros n [x Hx]; simpl in Hx; rewrite lookup_empty in Hx; discriminate.
  - intros [H|[H|H]]; [apply Hp|apply Hr|apply Hc]; exact H.
Qed.

Lemma metadata_keys_are_nodes_witness :
  (is_Some (method_params (run [methods_file] init_state) !! "Method: Add (Class: C)") \/
   is_Some (method_returns (run [methods_file] init_state) !! "Method: Add (Class: C)") \/
   is_Some (class_methods (run [methods_file] init_state) !! "Method: Add (Class: C)")) /\
  is_Some (g_nodes (graph (run [methods_file] init_state)) !! "Method: Add (Class: C)").
Proof.
  assert (H : is_Some (method_params (run [methods_file] init_state)
                         !! "Method: Add (Class: C)"))
    by (vm_compute; eauto).
  split; [left; exact H|]. apply metadata_keys_are_nodes. left. exact H.
Defined.
